(** * libwyag: object store and KVLM codec

    A shallow embedding of [libwyag.py] (the object database of the
    write-your-own-git exercise) and the properties of its framing,
    addressing and key-value-list-with-message codec.

    Python [bytes] are lists of [byte]; Python [int] indices are [Z], so that
    the [-1] returned by [bytes.find] and the negative-index rules of slicing
    are the real ones.  Exceptions are values of [exn]; a [while True] loop
    takes the number of iterations it may run and answers [None] while it is
    still running; the interpreter's recursion limit is a parameter of the
    recursive parser. *)

From Stdlib Require Import ZArith Lia List Bool.
From Stdlib Require Import Strings.Byte Strings.String Strings.Ascii.
From Stdlib Require Import Decimal DecimalPos DecimalZ.
From stdpp Require Import base option list gmap strings.
Import ListNotations.

Open Scope Z_scope.

(** ** Python values used by the module *)

Abbreviation bytes := (list byte).

(** The exceptions the modelled code can raise.  [Exception] is the generic
    class the module raises itself, with its formatted message; the others are
    raised by the language and the library operations. *)
Inductive exn : Type :=
| Exception (msg : string)
| AssertionError
| IndexError
| KeyError
| NameError (name : string)
| TypeError
| ValueError
| AttributeError
| UnicodeDecodeError
| RecursionError
| ZlibError
| FileNotFoundError
| FileExistsError
| NotADirectoryError
| IsADirectoryError.

Inductive result (A : Type) : Type :=
| Ok (a : A)
| Raise (e : exn).
Arguments Ok {A} a.
Arguments Raise {A} e.

Definition bind {A B} (r : result A) (k : A -> result B) : result B :=
  match r with
  | Ok a => k a
  | Raise e => Raise e
  end.

Declare Scope py_scope.
Delimit Scope py_scope with py.
Notation "'let*' x ':=' r 'in' k" := (bind r (fun x => k))
  (at level 10, x name, r at level 100, k at level 200) : py_scope.
Open Scope py_scope.

Module Py.

Definition SP : byte := x20.
Definition LF : byte := x0a.
Definition NUL : byte := x00.

(** [len(b)] *)
Definition len (b : bytes) : Z := Z.of_nat (length b).

(** How a slice bound or a [find] start is brought into [0 .. n]:
    a negative index counts from the end and is clipped at 0, a
    non-negative one is clipped at [n]. *)
Definition adjust (n i : Z) : Z :=
  if i <? 0 then Z.max 0 (i + n) else Z.min i n.

(** [raw[lo:hi]] *)
Definition slice (raw : bytes) (lo hi : Z) : bytes :=
  let a := adjust (len raw) lo in
  let b := adjust (len raw) hi in
  take (Z.to_nat (b - a)) (drop (Z.to_nat a) raw).

(** [raw[lo:]] *)
Definition slice_from (raw : bytes) (lo : Z) : bytes :=
  drop (Z.to_nat (adjust (len raw) lo)) raw.

(** [raw[i]]: an integer index, negative ones counting from the end,
    [IndexError] outside the range. *)
Definition getitem (raw : bytes) (i : Z) : result byte :=
  let j := if i <? 0 then i + len raw else i in
  if (j <? 0) || (len raw <=? j) then Raise IndexError
  else match raw !! Z.to_nat j with
       | Some c => Ok c
       | None => Raise IndexError
       end.

(** Index of the first [c] in [l], whose head has index [i]; [-1] if none. *)
Fixpoint find_at (c : byte) (l : bytes) (i : Z) : Z :=
  match l with
  | [] => -1
  | x :: l' => if Byte.eqb x c then i else find_at c l' (i + 1)
  end.

(** [raw.find(c, start)] for a one-byte needle. *)
Definition find (raw : bytes) (c : byte) (start : Z) : Z :=
  let s := if start <? 0 then Z.max 0 (start + len raw) else start in
  if len raw <? s then -1
  else find_at c (drop (Z.to_nat s) raw) s.

Fixpoint is_prefix (p l : bytes) : bool :=
  match p, l with
  | [], _ => true
  | _ :: _, [] => false
  | x :: p', y :: l' => Byte.eqb x y && is_prefix p' l'
  end.

(** [v.replace(old, new)] for a non-empty [old]: occurrences are found
    left to right and do not overlap.  [skip] counts the bytes of the
    occurrence just replaced that are still to be passed over. *)
Fixpoint replace_go (old new : bytes) (skip : nat) (v : bytes) : bytes :=
  match v with
  | [] => []
  | x :: t =>
      match skip with
      | S k => replace_go old new k t
      | O => if is_prefix old v
             then new ++ replace_go old new (length old - 1) t
             else x :: replace_go old new 0 t
      end
  end.

Definition replace (v old new : bytes) : bytes := replace_go old new 0 v.

(** [str(n).encode()] *)
Fixpoint uint_bytes (d : uint) : bytes :=
  match d with
  | Nil => []
  | D0 d => x30 :: uint_bytes d
  | D1 d => x31 :: uint_bytes d
  | D2 d => x32 :: uint_bytes d
  | D3 d => x33 :: uint_bytes d
  | D4 d => x34 :: uint_bytes d
  | D5 d => x35 :: uint_bytes d
  | D6 d => x36 :: uint_bytes d
  | D7 d => x37 :: uint_bytes d
  | D8 d => x38 :: uint_bytes d
  | D9 d => x39 :: uint_bytes d
  end.

Definition str (n : Z) : bytes :=
  match Z.to_int n with
  | Pos d => uint_bytes d
  | Neg d => x2d :: uint_bytes d
  end.

Definition digit (c : byte) : option (uint -> uint) :=
  match c with
  | x30 => Some D0 | x31 => Some D1 | x32 => Some D2 | x33 => Some D3
  | x34 => Some D4 | x35 => Some D5 | x36 => Some D6 | x37 => Some D7
  | x38 => Some D8 | x39 => Some D9
  | _ => None
  end.

(** The digits of an integer literal as [int()] reads them: one underscore
    may stand between two digits. *)
Fixpoint digits (after_digit : bool) (l : bytes) : option uint :=
  match l with
  | [] => if after_digit then Some Nil else None
  | c :: r =>
      match digit c with
      | Some d => option_map d (digits true r)
      | None => if Byte.eqb c x5f && after_digit
                then digits false r
                else None
      end
  end.

(** The white space [int()] skips on both sides. *)
Definition is_space (c : byte) : bool :=
  match c with
  | x09 | x0a | x0b | x0c | x0d | x20 => true
  | _ => false
  end.

Fixpoint lstrip (l : bytes) : bytes :=
  match l with
  | c :: r => if is_space c then lstrip r else l
  | [] => []
  end.

Definition strip (l : bytes) : bytes := rev (lstrip (rev (lstrip l))).

Definition is_ascii (c : byte) : bool := (Byte.to_N c <? 128)%N.

(** [repr(b)] of a [bytes] object, which is also what [str(b)] and the
    format [%s] give: [b], a quote, the bytes with the quote, the
    backslash and what is not printable escaped, and the quote; the quote
    is the double one when the bytes hold a single quote and no double
    one. *)
Definition repr_hex (n : N) : byte :=
  match n with
  | 0 => x30 | 1 => x31 | 2 => x32 | 3 => x33 | 4 => x34 | 5 => x35
  | 6 => x36 | 7 => x37 | 8 => x38 | 9 => x39 | 10 => x61 | 11 => x62
  | 12 => x63 | 13 => x64 | 14 => x65 | _ => x66
  end%N.

Definition repr_byte (quote c : byte) : bytes :=
  if Byte.eqb c quote || Byte.eqb c x5c then [x5c; c]
  else if Byte.eqb c x09 then [x5c; x74]
  else if Byte.eqb c x0a then [x5c; x6e]
  else if Byte.eqb c x0d then [x5c; x72]
  else if (Byte.to_N c <? 32)%N || (127 <=? Byte.to_N c)%N then
    [x5c; x78; repr_hex (Byte.to_N c / 16); repr_hex (Byte.to_N c mod 16)]
  else [c].

Definition repr (b : bytes) : string :=
  let quote :=
    if existsb (Byte.eqb x27) b && negb (existsb (Byte.eqb x22) b)
    then x22 else x27 in
  string_of_list_byte
    (x62 :: quote :: flat_map (repr_byte quote) b ++ [quote]).

(** The limit of the interpreter on the digits of an integer literal,
    [sys.get_int_max_str_digits()]: 4300 unless it is set otherwise; 0
    where it is switched off, and nothing before Python 3.10.7. *)
Definition int_max_str_digits : Z := 4300.

(** The digits of a literal, which the limit counts: not the sign, the
    white space or the underscores. *)
Definition digit_count (l : bytes) : Z :=
  len (List.filter (fun c => match digit c with
                             | Some _ => true
                             | None => false
                             end) l).

(** [int(b.decode("ascii"))] in an interpreter whose limit is [limit]: a
    literal of more digits raises [ValueError], as does what is no
    literal. *)
Definition int_of_ascii_limited (limit : Z) (b : bytes) : result Z :=
  if negb (forallb is_ascii b) then Raise UnicodeDecodeError
  else
    let s := strip b in
    let '(neg, ds) :=
      match s with
      | x2d :: r => (true, r)
      | x2b :: r => (false, r)
      | _ => (false, s)
      end in
    match digits false ds with
    | Some d =>
        if (0 <? limit) && (limit <? digit_count ds) then Raise ValueError
        else Ok (Z.of_int (if neg then Neg d else Pos d))
    | None => Raise ValueError
    end.

(** [int(b.decode("ascii"))] with the limit off. *)
Definition int_of_ascii (b : bytes) : result Z := int_of_ascii_limited 0 b.

End Py.


(** A [bytes] literal. *)
Definition lit (s : string) : bytes := list_byte_of_string s.

(** ** [hashlib.sha1]

    The library's digest, written out from FIPS 180-4: 32-bit words are
    integers reduced modulo [2^32]. *)
Module Hashlib.

Definition w32 (x : Z) : Z := x mod 2 ^ 32.

Definition rotl (n x : Z) : Z :=
  w32 (Z.lor (Z.shiftl x n) (Z.shiftr x (32 - n))).

Definition byte_val (c : byte) : Z := Z.of_N (Byte.to_N c).

(** Big-endian bytes of [x], [n] of them. *)
Fixpoint be_bytes (n : nat) (x : Z) : list Z :=
  match n with
  | O => []
  | S k => (Z.shiftr x (8 * Z.of_nat k)) mod 256 :: be_bytes k x
  end.

(** The message, a 1 bit, zeros up to 56 modulo 64, the bit length. *)
Definition pad (m : bytes) : list Z :=
  let n := Z.of_nat (length m) in
  let zeros := Z.to_nat ((55 - n) mod 64) in
  List.map byte_val m ++ [128] ++ repeat 0 zeros ++ be_bytes 8 (8 * n).

Fixpoint words (fuel : nat) (l : list Z) : list Z :=
  match fuel, l with
  | S f, a :: b :: c :: d :: r =>
      (a * 2 ^ 24 + b * 2 ^ 16 + c * 2 ^ 8 + d) :: words f r
  | _, _ => []
  end.

Fixpoint blocks (fuel : nat) (ws : list Z) : list (list Z) :=
  match fuel, ws with
  | _, [] => []
  | O, _ => []
  | S f, _ => take 16 ws :: blocks f (drop 16 ws)
  end.

(** The message schedule, most recent word first. *)
Fixpoint schedule (n : nat) (rev_w : list Z) : list Z :=
  match n with
  | O => rev_w
  | S k =>
      let w := rotl 1 (Z.lxor (Z.lxor (Z.lxor (nth 2 rev_w 0) (nth 7 rev_w 0))
                                      (nth 13 rev_w 0)) (nth 15 rev_w 0)) in
      schedule k (w :: rev_w)
  end.

Definition state : Type := Z * Z * Z * Z * Z.

Definition f_k (t : nat) (x y z : Z) : Z * Z :=
  if (t <? 20)%nat then
    (Z.lor (Z.land x y) (Z.land (Z.lxor x 4294967295) z), 1518500249)
  else if (t <? 40)%nat then
    (Z.lxor (Z.lxor x y) z, 1859775393)
  else if (t <? 60)%nat then
    (Z.lor (Z.lor (Z.land x y) (Z.land x z)) (Z.land y z), 2400959708)
  else
    (Z.lxor (Z.lxor x y) z, 3395469782).

Definition round (st : state) (tw : nat * Z) : state :=
  let '(a, b, c, d, e) := st in
  let '(t, w) := tw in
  let '(f, k) := f_k t b c d in
  (w32 (rotl 5 a + f + e + k + w), a, rotl 30 b, c, d).

Definition compress (h : state) (block : list Z) : state :=
  let w := rev (schedule 64 (rev block)) in
  let '(a, b, c, d, e) := fold_left round (combine (seq 0 80) w) h in
  let '(h0, h1, h2, h3, h4) := h in
  (w32 (h0 + a), w32 (h1 + b), w32 (h2 + c), w32 (h3 + d), w32 (h4 + e)).

Definition init : state :=
  (1732584193, 4023233417, 2562383102, 271733878, 3285377520).

Definition sha1 (m : bytes) : state :=
  let p := pad m in
  let ws := words (length p) p in
  fold_left compress (blocks (length ws) ws) init.

Definition hex_digit (x : Z) : ascii :=
  nth (Z.to_nat (x mod 16))
      (list_ascii_of_string "0123456789abcdef") "0"%char.

(** [n] lowercase hexadecimal digits of [x], most significant first. *)
Fixpoint hex (n : nat) (x : Z) : string :=
  match n with
  | O => EmptyString
  | S k => String (hex_digit (Z.shiftr x (4 * Z.of_nat k))) (hex k x)
  end.

(** [hashlib.sha1(m).hexdigest()] *)
Definition sha1_hexdigest (m : bytes) : string :=
  let '(h0, h1, h2, h3, h4) := sha1 m in
  (hex 8 h0 ++ hex 8 h1 ++ hex 8 h2 ++ hex 8 h3 ++ hex 8 h4)%string.

End Hashlib.


(** ** The KVLM document

    [kvlm_parse] fills a [collections.OrderedDict] whose keys are header
    names ([bytes]) or [None] for the message, and whose values are one
    [bytes] or a Python list of them.  Order of insertion is what
    [kvlm_serialize] iterates in, so the dictionary is an association list in
    insertion order. *)

Inductive value : Type :=
| Single (v : bytes)
| Multi (vs : list bytes).

Abbreviation key := (option (list byte)).

Abbreviation odict := (list (option (list byte) * value)).

(** [==] on [bytes] and on keys *)
Fixpoint bytes_eqb (x y : bytes) : bool :=
  match x, y with
  | [], [] => true
  | a :: x', c :: y' => Byte.eqb a c && bytes_eqb x' y'
  | _, _ => false
  end.

Definition key_eqb (a c : key) : bool :=
  match a, c with
  | None, None => true
  | Some x, Some y => bytes_eqb x y
  | _, _ => false
  end.

Module Dict.

(** [k in d] *)
Fixpoint mem (k : key) (d : odict) : bool :=
  match d with
  | [] => false
  | (k', _) :: d' => key_eqb k k' || mem k d'
  end.

(** [d[k]], [None] standing for [KeyError] *)
Fixpoint get (k : key) (d : odict) : option value :=
  match d with
  | [] => None
  | (k', v) :: d' => if key_eqb k k' then Some v else get k d'
  end.

(** [d[k] = v]: an existing key keeps its place, a new one goes last. *)
Fixpoint set (k : key) (v : value) (d : odict) : odict :=
  match d with
  | [] => [(k, v)]
  | (k', v') :: d' =>
      if key_eqb k k' then (k', v) :: d' else (k', v') :: set k v d'
  end.

(** [d.keys()] *)
Definition keys (d : odict) : list key := List.map fst d.

End Dict.

(** ** [kvlm_parse] *)

(** The loop that looks for the end of a header value:
<<
    end = start
    while True:
        end = raw.find(b'\n', end+1)
        if raw[end+1] != ord(' '): break
>>
    [value_end n raw e] runs at most [n] iterations from [end = e]; it is
    [None] when the loop has not left after [n] iterations. *)
Fixpoint value_end (fuel : nat) (raw : bytes) (e : Z) : option (result Z) :=
  match fuel with
  | O => None
  | S fuel' =>
      let e := Py.find raw Py.LF (e + 1) in
      match Py.getitem raw (e + 1) with
      | Raise x => Some (Raise x)
      | Ok c => if Byte.eqb c Py.SP then value_end fuel' raw e
                else Some (Ok e)
      end
  end.

(** The multimap insertion of [kvlm_parse]. *)
Definition kvlm_insert (k : bytes) (v : bytes) (dct : odict) : odict :=
  if Dict.mem (Some k) dct then
    match Dict.get (Some k) dct with
    | Some (Multi vs) => Dict.set (Some k) (Multi (vs ++ [v])) dct
    | Some (Single v0) => Dict.set (Some k) (Multi [v0; v]) dct
    | None => dct
    end
  else Dict.set (Some k) (Single v) dct.

(** [kvlm_parse(raw, start, dct)].  [depth] is the number of frames the
    interpreter still allows ([RecursionError] when there is none), [fuel]
    the bound handed to each run of the inner loop. *)
Fixpoint kvlm_parse (depth fuel : nat) (raw : bytes) (start : Z)
    (dct : option odict) : option (result odict) :=
  match depth with
  | O => Some (Raise RecursionError)
  | S depth' =>
      let dct := match dct with
                 | Some (e :: d) => e :: d
                 | _ => []
                 end in
      let spc := Py.find raw Py.SP start in
      let nl := Py.find raw Py.LF start in
      if (spc <? 0) || (nl <? spc) then
        if nl =? start
        then Some (Ok (Dict.set None (Single (Py.slice_from raw (start + 1))) dct))
        else Some (Raise AssertionError)
      else
        let k := Py.slice raw start spc in
        match value_end fuel raw start with
        | None => None
        | Some (Raise x) => Some (Raise x)
        | Some (Ok e) =>
            let v := Py.replace (Py.slice raw (spc + 1) e)
                                [Py.LF; Py.SP] [Py.LF] in
            kvlm_parse depth' fuel raw (e + 1) (Some (kvlm_insert k v dct))
        end
  end.

(** ** [kvlm_serialize] *)

(** The inner loop: one line (with its continuation lines) per value. *)
Definition kvlm_field (k : bytes) (val : value) (ret : bytes) : bytes :=
  let vals := match val with
              | Multi vs => vs
              | Single v => [v]
              end in
  fold_left
    (fun ret v => ret ++ k ++ [Py.SP] ++ Py.replace v [Py.LF] [Py.LF; Py.SP]
                      ++ [Py.LF])
    vals ret.

Definition kvlm_headers (kvlm : odict) : bytes :=
  fold_left
    (fun ret k =>
       match k with
       | None => ret
       | Some kb =>
           match Dict.get k kvlm with
           | Some val => kvlm_field kb val ret
           | None => ret
           end
       end)
    (Dict.keys kvlm) [].

Definition kvlm_serialize (kvlm : odict) : result bytes :=
  let ret := kvlm_headers kvlm in
  match Dict.get None kvlm with
  | None => Raise KeyError
  | Some (Multi _) => Raise TypeError
  | Some (Single m) => Ok (ret ++ [Py.LF] ++ m ++ [Py.LF])
  end.

(** ** The file system

    What [os.path], [os.makedirs] and [open] see: a finite map from paths
    (lists of components below the root) to directories and regular files. *)

Abbreviation path := (list string).

Inductive node : Type :=
| Dir
| File (content : bytes).

Abbreviation filesystem := (gmap (list string) node).

Module Os.

(** [os.path.join] of components that are relative and not empty. *)
Definition join (p q : path) : path := p ++ q.

(** The path as text, for messages. *)
Definition text (p : path) : string := String.concat "/" p.

(** [os.path.exists] *)
Definition exists_ (fs : filesystem) (p : path) : bool :=
  match fs !! p with
  | Some _ => true
  | None => false
  end.

(** [os.path.isdir] *)
Definition isdir (fs : filesystem) (p : path) : bool :=
  match fs !! p with
  | Some Dir => true
  | _ => false
  end.

(** [os.path.isfile] *)
Definition isfile (fs : filesystem) (p : path) : bool :=
  match fs !! p with
  | Some (File _) => true
  | _ => false
  end.

(** [os.makedirs(pre/rest)], [pre] being there already: every missing
    directory on the way is made; a regular file on the way stops it. *)
Fixpoint makedirs_from (pre rest : path) (fs : filesystem)
    : result filesystem :=
  match rest with
  | [] => Ok fs
  | c :: rest' =>
      let p := pre ++ [c] in
      match fs !! p with
      | Some (File _) =>
          Raise (match rest' with
                 | [] => FileExistsError
                 | _ => NotADirectoryError
                 end)
      | Some Dir => makedirs_from p rest' fs
      | None => makedirs_from p rest' (<[p := Dir]> fs)
      end
  end.

Definition makedirs (p : path) (fs : filesystem) : result filesystem :=
  makedirs_from [] p fs.

(** [open(p, "rb").read()] *)
Definition read (p : path) (fs : filesystem) : result bytes :=
  match fs !! p with
  | Some (File c) => Ok c
  | Some Dir => Raise IsADirectoryError
  | None => Raise FileNotFoundError
  end.

(** [open(p, "wb").write(c)]: the file is made or overwritten; its
    directory has to be there. *)
Definition write (p : path) (c : bytes) (fs : filesystem)
    : result filesystem :=
  match fs !! p with
  | Some Dir => Raise IsADirectoryError
  | _ =>
      match removelast p with
      | [] => Ok (<[p := File c]> fs)
      | d => match fs !! d with
             | Some Dir => Ok (<[p := File c]> fs)
             | Some (File _) => Raise NotADirectoryError
             | None => Raise FileNotFoundError
             end
      end
  end.

End Os.

(** ** The repository and its paths *)

Record GitRepository : Type := {
  worktree : path;
  gitdir : path
}.

(** [GitRepository.__init__] with [force=True], which touches nothing. *)
Definition GitRepository_force (p : path) : GitRepository :=
  {| worktree := p; gitdir := Os.join p [".git"%string] |}.

(** A computation on the file system: its outcome and the file system it
    leaves, also when it raises. *)
Definition io (A : Type) : Type := filesystem -> result A * filesystem.

Definition repo_path (repo : GitRepository) (p : path) : path :=
  Os.join (gitdir repo) p.

(** [repo_dir(repo, *p, mkdir)]: the directory's path, or [None]. *)
Definition repo_dir (repo : GitRepository) (p : path) (mkdir : bool)
    : io (option path) :=
  fun fs =>
    let p := repo_path repo p in
    if Os.exists_ fs p then
      if Os.isdir fs p then (Ok (Some p), fs)
      else (Raise (Exception ("Not a directory " ++ Os.text p)), fs)
    else if mkdir then
      match Os.makedirs p fs with
      | Ok fs' => (Ok (Some p), fs')
      | Raise e => (Raise e, fs)
      end
    else (Ok None, fs).

(** [repo_file(repo, *p, mkdir)]: falls off its end, returning [None], when
    [repo_dir] has returned [None]. *)
Definition repo_file (repo : GitRepository) (p : path) (mkdir : bool)
    : io (option path) :=
  fun fs =>
    match repo_dir repo (removelast p) mkdir fs with
    | (Ok (Some _), fs') => (Ok (Some (repo_path repo p)), fs')
    | (Ok None, fs') => (Ok None, fs')
    | (Raise e, fs') => (Raise e, fs')
    end.

(** ** Objects *)

(** The two classes the module defines.  A [GitBlob] made without data has
    no [blobdata] attribute; a [GitCommit] made without data holds an empty
    [dict]. *)
Inductive GitObject : Type :=
| GitBlob (blobdata : option bytes)
| GitCommit (kvlm : odict).

Definition fmt (obj : GitObject) : bytes :=
  match obj with
  | GitBlob _ => lit "blob"
  | GitCommit _ => lit "commit"
  end.

(** [obj.serialize()] *)
Definition serialize (obj : GitObject) : result bytes :=
  match obj with
  | GitBlob (Some d) => Ok d
  | GitBlob None => Raise AttributeError
  | GitCommit kvlm => kvlm_serialize kvlm
  end.

(** The classes [object_read] and [object_hash] choose among.  [GitTree]
    and [GitTag] are names the module never binds: evaluating them raises
    [NameError]. *)
Inductive class : Type := cGitCommit | cGitTree | cGitTag | cGitBlob.

Section Interpreter.

(** The recursion limit of the interpreter and the bound on the
    iterations of a loop. *)
Variables (depth fuel : nat).

(** [GitBlob(data)] and [GitCommit(data)], through
    [GitObject.__init__]: [deserialize] when data is given, [init]
    otherwise. *)
Definition new_GitBlob (data : option bytes) : GitObject :=
  GitBlob data.

Definition new_GitCommit (data : option bytes)
    : option (result GitObject) :=
  match data with
  | Some d =>
      match kvlm_parse depth fuel d 0 None with
      | None => None
      | Some (Ok kvlm) => Some (Ok (GitCommit kvlm))
      | Some (Raise e) => Some (Raise e)
      end
  | None => Some (Ok (GitCommit []))
  end.

(** [c(data)] for the class picked by a [match fmt]. *)
Definition construct (c : class) (data : bytes)
    : option (result GitObject) :=
  match c with
  | cGitCommit => new_GitCommit (Some data)
  | cGitTree => Some (Raise (NameError "GitTree"))
  | cGitTag => Some (Raise (NameError "GitTag"))
  | cGitBlob => Some (Ok (new_GitBlob (Some data)))
  end.

End Interpreter.

(** The [match fmt] of [object_read] and [object_hash]. *)
Definition class_of_fmt (f : bytes) : option class :=
  if bytes_eqb f (lit "commit") then Some cGitCommit
  else if bytes_eqb f (lit "tree") then Some cGitTree
  else if bytes_eqb f (lit "tag") then Some cGitTag
  else if bytes_eqb f (lit "blob") then Some cGitBlob
  else None.

(** [sha[0:2]] and [sha[2:]] *)
Definition sha_dir (sha : string) : string := substring 0 2 sha.
Definition sha_file (sha : string) : string :=
  substring 2 (String.length sha - 2) sha.

(** The frame [object_write] hashes and stores. *)
Definition frame (f data : bytes) : bytes :=
  f ++ [Py.SP] ++ Py.str (Py.len data) ++ [Py.NUL] ++ data.

(** [fmt.decode("ascii")] *)
Definition decode_ascii (f : bytes) : result string :=
  if forallb Py.is_ascii f then Ok (string_of_list_byte f)
  else Raise UnicodeDecodeError.

Section Store.

(** [zlib.compress] and [zlib.decompress]; the latter raises [zlib.error]
    on what is not a compressed stream. *)
Variable zlib_compress : bytes -> bytes.
Variable zlib_decompress : bytes -> option bytes.

Variables (depth fuel : nat).

(** What [object_read] does with the decompressed file, in an
    interpreter whose limit on the digits of an integer literal is
    [limit]. *)
Definition object_parse_limited (limit : Z) (sha : string) (raw : bytes)
    : option (result GitObject) :=
  let x := Py.find raw Py.SP 0 in
  let f := Py.slice raw 0 x in
  let y := Py.find raw Py.NUL x in
  match Py.int_of_ascii_limited limit (Py.slice raw x y) with
  | Raise e => Some (Raise e)
  | Ok size =>
      if negb (size =? Py.len raw - y - 1) then
        Some (Raise (Exception
                       ("Malformed object " ++ sha ++ ": bad length")))
      else
        match class_of_fmt f with
        | Some c => construct depth fuel c (Py.slice_from raw (y + 1))
        | None =>
            match decode_ascii f with
            | Ok name =>
                Some (Raise (Exception
                               ("Unknown type " ++ name ++ " for object "
                                ++ sha)))
            | Raise e => Some (Raise e)
            end
        end
  end.

Definition object_parse (sha : string) (raw : bytes)
    : option (result GitObject) :=
  object_parse_limited 0 sha raw.

(** [object_read(repo, sha)].  The result is [Ok None] where the
    function returns [None].  Nothing is written: [repo_file] is called
    without [mkdir]. *)
Definition object_read_limited (limit : Z) (repo : GitRepository)
    (sha : string) (fs : filesystem) : option (result (option GitObject)) :=
  match fst (repo_file repo ["objects"%string; sha_dir sha; sha_file sha]
               false fs) with
  | Raise e => Some (Raise e)
  | Ok None => Some (Raise TypeError)
  | Ok (Some p) =>
      if negb (Os.isfile fs p) then Some (Ok None)
      else
        match Os.read p fs with
        | Raise e => Some (Raise e)
        | Ok c =>
            match zlib_decompress c with
            | None => Some (Raise ZlibError)
            | Some raw =>
                match object_parse_limited limit sha raw with
                | None => None
                | Some (Ok obj) => Some (Ok (Some obj))
                | Some (Raise e) => Some (Raise e)
                end
            end
        end
  end.

(** [object_read] with the limit off.  The length field of a frame that
    [object_write] made is the decimal length of its payload and is read
    the same under every limit it is within (lemma
    [object_read_limited_frame]); the properties of such frames are stated
    with this function. *)
Definition object_read (repo : GitRepository) (sha : string)
    (fs : filesystem) : option (result (option GitObject)) :=
  object_read_limited 0 repo sha fs.

(** [object_write(obj, repo)] *)
Definition object_write (obj : GitObject) (repo : option GitRepository)
    : io string :=
  fun fs =>
    match serialize obj with
    | Raise e => (Raise e, fs)
    | Ok data =>
        let result := frame (fmt obj) data in
        let sha := Hashlib.sha1_hexdigest result in
        match repo with
        | None => (Ok sha, fs)
        | Some repo =>
            match repo_file repo
                    ["objects"%string; sha_dir sha; sha_file sha] true fs
            with
            | (Raise e, fs1) => (Raise e, fs1)
            | (Ok None, fs1) => (Raise TypeError, fs1)
            | (Ok (Some p), fs1) =>
                if negb (Os.exists_ fs1 p) then
                  match Os.write p (zlib_compress result) fs1 with
                  | Ok fs2 => (Ok sha, fs2)
                  | Raise e => (Raise e, fs1)
                  end
                else (Ok sha, fs1)
            end
        end
    end.

(** [object_hash(fd, fmt, repo)], [data] being what [fd.read()] gives.
    The message of the last case formats the [bytes] object itself, which
    gives its [repr]. *)
Definition object_hash (data : bytes) (f : bytes)
    (repo : option GitRepository) (fs : filesystem)
    : option (result string * filesystem) :=
  match class_of_fmt f with
  | None =>
      Some (Raise (Exception ("Unknown type " ++ Py.repr f ++ "!")), fs)
  | Some c =>
      match construct depth fuel c data with
      | None => None
      | Some (Raise e) => Some (Raise e, fs)
      | Some (Ok obj) => Some (object_write obj repo fs)
      end
  end.

End Store.

(** * Properties *)

(** Decides the integer comparisons of the goal that [lia] can decide. *)
Ltac zbool :=
  repeat match goal with
    | |- context [?a <? ?c] =>
        first [ rewrite (proj2 (Z.ltb_ge a c)) by lia
              | rewrite (proj2 (Z.ltb_lt a c)) by lia ]
    | |- context [?a <=? ?c] =>
        first [ rewrite (proj2 (Z.leb_gt a c)) by lia
              | rewrite (proj2 (Z.leb_le a c)) by lia ]
    | |- context [?a =? ?c] =>
        first [ rewrite (proj2 (Z.eqb_neq a c)) by lia
              | rewrite (proj2 (Z.eqb_eq a c)) by lia ]
    end.

(** Equations between appended lists, up to association. *)
Ltac app_eq :=
  repeat (progress (rewrite <- ?app_assoc; simpl app)); reflexivity.

(** ** The byte-string operations *)

Section PyFacts.

Implicit Types (raw pre post rest a l : bytes) (c x : byte).

Lemma byte_eqb_true x c : Byte.eqb x c = true <-> x = c.
Proof. split; [apply Byte.byte_dec_bl | apply Byte.byte_dec_lb]. Qed.

Lemma byte_eqb_false x c : Byte.eqb x c = false <-> x <> c.
Proof.
  split.
  - apply Byte.eqb_false.
  - intros H. destruct (Byte.eqb x c) eqn:E; [|reflexivity].
    apply byte_eqb_true in E. contradiction.
Qed.

Lemma byte_eqb_refl x : Byte.eqb x x = true.
Proof. now apply byte_eqb_true. Qed.

Lemma bytes_eqb_true (u v : bytes) : bytes_eqb u v = true <-> u = v.
Proof.
  revert v. induction u as [|x u IH]; intros [|y v]; simpl;
    try (split; [discriminate|discriminate]); [easy|].
  rewrite andb_true_iff, byte_eqb_true, IH. split.
  - intros [-> ->]. reflexivity.
  - intros [= -> ->]. easy.
Qed.

Lemma bytes_eqb_refl (u : bytes) : bytes_eqb u u = true.
Proof. now apply bytes_eqb_true. Qed.

Lemma len_app a l : Py.len (a ++ l) = Py.len a + Py.len l.
Proof. unfold Py.len. rewrite length_app. lia. Qed.

Lemma len_cons x l : Py.len (x :: l) = 1 + Py.len l.
Proof. unfold Py.len. simpl length. lia. Qed.

Lemma len_nil : Py.len [] = 0.
Proof. reflexivity. Qed.

Lemma len_nonneg l : 0 <= Py.len l.
Proof. unfold Py.len. lia. Qed.

Lemma to_nat_len l : Z.to_nat (Py.len l) = length l.
Proof. unfold Py.len. lia. Qed.

(** [find_at] on a list whose first [c] is known. *)
Lemma find_at_hit c a post i :
  Forall (fun x => x <> c) a ->
  Py.find_at c (a ++ c :: post) i = i + Py.len a.
Proof.
  intros Ha. revert i. induction Ha as [|x a Hx Ha IH]; intros i; simpl.
  - rewrite byte_eqb_refl, len_nil. lia.
  - apply byte_eqb_false in Hx. rewrite Hx, IH, len_cons. lia.
Qed.

Lemma find_at_miss c l i :
  Forall (fun x => x <> c) l -> Py.find_at c l i = -1.
Proof.
  intros Hl. revert i. induction Hl as [|x l Hx Hl IH]; intros i; simpl.
  - reflexivity.
  - apply byte_eqb_false in Hx. now rewrite Hx, IH.
Qed.

(** What a non-negative answer of [find_at] says about the list. *)
Lemma find_at_split c l i r :
  0 <= i -> Py.find_at c l i = r -> 0 <= r ->
  exists a post,
    l = a ++ c :: post /\ Forall (fun x => x <> c) a /\ r = i + Py.len a.
Proof.
  revert i. induction l as [|x l IH]; intros i Hi Hf Hr; simpl in Hf.
  - lia.
  - destruct (Byte.eqb x c) eqn:E.
    + apply byte_eqb_true in E. subst x.
      exists [], l. rewrite len_nil. repeat split; [constructor | lia].
    + apply byte_eqb_false in E.
      destruct (IH (i + 1)) as (a & post & -> & Ha & ->); [lia | exact Hf | exact Hr |].
      exists (x :: a), post. rewrite len_cons.
      repeat split; [constructor; assumption | lia].
Qed.

Lemma find_at_lower c l i : Py.find_at c l i = -1 \/ i <= Py.find_at c l i.
Proof.
  revert i. induction l as [|x l IH]; intros i; simpl.
  - now left.
  - destruct (Byte.eqb x c); [right; lia|].
    destruct (IH (i + 1)); [now left | right; lia].
Qed.

(** [find] from the end of a known prefix. *)
Lemma find_app pre rest c :
  Py.find (pre ++ rest) c (Py.len pre) = Py.find_at c rest (Py.len pre).
Proof.
  unfold Py.find. pose proof (len_nonneg pre). pose proof (len_nonneg rest).
  destruct (Z.ltb_spec (Py.len pre) 0); [lia|].
  rewrite len_app. destruct (Z.ltb_spec (Py.len pre + Py.len rest) (Py.len pre)); [lia|].
  rewrite to_nat_len, drop_app_length. reflexivity.
Qed.

Lemma find_app_cons pre x rest c :
  Py.find (pre ++ x :: rest) c (Py.len pre + 1)
  = Py.find_at c rest (Py.len pre + 1).
Proof.
  replace (pre ++ x :: rest) with ((pre ++ [x]) ++ rest)
    by now rewrite <- app_assoc.
  replace (Py.len pre + 1) with (Py.len (pre ++ [x]))
    by (rewrite len_app, len_cons, len_nil; lia).
  apply find_app.
Qed.

Lemma find_lower raw c s : -1 <= Py.find raw c s.
Proof.
  unfold Py.find.
  set (s' := if s <? 0 then _ else _).
  assert (0 <= s' \/ s' = s /\ 0 <= s) as Hs'.
  { subst s'. destruct (Z.ltb_spec s 0); lia. }
  destruct (Z.ltb_spec (Py.len raw) s'); [lia|].
  destruct (find_at_lower c (drop (Z.to_nat s') raw) s'); lia.
Qed.

(** What a non-negative answer of [find] says about the bytes. *)
Lemma find_split raw c s r :
  0 <= s -> Py.find raw c s = r -> 0 <= r ->
  exists pre a post,
    raw = pre ++ a ++ c :: post /\ Py.len pre = s /\
    Forall (fun x => x <> c) a /\ r = s + Py.len a.
Proof.
  intros Hs Hf Hr. unfold Py.find in Hf.
  destruct (Z.ltb_spec s 0); [lia|].
  destruct (Z.ltb_spec (Py.len raw) s); [lia|].
  destruct (find_at_split c _ s r Hs Hf Hr) as (a & post & Hd & Ha & ->).
  exists (take (Z.to_nat s) raw), a, post.
  rewrite <- Hd, take_drop. repeat split; try assumption.
  unfold Py.len in *. rewrite length_take. lia.
Qed.

Lemma slice_mid pre mid post :
  Py.slice (pre ++ mid ++ post) (Py.len pre) (Py.len pre + Py.len mid) = mid.
Proof.
  unfold Py.slice, Py.adjust.
  pose proof (len_nonneg pre). pose proof (len_nonneg mid).
  pose proof (len_nonneg post). rewrite !len_app.
  destruct (Z.ltb_spec (Py.len pre) 0); [lia|].
  destruct (Z.ltb_spec (Py.len pre + Py.len mid) 0); [lia|].
  rewrite !Z.min_l by lia.
  replace (Py.len pre + Py.len mid - Py.len pre) with (Py.len mid) by lia.
  rewrite !to_nat_len, drop_app_length, take_app_length. reflexivity.
Qed.

Lemma slice_from_app pre rest :
  Py.slice_from (pre ++ rest) (Py.len pre) = rest.
Proof.
  unfold Py.slice_from, Py.adjust.
  pose proof (len_nonneg pre). pose proof (len_nonneg rest).
  rewrite len_app. destruct (Z.ltb_spec (Py.len pre) 0); [lia|].
  rewrite Z.min_l by lia. rewrite to_nat_len, drop_app_length. reflexivity.
Qed.

Lemma getitem_app pre c post :
  Py.getitem (pre ++ c :: post) (Py.len pre) = Ok c.
Proof.
  unfold Py.getitem. pose proof (len_nonneg pre). pose proof (len_nonneg post).
  rewrite len_app, len_cons. zbool. simpl orb. cbv iota.
  rewrite to_nat_len, list_lookup_middle; reflexivity.
Qed.

Lemma getitem_app_cons pre x c post :
  Py.getitem (pre ++ x :: c :: post) (Py.len pre + 1) = Ok c.
Proof.
  replace (pre ++ x :: c :: post) with ((pre ++ [x]) ++ c :: post)
    by now rewrite <- app_assoc.
  replace (Py.len pre + 1) with (Py.len (pre ++ [x]))
    by (rewrite len_app, len_cons, len_nil; lia).
  apply getitem_app.
Qed.

Lemma getitem_end pre : Py.getitem pre (Py.len pre) = Raise IndexError.
Proof.
  unfold Py.getitem. pose proof (len_nonneg pre). zbool. reflexivity.
Qed.

(** What a successful [raw[i]] at a non-negative index says. *)
Lemma getitem_split raw i c :
  0 <= i -> Py.getitem raw i = Ok c ->
  exists pre post, raw = pre ++ c :: post /\ Py.len pre = i.
Proof.
  intros Hi. unfold Py.getitem. zbool. simpl orb.
  destruct (Z.leb_spec (Py.len raw) i); [discriminate|].
  destruct (raw !! Z.to_nat i) as [c'|] eqn:E; [|discriminate].
  intros [= ->]. exists (take (Z.to_nat i) raw), (drop (S (Z.to_nat i)) raw).
  split.
  - symmetry. now apply take_drop_middle.
  - unfold Py.len in *. rewrite length_take. lia.
Qed.

End PyFacts.

(** ** Continuation lines *)

(** [fold v] is what [kvlm_serialize] writes for a value, [unfold w] what
    [kvlm_parse] makes of the bytes of a field. *)
Definition fold (v : bytes) : bytes := Py.replace v [Py.LF] [Py.LF; Py.SP].
Definition unfold (w : bytes) : bytes := Py.replace w [Py.LF; Py.SP] [Py.LF].

(** Bytes in which every newline is followed by a space. *)
Inductive continued : bytes -> Prop :=
| continued_nil : continued []
| continued_byte c w : c <> Py.LF -> continued w -> continued (c :: w)
| continued_fold w : continued w -> continued (Py.LF :: Py.SP :: w).

Section Folding.

Implicit Types (v w : bytes) (c : byte).

Lemma fold_nil : fold [] = [].
Proof. reflexivity. Qed.

Lemma fold_cons c v :
  fold (c :: v) = if Byte.eqb c Py.LF then Py.LF :: Py.SP :: fold v
                  else c :: fold v.
Proof.
  unfold fold, Py.replace. simpl.
  destruct (Byte.eqb Py.LF c) eqn:E.
  - apply byte_eqb_true in E. subst c. reflexivity.
  - apply byte_eqb_false in E.
    assert (Byte.eqb c Py.LF = false) as -> by (apply byte_eqb_false; congruence).
    reflexivity.
Qed.

Lemma unfold_nil : unfold [] = [].
Proof. reflexivity. Qed.

Lemma unfold_fold_step w : unfold (Py.LF :: Py.SP :: w) = Py.LF :: unfold w.
Proof. reflexivity. Qed.

Lemma unfold_byte c w : c <> Py.LF -> unfold (c :: w) = c :: unfold w.
Proof.
  intros Hc. unfold unfold, Py.replace. simpl.
  assert (Byte.eqb Py.LF c = false) as -> by (apply byte_eqb_false; congruence).
  reflexivity.
Qed.

(** Unfolding undoes folding, whatever the value. *)
Lemma unfold_fold v : unfold (fold v) = v.
Proof.
  induction v as [|c v IH]; [reflexivity|].
  rewrite fold_cons. destruct (Byte.eqb c Py.LF) eqn:E.
  - apply byte_eqb_true in E. subst c. now rewrite unfold_fold_step, IH.
  - apply byte_eqb_false in E. now rewrite unfold_byte, IH.
Qed.

Lemma fold_continued v : continued (fold v).
Proof.
  induction v as [|c v IH]; [constructor|].
  rewrite fold_cons. destruct (Byte.eqb c Py.LF) eqn:E.
  - now constructor.
  - apply byte_eqb_false in E. now constructor.
Qed.

Lemma continued_app w1 w2 :
  Forall (fun x => x <> Py.LF) w1 -> continued w2 -> continued (w1 ++ w2).
Proof. induction 1; simpl; [easy | constructor; auto]. Qed.

Lemma fold_length v : (length v <= length (fold v))%nat.
Proof.
  induction v as [|c v IH]; [reflexivity|].
  rewrite fold_cons. destruct (Byte.eqb c Py.LF); simpl; lia.
Qed.

End Folding.

(** ** The loop that finds the end of a value *)

Section ValueEnd.

Implicit Types (raw pre rest w : bytes) (c : byte) (e : Z).

(** The loop passes over a byte that is not a newline. *)
Lemma value_end_skip fuel pre c rest :
  c <> Py.LF ->
  value_end fuel (pre ++ c :: rest) (Py.len pre - 1)
  = value_end fuel (pre ++ c :: rest) (Py.len pre).
Proof.
  intros Hc. destruct fuel as [|fuel]; [reflexivity|]. simpl.
  replace (Py.len pre - 1 + 1) with (Py.len pre) by lia.
  rewrite find_app, !find_app_cons. simpl.
  apply byte_eqb_false in Hc. rewrite Hc. reflexivity.
Qed.

Lemma value_end_shift fuel pre c rest :
  c <> Py.LF ->
  value_end fuel (pre ++ c :: rest) (Py.len pre - 1)
  = value_end fuel ((pre ++ [c]) ++ rest) (Py.len (pre ++ [c]) - 1).
Proof.
  intros Hc. rewrite value_end_skip by assumption.
  rewrite <- app_assoc, len_app, len_cons, len_nil. simpl app.
  f_equal. lia.
Qed.

(** On bytes whose newlines are all continued, closed by a newline that
    is not, the loop stops at that newline. *)
Lemma value_end_continued w : continued w ->
  forall fuel pre c rest,
    c <> Py.SP -> (length w < fuel)%nat ->
    value_end fuel (pre ++ w ++ Py.LF :: c :: rest) (Py.len pre - 1)
    = Some (Ok (Py.len pre + Py.len w)).
Proof.
  induction 1 as [|c0 w Hc0 Hw IH|w Hw IH]; intros fuel pre c rest Hc Hfuel.
  - destruct fuel as [|fuel]; [simpl in Hfuel; lia|]. simpl.
    replace (Py.len pre - 1 + 1) with (Py.len pre) by lia.
    rewrite find_app. simpl. rewrite getitem_app_cons.
    apply byte_eqb_false in Hc. rewrite Hc.
    do 2 f_equal. rewrite len_nil. lia.
  - simpl app. rewrite value_end_shift by assumption.
    simpl in Hfuel. rewrite IH by (first [assumption | lia]).
    do 2 f_equal. rewrite len_app, !len_cons, len_nil. lia.
  - destruct fuel as [|fuel]; [simpl in Hfuel; lia|]. simpl.
    replace (Py.len pre - 1 + 1) with (Py.len pre) by lia.
    rewrite find_app. simpl. rewrite getitem_app_cons. simpl.
    replace (Py.len pre) with (Py.len (pre ++ [Py.LF]) - 1)
      by (rewrite len_app, len_cons, len_nil; lia).
    replace (pre ++ Py.LF :: Py.SP :: w ++ Py.LF :: c :: rest)
      with ((pre ++ [Py.LF]) ++ Py.SP :: w ++ Py.LF :: c :: rest)
      by now rewrite <- app_assoc.
    rewrite value_end_shift by discriminate.
    simpl in Hfuel. rewrite IH by (first [assumption | lia]).
    do 2 f_equal. rewrite !len_app, !len_cons, len_nil. lia.
Qed.

(** Where the loop stops there is a byte after the newline found, and it
    is not a space. *)
Lemma value_end_stop fuel raw e e' :
  value_end fuel raw e = Some (Ok e') ->
  -1 <= e' /\ exists c, Py.getitem raw (e' + 1) = Ok c /\ c <> Py.SP.
Proof.
  revert e. induction fuel as [|fuel IH]; intros e; simpl; [discriminate|].
  destruct (Py.getitem raw (Py.find raw Py.LF (e + 1) + 1)) as [c|x] eqn:G;
    [|discriminate].
  destruct (Byte.eqb c Py.SP) eqn:E.
  - apply IH.
  - intros [= <-]. split; [apply find_lower|].
    exists c. split; [assumption | now apply byte_eqb_false].
Qed.

End ValueEnd.

(** ** One field, one step of the parser *)

(** The bytes [kvlm_serialize] writes for one value of a header. *)
Definition field (k v : bytes) : bytes := k ++ Py.SP :: fold v ++ [Py.LF].

Section ParseSteps.

Implicit Types (raw pre rest k v m : bytes) (c : byte) (dct : odict).

Lemma kvlm_parse_unfold depth fuel raw start dct :
  kvlm_parse (S depth) fuel raw start (Some dct) =
    let spc := Py.find raw Py.SP start in
    let nl := Py.find raw Py.LF start in
    if (spc <? 0) || (nl <? spc) then
      if nl =? start
      then Some (Ok (Dict.set None (Single (Py.slice_from raw (start + 1))) dct))
      else Some (Raise AssertionError)
    else
      match value_end fuel raw start with
      | None => None
      | Some (Raise x) => Some (Raise x)
      | Some (Ok e) =>
          kvlm_parse depth fuel raw (e + 1)
            (Some (kvlm_insert (Py.slice raw start spc)
                     (unfold (Py.slice raw (spc + 1) e)) dct))
      end.
Proof. destruct dct; reflexivity. Qed.

(** A call without a dictionary starts from an empty one. *)
Lemma kvlm_parse_None depth fuel raw start :
  kvlm_parse depth fuel raw start None
  = kvlm_parse depth fuel raw start (Some []).
Proof. destruct depth; reflexivity. Qed.

Lemma find_at_found c l i :
  0 <= i -> In c l -> i <= Py.find_at c l i.
Proof.
  revert i. induction l as [|x l IH]; intros i Hi; simpl; [easy|].
  intros [->|Hin].
  - rewrite byte_eqb_refl. lia.
  - destruct (Byte.eqb x c); [lia|].
    specialize (IH (i + 1) ltac:(lia) Hin). lia.
Qed.

Lemma find_at_skip c a l i :
  Forall (fun x => x <> c) a ->
  Py.find_at c (a ++ l) i = Py.find_at c l (i + Py.len a).
Proof.
  intros Ha. revert i. induction Ha as [|x a Hx Ha IH]; intros i; simpl.
  - rewrite len_nil. f_equal. lia.
  - apply byte_eqb_false in Hx. rewrite Hx, IH, len_cons. f_equal. lia.
Qed.

(** The parser at the start of a field that is followed by a byte other
    than a space: it reads the key and the unfolded value and goes on
    behind the field. *)
Lemma kvlm_parse_field depth fuel pre k v c rest dct :
  Forall (fun x => x <> Py.SP) k ->
  Forall (fun x => x <> Py.LF) k ->
  c <> Py.SP ->
  (length (field k v) < fuel)%nat ->
  kvlm_parse (S depth) fuel (pre ++ field k v ++ c :: rest) (Py.len pre)
    (Some dct)
  = kvlm_parse depth fuel (pre ++ field k v ++ c :: rest)
      (Py.len (pre ++ field k v)) (Some (kvlm_insert k v dct)).
Proof.
  intros Hsp Hlf Hc Hfuel.
  pose proof (len_nonneg pre) as Hpre. pose proof (len_nonneg k) as Hk.
  rewrite kvlm_parse_unfold. cbv zeta.
  assert (Py.find (pre ++ field k v ++ c :: rest) Py.SP (Py.len pre)
          = Py.len pre + Py.len k) as Espc.
  { rewrite find_app. unfold field. rewrite <- app_assoc. simpl app.
    now rewrite find_at_hit. }
  assert (Py.len pre + Py.len k
          <= Py.find (pre ++ field k v ++ c :: rest) Py.LF (Py.len pre))
    as Enl.
  { rewrite find_app. unfold field. rewrite <- app_assoc.
    rewrite find_at_skip by assumption. simpl.
    pose proof (find_at_found Py.LF ((fold v ++ [Py.LF]) ++ c :: rest)
                  (Py.len pre + Py.len k + 1) ltac:(lia)) as Hf.
    rewrite <- app_assoc.
    assert (In Py.LF ((fold v ++ [Py.LF]) ++ c :: rest)) as Hin.
    { apply in_or_app; left. apply in_or_app; right. now left. }
    specialize (Hf Hin). rewrite <- app_assoc in Hf. lia. }
  rewrite Espc. zbool. simpl orb. cbv iota.
  (* the key *)
  assert (Py.slice (pre ++ field k v ++ c :: rest) (Py.len pre)
            (Py.len pre + Py.len k) = k) as ->.
  { unfold field. rewrite <- app_assoc. apply slice_mid. }
  (* the end of the value *)
  assert (value_end fuel (pre ++ field k v ++ c :: rest) (Py.len pre)
          = Some (Ok (Py.len pre + Py.len k + 1 + Py.len (fold v)))) as ->.
  { assert (exists b0 w, k ++ Py.SP :: fold v = b0 :: w /\ b0 <> Py.LF
                         /\ continued w) as (b0 & w & Ew & Hb0 & Hw).
    { destruct k as [|k0 k'].
      - exists Py.SP, (fold v). repeat split; [discriminate | apply fold_continued].
      - exists k0, (k' ++ Py.SP :: fold v). inversion Hlf; subst.
        repeat split; [assumption|].
        apply continued_app; [assumption|].
        constructor; [discriminate | apply fold_continued]. }
    replace (pre ++ field k v ++ c :: rest)
      with ((pre ++ [b0]) ++ w ++ Py.LF :: c :: rest).
    2:{ unfold field. rewrite <- !app_assoc. f_equal.
        change ([b0] ++ w ++ Py.LF :: c :: rest)
          with ((b0 :: w) ++ Py.LF :: c :: rest).
        rewrite <- Ew. simpl. rewrite <- !app_assoc. reflexivity. }
    replace (Py.len pre) with (Py.len (pre ++ [b0]) - 1)
      by (rewrite len_app, len_cons, len_nil; lia).
    assert (Py.len k + 1 + Py.len (fold v) = 1 + Py.len w) as Elen.
    { apply (f_equal Py.len) in Ew.
      rewrite len_app, !len_cons in Ew. lia. }
    rewrite value_end_continued; try assumption.
    - do 2 f_equal. rewrite len_app, len_cons, len_nil. lia.
    - unfold field in Hfuel. apply (f_equal (@length byte)) in Ew.
      rewrite !length_app in Hfuel. simpl in Hfuel, Ew.
      rewrite length_app in Hfuel, Ew. simpl in Hfuel, Ew. lia. }
  (* the value *)
  assert (Py.slice (pre ++ field k v ++ c :: rest)
            (Py.len pre + Py.len k + 1)
            (Py.len pre + Py.len k + 1 + Py.len (fold v)) = fold v) as ->.
  { replace (pre ++ field k v ++ c :: rest)
      with ((pre ++ k ++ [Py.SP]) ++ fold v ++ Py.LF :: c :: rest)
      by (unfold field; app_eq).
    replace (Py.len pre + Py.len k + 1) with (Py.len (pre ++ k ++ [Py.SP]))
      by (rewrite !len_app, len_cons, len_nil; lia).
    apply slice_mid. }
  rewrite unfold_fold. f_equal.
  unfold field. rewrite !len_app, !len_cons, len_app, len_cons, len_nil. lia.
Qed.

(** The parser at the blank line: the rest is the message. *)
Lemma kvlm_parse_message depth fuel pre m dct :
  kvlm_parse (S depth) fuel (pre ++ Py.LF :: m) (Py.len pre) (Some dct)
  = Some (Ok (Dict.set None (Single m) dct)).
Proof.
  pose proof (len_nonneg pre) as Hpre.
  rewrite kvlm_parse_unfold. cbv zeta.
  rewrite !find_app. simpl.
  assert (Py.find_at Py.SP m (Py.len pre + 1) < 0
          \/ Py.len pre < Py.find_at Py.SP m (Py.len pre + 1)) as Hspc.
  { destruct (find_at_lower Py.SP m (Py.len pre + 1)); lia. }
  assert ((Py.find_at Py.SP m (Py.len pre + 1) <? 0)
          || (Py.len pre <? Py.find_at Py.SP m (Py.len pre + 1)) = true) as ->.
  { apply orb_true_iff. destruct Hspc; [left|right]; lia. }
  zbool.
  replace (pre ++ Py.LF :: m) with ((pre ++ [Py.LF]) ++ m)
    by now rewrite <- app_assoc.
  replace (Py.len pre + 1) with (Py.len (pre ++ [Py.LF]))
    by (rewrite len_app, len_cons, len_nil; lia).
  now rewrite slice_from_app.
Qed.

End ParseSteps.

(** ** The dictionary *)

Section DictFacts.

Implicit Types (k : key) (x y : value) (d : odict).

Lemma key_eqb_true k k' : key_eqb k k' = true <-> k = k'.
Proof.
  destruct k as [u|], k' as [u'|]; simpl; try easy.
  rewrite bytes_eqb_true. split; congruence.
Qed.

Lemma key_eqb_refl k : key_eqb k k = true.
Proof. now apply key_eqb_true. Qed.

Lemma mem_false k d : Dict.mem k d = false <-> ~ In k (Dict.keys d).
Proof.
  induction d as [|[k' x] d IH]; simpl; [easy|].
  rewrite orb_false_iff, IH. split.
  - intros [Hk Hd] [<-|Hin]; [|easy].
    now rewrite key_eqb_refl in Hk.
  - intros H. split; [|tauto].
    destruct (key_eqb k k') eqn:E; [|reflexivity].
    apply key_eqb_true in E. subst. tauto.
Qed.

Lemma mem_true k d : Dict.mem k d = true <-> In k (Dict.keys d).
Proof.
  induction d as [|[k' x] d IH]; simpl; [easy|].
  rewrite orb_true_iff, IH, key_eqb_true. split; intros [H|H]; auto.
Qed.

(** Setting a new key appends it. *)
Lemma set_new k x d : Dict.mem k d = false -> Dict.set k x d = d ++ [(k, x)].
Proof.
  induction d as [|[k' y] d IH]; simpl; [reflexivity|].
  intros H. apply orb_false_iff in H as [-> H]. now rewrite IH.
Qed.

(** Setting the key that was appended last. *)
Lemma set_last k x y d :
  Dict.mem k d = false -> Dict.set k y (d ++ [(k, x)]) = d ++ [(k, y)].
Proof.
  induction d as [|[k' z] d IH]; simpl.
  - now rewrite key_eqb_refl.
  - intros H. apply orb_false_iff in H as [-> H]. now rewrite IH.
Qed.

Lemma get_last k x d :
  Dict.mem k d = false -> Dict.get k (d ++ [(k, x)]) = Some x.
Proof.
  induction d as [|[k' z] d IH]; simpl.
  - now rewrite key_eqb_refl.
  - intros H. apply orb_false_iff in H as [-> H]. now rewrite IH.
Qed.

Lemma mem_last k x d : Dict.mem k (d ++ [(k, x)]) = true.
Proof.
  induction d as [|[k' z] d IH]; simpl.
  - now rewrite key_eqb_refl.
  - rewrite IH. apply orb_true_r.
Qed.

(** Setting a key that is there keeps the keys and their order. *)
Lemma set_keys k x d :
  Dict.mem k d = true -> Dict.keys (Dict.set k x d) = Dict.keys d.
Proof.
  induction d as [|[k' z] d IH]; simpl; [discriminate|].
  destruct (key_eqb k k') eqn:E; simpl; [reflexivity|].
  intros H. unfold Dict.keys in *. simpl. f_equal. now apply IH.
Qed.

Lemma set_Forall (P : key * value -> Prop) k x d :
  Forall P d -> P (k, x) -> Forall P (Dict.set k x d).
Proof.
  intros Hd Hx. induction Hd as [|[k' z] d Hz Hd IH]; simpl.
  - now constructor.
  - destruct (key_eqb k k') eqn:E.
    + apply key_eqb_true in E. subst k'. now constructor.
    + now constructor.
Qed.

Lemma mem_get k d : Dict.mem k d = true -> exists x, Dict.get k d = Some x.
Proof.
  induction d as [|[k' z] d IH]; simpl; [discriminate|].
  destruct (key_eqb k k'); simpl; [now exists z | exact IH].
Qed.

Lemma get_In k x d : Dict.get k d = Some x -> In (k, x) d.
Proof.
  induction d as [|[k' z] d IH]; simpl; [discriminate|].
  destruct (key_eqb k k') eqn:E.
  - apply key_eqb_true in E. intros [= ->]. left. now subst.
  - intros H. right. now apply IH.
Qed.

(** In a dictionary, whose keys are distinct, an entry is what its key
    looks up. *)
Lemma In_get k x d :
  NoDup (Dict.keys d) -> In (k, x) d -> Dict.get k d = Some x.
Proof.
  induction d as [|[k' z] d IH]; simpl; [easy|].
  intros Hnd. apply NoDup_cons in Hnd as [Hk' Hnd].
  intros [[= -> ->]|Hin].
  - now rewrite key_eqb_refl.
  - destruct (key_eqb k k') eqn:E.
    + apply key_eqb_true in E. subst k'. exfalso. apply Hk'.
      apply list_elem_of_In. change k with (fst (k, x)). now apply in_map.
    + now apply IH.
Qed.

End DictFacts.

(** ** Documents and their serialization *)

(** The values of a header, and the (key, value) lines of a document in the
    order [kvlm_serialize] writes them. *)
Definition values (val : value) : list bytes :=
  match val with
  | Multi vs => vs
  | Single v => [v]
  end.

Definition lines_of (e : key * value) : list (bytes * bytes) :=
  match fst e with
  | Some k => List.map (pair k) (values (snd e))
  | None => []
  end.

Definition lines (h : odict) : list (bytes * bytes) := flat_map lines_of h.

Definition fields (kvs : list (bytes * bytes)) : bytes :=
  flat_map (fun kv => field (fst kv) (snd kv)) kvs.

(** What holds of the headers of a parsed document: distinct keys without
    space or newline, lists of at least two values, and no empty key except
    for a single-valued first header. *)
Definition header_ok (e : key * value) : Prop :=
  match e with
  | (Some k, val) =>
      Forall (fun x => x <> Py.SP) k /\ Forall (fun x => x <> Py.LF) k /\
      match val with
      | Multi vs => (2 <= length vs)%nat
      | Single _ => True
      end
  | (None, _) => False
  end.

Definition named (e : key * value) : Prop := fst e <> Some [].

Definition first_ok (e : key * value) : Prop :=
  fst e = Some [] -> exists v, snd e = Single v.

Definition wf_headers (h : odict) : Prop :=
  NoDup (Dict.keys h) /\ Forall header_ok h /\
  match h with
  | [] => True
  | e :: t => first_ok e /\ Forall named t
  end.

Section Serialize.

Implicit Types (k v m : bytes) (h d : odict).

Lemma fields_app kvs1 kvs2 : fields (kvs1 ++ kvs2) = fields kvs1 ++ fields kvs2.
Proof. unfold fields. now rewrite flat_map_app. Qed.

Lemma kvlm_field_lines k val ret :
  kvlm_field k val ret = ret ++ fields (List.map (pair k) (values val)).
Proof.
  unfold kvlm_field. change (match val with Multi vs => vs | Single v => [v] end)
    with (values val).
  revert ret. induction (values val) as [|v vs IH]; intros ret; simpl.
  - now rewrite app_nil_r.
  - rewrite IH. unfold field, fold. app_eq.
Qed.

Lemma header_ok_key e : header_ok e -> exists k, fst e = Some k.
Proof. destruct e as [[k|] val]; simpl; [eauto | easy]. Qed.

(** The header loop writes the lines of the document in order. *)
Lemma kvlm_headers_lines d :
  NoDup (Dict.keys d) -> kvlm_headers d = fields (lines d).
Proof.
  intros Hnd. unfold kvlm_headers.
  assert (forall l ret, (forall e, In e l -> In e d) ->
            fold_left
              (fun ret (k0 : key) =>
                 match k0 with
                 | None => ret
                 | Some kb =>
                     match Dict.get k0 d with
                     | Some val => kvlm_field kb val ret
                     | None => ret
                     end
                 end) (Dict.keys l) ret = ret ++ fields (lines l)) as H.
  { induction l as [|[k0 val] l IH]; intros ret Hl; simpl.
    - now rewrite app_nil_r.
    - rewrite IH by (intros e He; apply Hl; now right).
      unfold lines. simpl. rewrite fields_app. unfold lines_of at 2. simpl.
      destruct k0 as [kb|]; [|reflexivity].
      rewrite (In_get (Some kb) val d Hnd) by (apply Hl; now left).
      rewrite kvlm_field_lines. app_eq. }
  now rewrite H.
Qed.

Lemma header_keys_not_None h : Forall header_ok h -> Dict.mem None h = false.
Proof.
  induction 1 as [|[[k|] val] h He Hh IH]; simpl; [reflexivity | exact IH | easy].
Qed.

Lemma NoDup_keys_message h x :
  NoDup (Dict.keys h) -> Forall header_ok h ->
  NoDup (Dict.keys (h ++ [(None, x)])).
Proof.
  intros Hnd Hok. unfold Dict.keys. rewrite map_app. simpl.
  apply NoDup_app. repeat split; [assumption | | apply NoDup_singleton].
  intros k Hk Hk'. apply list_elem_of_In in Hk.
  apply list_elem_of_singleton in Hk'. subst k.
  apply header_keys_not_None in Hok. apply mem_false in Hok. contradiction.
Qed.

(** The serialization of headers followed by a message. *)
Lemma kvlm_serialize_doc h m :
  wf_headers h ->
  kvlm_serialize (h ++ [(None, Single m)])
  = Ok (fields (lines h) ++ Py.LF :: m ++ [Py.LF]).
Proof.
  intros (Hnd & Hok & _). unfold kvlm_serialize.
  rewrite get_last by now apply header_keys_not_None.
  rewrite kvlm_headers_lines by now apply NoDup_keys_message.
  unfold lines. rewrite flat_map_app. simpl. now rewrite app_nil_r.
Qed.

End Serialize.

(** ** Parsing what was serialized *)

(** The dictionary after the parser has read the given lines. *)
Definition insert_all (kvs : list (bytes * bytes)) (dct : odict) : odict :=
  fold_left (fun d kv => kvlm_insert (fst kv) (snd kv) d) kvs dct.

(** Keys the parser can read back: no space or newline in them, and none
    empty after the first line. *)
Definition lines_ok (kvs : list (bytes * bytes)) : Prop :=
  Forall (fun kv => Forall (fun x => x <> Py.SP) (fst kv) /\
                    Forall (fun x => x <> Py.LF) (fst kv)) kvs /\
  Forall (fun kv => fst kv <> []) (tail kvs).

Section ParseSerialized.

Implicit Types (k v m pre rest : bytes) (h d dct : odict)
  (kvs : list (bytes * bytes)).

Lemma insert_multi k vs d :
  Dict.mem (Some k) d = false ->
  forall v0 l,
    insert_all (List.map (pair k) vs) (d ++ [(Some k, Multi (l ++ [v0]))])
    = d ++ [(Some k, Multi (l ++ v0 :: vs))].
Proof.
  intros Hk. induction vs as [|v1 vs IH]; intros v0 l; simpl; [reflexivity|].
  unfold kvlm_insert.
  rewrite mem_last, get_last, set_last by assumption.
  rewrite (IH v1 (l ++ [v0])). now rewrite <- app_assoc.
Qed.

(** Reading the lines of one header appends the header. *)
Lemma insert_header k val d :
  Dict.mem (Some k) d = false ->
  match val with Multi vs => (2 <= length vs)%nat | Single _ => True end ->
  insert_all (lines_of (Some k, val)) d = d ++ [(Some k, val)].
Proof.
  intros Hk Hval. unfold lines_of. simpl fst. simpl snd.
  destruct val as [v|vs]; simpl.
  - unfold kvlm_insert. rewrite Hk. now apply set_new.
  - destruct vs as [|v0 [|v1 vs]]; simpl in Hval; try lia. simpl.
    unfold kvlm_insert. rewrite Hk.
    rewrite set_new by assumption.
    rewrite mem_last, get_last, set_last by assumption.
    apply (insert_multi k vs d Hk v1 [v0]).
Qed.

Lemma insert_all_app kvs1 kvs2 d :
  insert_all (kvs1 ++ kvs2) d = insert_all kvs2 (insert_all kvs1 d).
Proof. unfold insert_all. apply fold_left_app. Qed.

(** Reading the lines of well-formed headers rebuilds them. *)
Lemma insert_lines h2 : forall h1,
  NoDup (Dict.keys (h1 ++ h2)) -> Forall header_ok h2 ->
  insert_all (lines h2) h1 = h1 ++ h2.
Proof.
  induction h2 as [|[k0 val] h2 IH]; intros h1 Hnd Hok; simpl.
  - now rewrite app_nil_r.
  - apply Forall_cons in Hok as [He Hok].
    destruct k0 as [k|]; [|easy]. destruct He as (_ & _ & Hval).
    unfold lines. simpl. rewrite insert_all_app.
    assert (Dict.mem (Some k) h1 = false) as Hk.
    { apply mem_false. intros Hin. unfold Dict.keys in Hnd.
      rewrite map_app in Hnd. simpl in Hnd.
      apply NoDup_app in Hnd as (_ & Hdisj & _).
      apply (Hdisj (Some k)); [now apply list_elem_of_In | left]. }
    rewrite insert_header by assumption.
    change (flat_map lines_of h2) with (lines h2).
    rewrite IH; [app_eq | | assumption].
    now rewrite <- app_assoc.
Qed.

Lemma lines_ok_tail kv kvs : lines_ok (kv :: kvs) -> lines_ok kvs.
Proof.
  intros [Hk Hne]. apply Forall_cons in Hk as [_ Hk]. split; [assumption|].
  simpl in Hne. destruct kvs; simpl; [constructor|].
  now apply Forall_cons in Hne as [_ Hne].
Qed.

(** The byte that follows a field in a block of fields closed by [c]. *)
Lemma fields_head kvs c rest :
  Forall (fun kv => Forall (fun x => x <> Py.SP) (fst kv)) kvs ->
  Forall (fun kv => fst kv <> []) kvs -> c <> Py.SP ->
  exists c' rest', fields kvs ++ c :: rest = c' :: rest' /\ c' <> Py.SP.
Proof.
  intros Hsp Hne Hc. destruct kvs as [|[k v] kvs]; simpl.
  - eauto.
  - apply Forall_cons in Hsp as [Hsp _]. apply Forall_cons in Hne as [Hne _].
    simpl in *. destruct k as [|k0 k]; [easy|].
    apply Forall_cons in Hsp as [Hk0 _].
    unfold field. simpl. eauto.
Qed.

(** The parser over a block of fields. *)
Lemma kvlm_parse_fields kvs : forall depth fuel pre c rest dct,
  lines_ok kvs -> c <> Py.SP -> (length (fields kvs) < fuel)%nat ->
  kvlm_parse (length kvs + depth) fuel (pre ++ fields kvs ++ c :: rest)
    (Py.len pre) (Some dct)
  = kvlm_parse depth fuel (pre ++ fields kvs ++ c :: rest)
      (Py.len (pre ++ fields kvs)) (Some (insert_all kvs dct)).
Proof.
  induction kvs as [|[k v] kvs IH]; intros depth fuel pre c rest dct Hok Hc Hfuel.
  - simpl. now rewrite app_nil_r.
  - pose proof (lines_ok_tail _ _ Hok) as Hok'.
    destruct Hok as [Hk Hne]. apply Forall_cons in Hk as [[Hsp Hlf] Hk].
    simpl in Hsp, Hlf, Hne. simpl length. simpl fields.
    change (flat_map (fun kv => field (fst kv) (snd kv)) kvs) with (fields kvs).
    simpl in Hfuel. rewrite length_app in Hfuel.
    change (flat_map (fun kv => field (fst kv) (snd kv)) kvs)
      with (fields kvs) in Hfuel.
    destruct (fields_head kvs c rest) as (c' & rest' & E & Hc'); try assumption.
    { eapply Forall_impl; [exact Hk|]. now intros ? [? _]. }
    rewrite <- (app_assoc (field k v)), E.
    change (S (length kvs) + depth)%nat with (S (length kvs + depth)).
    rewrite kvlm_parse_field by (first [assumption | lia]).
    rewrite <- E. rewrite (app_assoc pre (field k v)).
    rewrite IH by (first [assumption | lia]).
    rewrite <- !app_assoc. reflexivity.
Qed.

Lemma lines_of_keys e :
  header_ok e ->
  Forall (fun kv => Some (fst kv) = fst e /\
                    Forall (fun x => x <> Py.SP) (fst kv) /\
                    Forall (fun x => x <> Py.LF) (fst kv)) (lines_of e).
Proof.
  destruct e as [[k|] val]; simpl; [|easy]. intros (Hsp & Hlf & _).
  unfold lines_of. simpl. apply Forall_forall. intros kv Hin.
  apply list_elem_of_In, in_map_iff in Hin as (v & <- & _). simpl. auto.
Qed.

Lemma lines_named h :
  Forall header_ok h -> Forall named h ->
  Forall (fun kv => fst kv <> []) (lines h).
Proof.
  intros Hok Hn. unfold lines. induction Hok as [|e h He Hok IH]; simpl;
    [constructor|].
  apply Forall_cons in Hn as [Hne Hn]. apply Forall_app. split; [|auto].
  eapply Forall_impl; [apply lines_of_keys, He|].
  intros kv (Hk & _) E. unfold named in Hne. rewrite E in Hk. congruence.
Qed.

Lemma lines_keys_ok h :
  Forall header_ok h ->
  Forall (fun kv => Forall (fun x => x <> Py.SP) (fst kv) /\
                    Forall (fun x => x <> Py.LF) (fst kv)) (lines h).
Proof.
  intros Hok. unfold lines. induction Hok as [|e h He Hok IH]; simpl;
    [constructor|].
  apply Forall_app. split; [|assumption].
  eapply Forall_impl; [apply lines_of_keys, He|]. now intros kv (_ & ?).
Qed.

Lemma wf_lines_ok h : wf_headers h -> lines_ok (lines h).
Proof.
  intros (_ & Hok & Hfirst). split; [now apply lines_keys_ok|].
  destruct h as [|e t]; [constructor|]. destruct Hfirst as [Hf Hn].
  apply Forall_cons in Hok as [He Hok].
  pose proof (lines_named t Hok Hn) as Ht.
  unfold lines in *. simpl.
  destruct e as [[k|] val]; [|easy]. unfold lines_of at 1. simpl fst. simpl snd.
  destruct val as [v|vs]; simpl; [exact Ht|].
  destruct k as [|k0 k].
  - destruct (Hf eq_refl) as [v Hv]. discriminate.
  - destruct vs as [|v vs]; simpl.
    { destruct He as (_ & _ & Hlen). simpl in Hlen. lia. }
    apply Forall_app. split; [|exact Ht].
    apply Forall_forall. intros kv Hin.
    apply list_elem_of_In, in_map_iff in Hin as (v' & <- & _). easy.
Qed.

End ParseSerialized.

Section RoundTrip.

Implicit Types (k v m raw : bytes) (h d dct : odict).

(** Headers in serialized form, a blank line and any bytes parse to
    those headers and those bytes as the message, given frames for one
    call per line and iterations for the longest value. *)
Lemma kvlm_parse_serialized h m depth fuel :
  wf_headers h ->
  (length (lines h) < depth)%nat ->
  (length (fields (lines h)) < fuel)%nat ->
  kvlm_parse depth fuel (fields (lines h) ++ Py.LF :: m) 0 None
  = Some (Ok (h ++ [(None, Single m)])).
Proof.
  intros Hwf Hdepth Hfuel. rewrite kvlm_parse_None.
  replace depth with (length (lines h) + S (depth - S (length (lines h))))%nat
    by lia.
  pose proof (kvlm_parse_fields (lines h) (S (depth - S (length (lines h))))
                fuel [] Py.LF m [] (wf_lines_ok h Hwf)) as H.
  simpl app in H. rewrite len_nil in H.
  rewrite H by (first [discriminate | assumption]). clear H.
  pose proof (kvlm_parse_message (depth - S (length (lines h))) fuel
                (fields (lines h)) m (insert_all (lines h) [])) as H.
  rewrite H. clear H. destruct Hwf as (Hnd & Hok & _).
  rewrite (insert_lines h []) by assumption. simpl app.
  now rewrite set_new by now apply header_keys_not_None.
Qed.

(** The key the parser cuts out has no space and no newline, and is not
    empty unless the field starts with a space. *)
Lemma parsed_key raw start :
  0 <= start ->
  0 <= Py.find raw Py.SP start ->
  Py.find raw Py.SP start <= Py.find raw Py.LF start ->
  let k := Py.slice raw start (Py.find raw Py.SP start) in
  Forall (fun x => x <> Py.SP) k /\ Forall (fun x => x <> Py.LF) k /\
  (forall c, Py.getitem raw start = Ok c -> c <> Py.SP -> k <> []).
Proof.
  intros Hstart Hspc Hnl.
  destruct (find_split raw Py.SP start _ Hstart eq_refl Hspc)
    as (pre & a & post & Eraw & Hpre & Ha & Espc).
  destruct (find_split raw Py.LF start _ Hstart eq_refl ltac:(lia))
    as (pre' & a' & post' & Eraw' & Hpre' & Ha' & Enl).
  cbv zeta.
  assert (Py.slice raw start (Py.find raw Py.SP start) = a) as ->.
  { rewrite Espc, Eraw, <- Hpre. apply slice_mid. }
  split; [assumption|]. split.
  - assert (a = take (length a) a') as Ea.
    { assert (drop (length pre) raw = a ++ Py.SP :: post) as E1.
      { rewrite Eraw. apply drop_app_length. }
      assert (drop (length pre) raw = a' ++ Py.LF :: post') as E2.
      { rewrite Eraw'. apply drop_app_length'. unfold Py.len in *. lia. }
      rewrite E1 in E2.
      rewrite <- (take_app_length a (Py.SP :: post)) at 1. rewrite E2.
      apply take_app_le. unfold Py.len in *. lia. }
    rewrite Ea. now apply Forall_take.
  - intros c Hc Hsp ->. simpl in Eraw. rewrite Eraw, <- Hpre in Hc.
    rewrite getitem_app in Hc. congruence.
Qed.

(** The multimap insertion keeps the headers well formed. *)
Lemma wf_insert k v dct :
  wf_headers dct ->
  Forall (fun x => x <> Py.SP) k -> Forall (fun x => x <> Py.LF) k ->
  (dct = [] \/ k <> []) ->
  wf_headers (kvlm_insert k v dct).
Proof.
  intros (Hnd & Hok & Hfirst) Hsp Hlf Hk. unfold kvlm_insert.
  destruct (Dict.mem (Some k) dct) eqn:Hmem.
  - assert (k <> []) as Hne.
    { destruct Hk as [->|Hk]; [discriminate | assumption]. }
    destruct (mem_get _ _ Hmem) as [x Hx]. rewrite Hx.
    assert (forall y, match y with
                      | Multi vs => (2 <= length vs)%nat
                      | Single _ => True
                      end ->
                      wf_headers (Dict.set (Some k) y dct)) as Hset.
    { intros y Hy. repeat split.
      - now rewrite set_keys.
      - apply set_Forall; [assumption | simpl; auto].
      - destruct dct as [|[k0 x0] t]; [discriminate|].
        destruct Hfirst as [Hf Hn].
        change (Dict.set (Some k) y ((k0, x0) :: t))
          with (if key_eqb (Some k) k0 then (k0, y) :: t
                else (k0, x0) :: Dict.set (Some k) y t).
        destruct (key_eqb (Some k) k0) eqn:E.
        + apply key_eqb_true in E. subst k0. split; [|assumption].
          unfold first_ok. simpl. intros [= E]. contradiction.
        + split; [assumption|].
          apply set_Forall; [assumption|]. unfold named. simpl. congruence. }
    destruct x as [v0|vs]; apply Hset; simpl; [lia|].
    apply get_In in Hx. rewrite Forall_forall in Hok.
    apply list_elem_of_In, Hok in Hx. destruct Hx as (_ & _ & Hlen).
    rewrite length_app. simpl. lia.
  - rewrite set_new by assumption. repeat split.
    + unfold Dict.keys. rewrite map_app. simpl.
      apply NoDup_app. repeat split; [assumption | | apply NoDup_singleton].
      intros k0 Hk0 Hk0'. apply list_elem_of_In in Hk0.
      apply list_elem_of_singleton in Hk0'. subst k0.
      apply mem_false in Hmem. contradiction.
    + apply Forall_app. split; [assumption|].
      apply Forall_singleton. simpl. auto.
    + destruct dct as [|e t]; simpl.
      * split; [|constructor]. intros _. now exists v.
      * destruct Hfirst as [Hf Hn]. split; [assumption|].
        apply Forall_app. split; [assumption|].
        apply Forall_singleton. unfold named. simpl.
        destruct Hk as [?|Hk]; [discriminate | congruence].
Qed.

(** Every document the parser returns is well-formed headers followed by
    the message. *)
Lemma kvlm_parse_wf fuel raw : forall depth start dct d,
  0 <= start -> wf_headers dct ->
  (dct = [] \/ exists c, Py.getitem raw start = Ok c /\ c <> Py.SP) ->
  kvlm_parse depth fuel raw start (Some dct) = Some (Ok d) ->
  exists h m, d = h ++ [(None, Single m)] /\ wf_headers h.
Proof.
  induction depth as [|depth IH]; intros start dct d Hstart Hwf Hhead;
    [discriminate|].
  rewrite kvlm_parse_unfold. cbv zeta.
  destruct ((Py.find raw Py.SP start <? 0)
            || (Py.find raw Py.LF start <? Py.find raw Py.SP start)) eqn:Hb.
  - destruct (Py.find raw Py.LF start =? start); [|discriminate].
    intros [= <-]. exists dct, (Py.slice_from raw (start + 1)).
    split; [|assumption]. destruct Hwf as (_ & Hok & _).
    now rewrite set_new by now apply header_keys_not_None.
  - apply orb_false_iff in Hb as [Hspc Hnl].
    apply Z.ltb_ge in Hspc, Hnl.
    destruct (value_end fuel raw start) as [[e|x]|] eqn:Hend; try discriminate.
    destruct (value_end_stop _ _ _ _ Hend) as (He & c & Hc & Hsp).
    destruct (parsed_key raw start Hstart Hspc Hnl) as (Hk1 & Hk2 & Hk3).
    apply IH; [lia | | eauto].
    apply wf_insert; try assumption.
    destruct Hhead as [->|(c0 & Hc0 & Hsp0)]; [now left | right; eauto].
Qed.

End RoundTrip.

(** ** Frames *)

Definition digit_byte (c : byte) : Prop := exists f, Py.digit c = Some f.

Section Frames.

Implicit Types (tag payload raw : bytes) (n : Z) (d : uint).

Lemma uint_bytes_digit d : Forall digit_byte (Py.uint_bytes d).
Proof.
  induction d; simpl; constructor; try assumption; eexists; reflexivity.
Qed.

Lemma digits_uint_bytes d : Py.digits true (Py.uint_bytes d) = Some d.
Proof. induction d; simpl; [reflexivity | now rewrite IHd ..]. Qed.

Lemma digits_uint_bytes_nonnil d :
  d <> Nil -> Py.digits false (Py.uint_bytes d) = Some d.
Proof.
  destruct d; simpl; [easy | now rewrite digits_uint_bytes ..].
Qed.

Lemma digit_byte_props c :
  digit_byte c ->
  Py.is_space c = false /\ Py.is_ascii c = true /\ c <> Py.NUL
  /\ c <> x2d /\ c <> x2b.
Proof.
  intros [f Hf]. destruct c; try discriminate Hf; repeat split; discriminate.
Qed.

Lemma lstrip_digits l : Forall digit_byte l -> Py.lstrip l = l.
Proof.
  destruct 1 as [|c l Hc Hl]; simpl; [reflexivity|].
  apply digit_byte_props in Hc as (-> & _). reflexivity.
Qed.

Lemma strip_digits l : Forall digit_byte l -> Py.strip (Py.SP :: l) = l.
Proof.
  intros Hl. unfold Py.strip. simpl Py.lstrip at 2.
  rewrite (lstrip_digits l Hl).
  rewrite lstrip_digits by (apply Forall_rev; assumption).
  apply rev_involutive.
Qed.

(** The decimal text of a length. *)
Lemma str_nonneg n :
  0 <= n ->
  exists d, Py.str n = Py.uint_bytes d /\ d <> Nil /\ Z.of_int (Pos d) = n.
Proof.
  intros Hn. unfold Py.str. pose proof (DecimalZ.of_to n) as Hof.
  destruct n as [|p|p]; simpl in *.
  - exists (D0 Nil). repeat split; easy.
  - exists (Pos.to_uint p). repeat split; [apply Unsigned.to_uint_nonnil | assumption].
  - lia.
Qed.

Lemma digit_count_digits l :
  Forall digit_byte l -> Py.digit_count l = Py.len l.
Proof.
  unfold Py.digit_count, Py.len. intros Hl. do 2 f_equal.
  induction Hl as [|c l [f Hf] _ IH]; simpl; [reflexivity|].
  now rewrite Hf, IH.
Qed.

(** [int()] on the length field that [object_write] writes: the number,
    unless the field has more digits than the limit. *)
Lemma int_of_str_limited limit n :
  0 <= n ->
  Py.int_of_ascii_limited limit (Py.SP :: Py.str n)
  = if (0 <? limit) && (limit <? Py.len (Py.str n)) then Raise ValueError
    else Ok n.
Proof.
  intros Hn. destruct (str_nonneg n Hn) as (d & -> & Hd & Hof).
  pose proof (uint_bytes_digit d) as Hdig.
  unfold Py.int_of_ascii_limited.
  assert (forallb Py.is_ascii (Py.SP :: Py.uint_bytes d) = true) as ->.
  { simpl. apply forallb_forall. intros c Hc.
    rewrite Forall_forall in Hdig. apply list_elem_of_In in Hc.
    now apply Hdig, digit_byte_props in Hc. }
  simpl negb. cbv iota. rewrite strip_digits by assumption.
  rewrite <- (digit_count_digits _ Hdig).
  destruct (Py.uint_bytes d) as [|c l] eqn:E.
  - destruct d; try discriminate E. now contradiction Hd.
  - apply Forall_cons in Hdig as [Hc _].
    apply digit_byte_props in Hc as (_ & _ & _ & Hm & Hp).
    assert (match c with
            | x2d => (true, l)
            | x2b => (false, l)
            | _ => (false, c :: l)
            end = (false, c :: l)) as ->.
    { destruct c; try reflexivity; congruence. }
    rewrite <- E, digits_uint_bytes_nonnil by assumption.
    now rewrite Hof.
Qed.

(** [int()] reads back the length field that [object_write] writes. *)
Lemma int_of_str n : 0 <= n -> Py.int_of_ascii (Py.SP :: Py.str n) = Ok n.
Proof.
  intros Hn. unfold Py.int_of_ascii. now rewrite int_of_str_limited.
Qed.

Lemma str_no_NUL n : 0 <= n -> Forall (fun x => x <> Py.NUL) (Py.str n).
Proof.
  intros Hn. destruct (str_nonneg n Hn) as (d & -> & _).
  eapply Forall_impl; [apply uint_bytes_digit|].
  intros c Hc. now apply digit_byte_props in Hc.
Qed.

End Frames.

(** ** The store *)

(** Where an object lives. *)
Definition object_dir (repo : GitRepository) (sha : string) : path :=
  repo_path repo ["objects"%string; sha_dir sha].

Definition object_path (repo : GitRepository) (sha : string) : path :=
  repo_path repo ["objects"%string; sha_dir sha; sha_file sha].

(** No regular file sits on the way to [p]. *)
Definition path_clear (fs : filesystem) (p : path) : Prop :=
  forall (n : nat) c, fs !! take n p <> Some (File c).

(** A file system only gained directories. *)
Definition only_dirs_added (fs fs' : filesystem) : Prop :=
  forall p : path, fs' !! p = fs !! p \/ (fs !! p = None /\ fs' !! p = Some Dir).

Section StoreFacts.

Implicit Types (fs : filesystem) (p pre rest : path) (repo : GitRepository)
  (sha : string) (tag payload raw : bytes).

Lemma only_dirs_added_refl fs : only_dirs_added fs fs.
Proof. intros p. now left. Qed.

Lemma only_dirs_added_trans fs1 fs2 fs3 :
  only_dirs_added fs1 fs2 -> only_dirs_added fs2 fs3 ->
  only_dirs_added fs1 fs3.
Proof.
  intros H12 H23 p. destruct (H12 p) as [E|[E1 E2]], (H23 p) as [E'|[E1' E2']];
    try (left; congruence); try (right; split; congruence).
Qed.

Lemma only_dirs_added_insert fs p :
  fs !! p = None -> only_dirs_added fs (<[p := Dir]> fs).
Proof.
  intros Hp q. destruct (decide (p = q)) as [<-|Hne].
  - right. now rewrite lookup_insert_eq.
  - left. now rewrite lookup_insert_ne.
Qed.

(** [os.makedirs] adds directories and nothing else. *)
Lemma makedirs_from_only_dirs rest : forall pre fs fs',
  Os.makedirs_from pre rest fs = Ok fs' -> only_dirs_added fs fs'.
Proof.
  induction rest as [|c rest IH]; intros pre fs fs'; simpl.
  - intros [= <-]. apply only_dirs_added_refl.
  - destruct (fs !! (pre ++ [c])) as [[|content]|] eqn:E; [| discriminate |].
    + apply IH.
    + intros H. apply IH in H.
      eapply only_dirs_added_trans; [|exact H].
      now apply only_dirs_added_insert.
Qed.

(** [os.makedirs] succeeds when no regular file is in the way, and the
    directory is there afterwards. *)
Lemma makedirs_from_ok rest : forall pre fs,
  (forall (n : nat) c, fs !! (pre ++ take n rest) <> Some (File c)) ->
  (rest = [] -> fs !! pre = Some Dir) ->
  exists fs', Os.makedirs_from pre rest fs = Ok fs' /\
              fs' !! (pre ++ rest) = Some Dir.
Proof.
  induction rest as [|c rest IH]; intros pre fs Hclear Hnil; simpl.
  - exists fs. rewrite app_nil_r. auto.
  - assert (forall fs1,
               (forall q : path, q <> pre ++ [c] -> fs1 !! q = fs !! q) ->
               fs1 !! (pre ++ [c]) = Some Dir ->
               exists fs', Os.makedirs_from (pre ++ [c]) rest fs1 = Ok fs' /\
                           fs' !! (pre ++ c :: rest) = Some Dir) as Hgo.
    { intros fs1 Hsame Hdir.
      replace (pre ++ c :: rest) with ((pre ++ [c]) ++ rest)
        by now rewrite <- app_assoc.
      apply IH; [|auto].
      intros n c' Hf. destruct (decide ((pre ++ [c]) ++ take n rest = pre ++ [c]))
        as [E|E].
      - rewrite E in Hf. congruence.
      - rewrite Hsame in Hf by assumption.
        apply (Hclear (S n) c'). simpl. now rewrite <- app_assoc in Hf. }
    destruct (fs !! (pre ++ [c])) as [[|content]|] eqn:E.
    + apply Hgo; auto.
    + exfalso. apply (Hclear 1%nat content). simpl. now rewrite take_0.
    + apply Hgo.
      * intros q Hq. now rewrite lookup_insert_ne.
      * now rewrite lookup_insert_eq.
Qed.

(** [repo_file] without [mkdir] leaves the file system alone and answers
    by what is at the directory of the path. *)
Lemma repo_file_lookup repo sha fs :
  repo_file repo ["objects"%string; sha_dir sha; sha_file sha] false fs
  = (match fs !! object_dir repo sha with
     | Some Dir => Ok (Some (object_path repo sha))
     | Some (File _) =>
         Raise (Exception ("Not a directory "
                           ++ Os.text (object_dir repo sha)))
     | None => Ok None
     end, fs).
Proof.
  unfold repo_file, repo_dir, Os.exists_, Os.isdir, object_dir, object_path.
  simpl removelast.
  destruct (fs !! repo_path repo ["objects"%string; sha_dir sha])
    as [[|c]|]; reflexivity.
Qed.

(** [repo_file] with [mkdir] on a clear way: the directory is there
    afterwards, and only directories were added. *)
Lemma repo_file_mkdir repo sha fs :
  path_clear fs (object_dir repo sha) ->
  exists fs1,
    repo_file repo ["objects"%string; sha_dir sha; sha_file sha] true fs
    = (Ok (Some (object_path repo sha)), fs1) /\
    fs1 !! object_dir repo sha = Some Dir /\ only_dirs_added fs fs1.
Proof.
  intros Hclear. unfold repo_file, repo_dir, Os.exists_, Os.isdir.
  simpl removelast. fold (object_dir repo sha).
  destruct (fs !! object_dir repo sha) as [[|c]|] eqn:E.
  - exists fs. repeat split; [assumption | apply only_dirs_added_refl].
  - exfalso. apply (Hclear (length (object_dir repo sha)) c).
    now rewrite take_ge by lia.
  - destruct (makedirs_from_ok (object_dir repo sha) [] fs) as (fs1 & Hmk & Hdir).
    + intros n c. apply Hclear.
    + unfold object_dir, repo_path, Os.join.
      intros H. apply app_eq_nil in H as [_ H]. discriminate.
    + unfold Os.makedirs. rewrite Hmk. exists fs1. repeat split.
      * exact Hdir.
      * eapply makedirs_from_only_dirs, Hmk.
Qed.

Lemma find_0 raw c : Py.find raw c 0 = Py.find_at c raw 0.
Proof. apply (find_app [] raw c). Qed.

(** What [object_read] makes of a frame with a decimal length field,
    under the limit of the interpreter on the digits of the field. *)
Lemma object_parse_limited_frame depth fuel limit sha tag n payload :
  Forall (fun x => x <> Py.SP) tag -> 0 <= n ->
  object_parse_limited depth fuel limit sha
    (tag ++ Py.SP :: Py.str n ++ Py.NUL :: payload)
  = if (0 <? limit) && (limit <? Py.len (Py.str n)) then
      Some (Raise ValueError)
    else if n =? Py.len payload then
      match class_of_fmt tag with
      | Some c => construct depth fuel c payload
      | None =>
          match decode_ascii tag with
          | Ok name => Some (Raise (Exception ("Unknown type " ++ name
                                               ++ " for object " ++ sha)))
          | Raise e => Some (Raise e)
          end
      end
    else Some (Raise (Exception ("Malformed object " ++ sha
                                 ++ ": bad length"))).
Proof.
  intros Htag Hn. unfold object_parse_limited. cbv zeta.
  pose proof (len_nonneg tag) as Ht. pose proof (len_nonneg payload) as Hp.
  pose proof (len_nonneg (Py.str n)) as Hs.
  set (raw := tag ++ Py.SP :: Py.str n ++ Py.NUL :: payload).
  assert (Py.find raw Py.SP 0 = Py.len tag) as Ex.
  { rewrite find_0. unfold raw. rewrite find_at_hit by assumption. lia. }
  rewrite Ex.
  assert (Py.find raw Py.NUL (Py.len tag)
          = Py.len tag + 1 + Py.len (Py.str n)) as Ey.
  { unfold raw. rewrite find_app.
    change (Py.SP :: Py.str n ++ Py.NUL :: payload)
      with ((Py.SP :: Py.str n) ++ Py.NUL :: payload).
    rewrite find_at_hit.
    - rewrite len_cons. lia.
    - constructor; [discriminate | now apply str_no_NUL]. }
  rewrite Ey.
  assert (Py.slice raw (Py.len tag) (Py.len tag + 1 + Py.len (Py.str n))
          = Py.SP :: Py.str n) as ->.
  { unfold raw.
    change (Py.SP :: Py.str n ++ Py.NUL :: payload)
      with ((Py.SP :: Py.str n) ++ Py.NUL :: payload).
    replace (Py.len tag + 1 + Py.len (Py.str n))
      with (Py.len tag + Py.len (Py.SP :: Py.str n))
      by (rewrite len_cons; lia).
    apply slice_mid. }
  rewrite int_of_str_limited by assumption.
  destruct ((0 <? limit) && (limit <? Py.len (Py.str n))); [reflexivity|].
  assert (Py.len raw - (Py.len tag + 1 + Py.len (Py.str n)) - 1
          = Py.len payload) as ->.
  { unfold raw. rewrite len_app, len_cons, len_app, len_cons. lia. }
  destruct (n =? Py.len payload); simpl negb; cbv iota; [|reflexivity].
  assert (Py.slice raw 0 (Py.len tag) = tag) as ->.
  { unfold raw. apply (slice_mid [] tag). }
  assert (Py.slice_from raw (Py.len tag + 1 + Py.len (Py.str n) + 1)
          = payload) as ->.
  { unfold raw.
    replace (tag ++ Py.SP :: Py.str n ++ Py.NUL :: payload)
      with ((tag ++ Py.SP :: Py.str n ++ [Py.NUL]) ++ payload) by app_eq.
    replace (Py.len tag + 1 + Py.len (Py.str n) + 1)
      with (Py.len (tag ++ Py.SP :: Py.str n ++ [Py.NUL]))
      by (rewrite len_app, len_cons, len_app, len_cons, len_nil; lia).
    apply slice_from_app. }
  reflexivity.
Qed.

(** With the limit off, and under every limit for a field within it. *)
Lemma object_parse_frame depth fuel sha tag n payload :
  Forall (fun x => x <> Py.SP) tag -> 0 <= n ->
  object_parse depth fuel sha (tag ++ Py.SP :: Py.str n ++ Py.NUL :: payload)
  = if n =? Py.len payload then
      match class_of_fmt tag with
      | Some c => construct depth fuel c payload
      | None =>
          match decode_ascii tag with
          | Ok name => Some (Raise (Exception ("Unknown type " ++ name
                                               ++ " for object " ++ sha)))
          | Raise e => Some (Raise e)
          end
      end
    else Some (Raise (Exception ("Malformed object " ++ sha
                                 ++ ": bad length"))).
Proof.
  intros Htag Hn. unfold object_parse.
  now rewrite object_parse_limited_frame.
Qed.

Lemma object_parse_limited_within depth fuel limit sha tag n payload :
  Forall (fun x => x <> Py.SP) tag -> 0 <= n ->
  limit = 0 \/ Py.len (Py.str n) <= limit ->
  object_parse_limited depth fuel limit sha
    (tag ++ Py.SP :: Py.str n ++ Py.NUL :: payload)
  = object_parse depth fuel sha
      (tag ++ Py.SP :: Py.str n ++ Py.NUL :: payload).
Proof.
  intros Htag Hn Hl.
  rewrite object_parse_frame, object_parse_limited_frame by assumption.
  replace ((0 <? limit) && (limit <? Py.len (Py.str n))) with false;
    [reflexivity|].
  symmetry. apply andb_false_iff.
  destruct Hl as [->|Hl]; [left; reflexivity | right; lia].
Qed.

End StoreFacts.

(** * The KVLM codec: parse after serialize *)

Section ParseAfterSerialize.

Implicit Types (raw m : bytes) (h d : odict).

Lemma lines_le_fields (kvs : list (bytes * bytes)) :
  (length kvs <= length (fields kvs))%nat.
Proof.
  induction kvs as [|[k v] kvs IH]; simpl; [lia|].
  change (flat_map (fun kv => field (fst kv) (snd kv)) kvs) with (fields kvs).
  unfold field. rewrite !length_app. simpl. lia.
Qed.

Lemma message_grows h m :
  h ++ [(None, Single (m ++ [Py.LF]))] <> h ++ [(None, Single m)].
Proof.
  intros E. apply app_inv_head in E. injection E as E.
  apply (f_equal (@length byte)) in E. rewrite length_app in E.
  simpl in E. lia.
Qed.

End ParseAfterSerialize.

(** C1. For a document [d] that [kvlm_parse] returns, the claim is that
    parsing the serialization of [d] gives [d] again.  On the code it does
    not: [d] is well-formed headers followed by the message [m];
    [kvlm_serialize] writes the headers, a blank line, [m] and one more
    newline; and [kvlm_parse], given frames and iterations for its length,
    returns from those bytes the same headers, in the same order and with
    the same values, but the message [m] followed by a newline, which is a
    different document. *)
Theorem kvlm_parse_serialize_grows_message depth fuel raw d :
  kvlm_parse depth fuel raw 0 None = Some (Ok d) ->
  exists h m s,
    d = h ++ [(None, Single m)] /\
    kvlm_serialize d = Ok s /\
    (forall depth' fuel',
        (length s < depth')%nat -> (length s < fuel')%nat ->
        kvlm_parse depth' fuel' s 0 None
        = Some (Ok (h ++ [(None, Single (m ++ [Py.LF]))]))) /\
    h ++ [(None, Single (m ++ [Py.LF]))] <> d.
Proof.
  intros Hparse. rewrite kvlm_parse_None in Hparse.
  destruct (kvlm_parse_wf fuel raw depth 0 [] d) as (h & m & -> & Hwf);
    [lia | repeat split; constructor | now left | assumption |].
  exists h, m, (fields (lines h) ++ Py.LF :: m ++ [Py.LF]).
  split; [reflexivity|]. split; [now apply kvlm_serialize_doc|].
  split; [|apply message_grows].
  intros depth' fuel' Hdepth Hfuel.
  rewrite length_app in Hdepth, Hfuel.
  pose proof (lines_le_fields (lines h)).
  apply kvlm_parse_serialized; [assumption | lia | lia].
Qed.

(** A small document with a repeated key. *)
Definition two_parents : bytes :=
  lit "parent a" ++ [Py.LF] ++ lit "parent b" ++ [Py.LF] ++ [Py.LF]
  ++ lit "m".

Definition two_parents_doc : odict :=
  [(Some (lit "parent"), Multi [lit "a"; lit "b"]); (None, Single (lit "m"))].

Lemma kvlm_parse_serialize_grows_message_witness :
  exists h m s,
    two_parents_doc = h ++ [(None, Single m)] /\
    kvlm_serialize two_parents_doc = Ok s /\
    (forall depth' fuel',
        (length s < depth')%nat -> (length s < fuel')%nat ->
        kvlm_parse depth' fuel' s 0 None
        = Some (Ok (h ++ [(None, Single (m ++ [Py.LF]))]))) /\
    h ++ [(None, Single (m ++ [Py.LF]))] <> two_parents_doc.
Proof.
  apply (kvlm_parse_serialize_grows_message 3 1 two_parents two_parents_doc).
  vm_compute. reflexivity.
Defined.

(** * The commit of the concrete scenario *)

Definition initial_commit : bytes :=
  lit "tree 29ff16c9c14e2652b22f8b78bb08a5a07930c147" ++ [Py.LF]
  ++ lit "author A U Thor <author@example.com> 1 +0000" ++ [Py.LF]
  ++ lit "committer A U Thor <author@example.com> 1 +0000" ++ [Py.LF]
  ++ [Py.LF]
  ++ lit "Initial commit" ++ [Py.LF].

Definition initial_commit_doc : odict :=
  [ (Some (lit "tree"),
     Single (lit "29ff16c9c14e2652b22f8b78bb08a5a07930c147"));
    (Some (lit "author"),
     Single (lit "A U Thor <author@example.com> 1 +0000"));
    (Some (lit "committer"),
     Single (lit "A U Thor <author@example.com> 1 +0000"));
    (None, Single (lit "Initial commit" ++ [Py.LF])) ].

(** C2. Parsing the commit text gives the keys [tree], [author] and
    [committer], one value each and in that order, and the message
    [Initial commit] with its newline: that part of the claim holds, with
    four frames and one iteration of the loop or more.  Serializing the
    parsed document does not give the input back, as the claim has it, but
    the input followed by one more newline. *)
Theorem initial_commit_parse_serialize depth fuel :
  kvlm_parse (4 + depth) (1 + fuel) initial_commit 0 None
  = Some (Ok initial_commit_doc) /\
  kvlm_serialize initial_commit_doc = Ok (initial_commit ++ [Py.LF]) /\
  initial_commit ++ [Py.LF] <> initial_commit.
Proof.
  split; [|split].
  - vm_compute. reflexivity.
  - vm_compute. reflexivity.
  - intros E. apply (f_equal (@length byte)) in E.
    rewrite length_app in E. simpl in E. lia.
Qed.

(** * Continuation lines *)

Definition note_value : bytes := lit "first" ++ [Py.LF] ++ lit "second".

Definition note_lines : bytes :=
  lit "note first" ++ [Py.LF] ++ lit " second" ++ [Py.LF].

Lemma note_headers_wf : wf_headers [(Some (lit "note"), Single note_value)].
Proof.
  repeat split.
  - apply NoDup_singleton.
  - apply Forall_singleton. simpl.
    repeat split; repeat constructor; discriminate.
  - intros [=].
  - constructor.
Qed.

(** C5, as the code has it.  The value [first], newline, [second] under
    the key [note] is
    written as the two lines [note first] and [ second], the newline in it
    followed by a space; and in a document, whatever its message [m], those
    two lines are read back as that value.  The parser reads documents:
    the lines are followed by the blank line and the message. *)
Theorem note_continuation_roundtrip (m : bytes) depth fuel :
  kvlm_field (lit "note") (Single note_value) [] = note_lines /\
  kvlm_serialize [(Some (lit "note"), Single note_value); (None, Single m)]
  = Ok (note_lines ++ [Py.LF] ++ m ++ [Py.LF]) /\
  kvlm_parse (2 + depth) (20 + fuel) (note_lines ++ [Py.LF] ++ m) 0 None
  = Some (Ok [(Some (lit "note"), Single note_value); (None, Single m)]).
Proof.
  split; [reflexivity|]. split.
  - apply (kvlm_serialize_doc [(Some (lit "note"), Single note_value)] m).
    apply note_headers_wf.
  - apply (kvlm_parse_serialized [(Some (lit "note"), Single note_value)] m);
      [apply note_headers_wf | simpl; lia | simpl; lia].
Qed.

(** Without a document around them the two lines end where the loop looks
    for the byte after the last newline, and [raw[end+1]] raises. *)
Lemma note_lines_alone depth fuel :
  kvlm_parse (1 + depth) (2 + fuel) note_lines 0 None
  = Some (Raise IndexError).
Proof. vm_compute. reflexivity. Qed.

(** C5, as the claim has it, fails: the two lines by themselves are not
    parsed back to the value; the parser raises on them. *)
Lemma note_lines_not_a_document :
  kvlm_parse 1000 1000 note_lines 0 None = Some (Raise IndexError)
  /\ kvlm_parse 1000 1000 note_lines 0 None
     <> Some (Ok [(Some (lit "note"), Single note_value)]).
Proof. split; [vm_compute; reflexivity | vm_compute; discriminate]. Qed.

(** * The boundary between headers and message *)

(** C8, as the code has it.  Where the header section ends (no space
    from the cursor on, or a newline before the next space) and the cursor
    is not on a newline, the parser fails: the [assert] raises an
    [AssertionError], which carries neither a message nor the offset. *)
Theorem kvlm_parse_boundary_assert depth fuel (raw : bytes) start dct :
  Py.find raw Py.SP start < 0
  \/ Py.find raw Py.LF start < Py.find raw Py.SP start ->
  Py.find raw Py.LF start <> start ->
  kvlm_parse (S depth) fuel raw start dct = Some (Raise AssertionError).
Proof.
  intros Hb Hnl.
  assert (kvlm_parse (S depth) fuel raw start dct
          = kvlm_parse (S depth) fuel raw start
              (Some match dct with Some d => d | None => [] end)) as ->.
  { destruct dct as [[|e d]|]; reflexivity. }
  rewrite kvlm_parse_unfold. cbv zeta.
  assert ((Py.find raw Py.SP start <? 0)
          || (Py.find raw Py.LF start <? Py.find raw Py.SP start) = true) as ->.
  { apply orb_true_iff. destruct Hb; [left | right]; lia. }
  now zbool.
Qed.

Lemma kvlm_parse_boundary_assert_witness :
  kvlm_parse 1 0 (lit "ab") 1 None = Some (Raise AssertionError).
Proof.
  apply (kvlm_parse_boundary_assert 0 0 (lit "ab") 1 None).
  - left. vm_compute. reflexivity.
  - vm_compute. discriminate.
Defined.

(** C8, as the claim has it, fails: an error that reports the offset at
    which the boundary check failed would let one read that offset off the
    error.  The parser raises the same error when the check fails at
    offset 0 of [a] and at offset 4 of [k v], newline, [b]. *)
Lemma kvlm_boundary_error_has_no_offset :
  ~ exists offset_of : option (result odict) -> Z,
      forall (raw : bytes) (start : Z) (dct : option odict),
        (Py.find raw Py.SP start < 0
         \/ Py.find raw Py.LF start < Py.find raw Py.SP start) ->
        Py.find raw Py.LF start <> start ->
        offset_of (kvlm_parse 1000 1000 raw start dct) = start.
Proof.
  intros [offset_of H].
  pose proof (H (lit "a") 0 None) as H0.
  pose proof (H (lit "k v" ++ [Py.LF] ++ lit "b") 4
                (Some [(Some (lit "k"), Single (lit "v"))])) as H4.
  assert (kvlm_parse 1000 1000 (lit "a") 0 None
          = Some (Raise AssertionError)) as E0 by (vm_compute; reflexivity).
  assert (kvlm_parse 1000 1000 (lit "k v" ++ [Py.LF] ++ lit "b") 4
            (Some [(Some (lit "k"), Single (lit "v"))])
          = Some (Raise AssertionError)) as E4 by (vm_compute; reflexivity).
  rewrite E0 in H0. rewrite E4 in H4.
  assert (offset_of (Some (Raise AssertionError)) = 0) as R0.
  { apply H0; [left; vm_compute; reflexivity | vm_compute; discriminate]. }
  assert (offset_of (Some (Raise AssertionError)) = 4) as R4.
  { apply H4; [left; vm_compute; reflexivity | vm_compute; discriminate]. }
  lia.
Qed.

(** * Termination *)

Definition endless : bytes := lit " a" ++ [Py.LF] ++ lit " ".

Lemma value_end_endless fuel :
  value_end fuel endless 2 = None /\ value_end fuel endless (-1) = None.
Proof.
  induction fuel as [|fuel [IH2 IH1]]; [split; reflexivity|].
  split.
  - change (value_end (S fuel) endless 2) with (value_end fuel endless (-1)).
    exact IH1.
  - change (value_end (S fuel) endless (-1)) with (value_end fuel endless 2).
    exact IH2.
Qed.

(** C9.  The claim is that [kvlm_parse] returns or fails on every input.
    On the four bytes space, [a], newline, space it does neither: the
    search for the end of the value finds the newline followed by a space,
    finds no further newline, takes the [-1] of [find] for a position, looks
    at [raw[0]], a space, and starts over from the first newline.  However
    many iterations the loop is given, it has not left; the recursion limit
    plays no part. *)
Theorem kvlm_parse_endless depth fuel :
  kvlm_parse (S depth) fuel endless 0 None = None.
Proof.
  assert (value_end fuel endless 0 = None) as H.
  { destruct fuel as [|fuel]; [reflexivity|].
    change (value_end (S fuel) endless 0) with (value_end fuel endless 2).
    apply value_end_endless. }
  rewrite kvlm_parse_None, kvlm_parse_unfold. cbv zeta.
  change (Py.find endless Py.SP 0) with 0.
  change (Py.find endless Py.LF 0) with 2.
  simpl orb. cbv iota. now rewrite H.
Qed.

(** * The object store *)

(** A codec that keeps the bytes as they are, for where a concrete one is
    needed in place of zlib's. *)
Definition keep_compress (x : bytes) : bytes := x.
Definition keep_decompress (x : bytes) : option bytes := Some x.

(** The address [object_write] gives an object with this type tag and
    payload. *)
Definition address (tag data : bytes) : string :=
  Hashlib.sha1_hexdigest (frame tag data).

(** The claim of the object round trip: hashing and writing the payload
    under a type tag gives an address at which [object_read] finds a record
    that serializes to the payload. *)
Definition stores_and_reads (zc : bytes -> bytes) (zd : bytes -> option bytes)
    (depth fuel : nat) (repo : GitRepository) (fs : filesystem)
    (tag data : bytes) : Prop :=
  exists sha fs' obj,
    object_hash zc depth fuel data tag (Some repo) fs = Some (Ok sha, fs') /\
    object_read zd depth fuel repo sha fs' = Some (Ok (Some obj)) /\
    serialize obj = Ok data.

Definition lower_hex (c : ascii) : Prop :=
  In c (list_ascii_of_string "0123456789abcdef").

Section ObjectStore.

Variable zc : bytes -> bytes.
Variable zd : bytes -> option bytes.
Variables (depth fuel : nat).

Implicit Types (fs : filesystem) (repo : GitRepository) (sha : string)
  (obj : GitObject) (data tag payload : bytes).

Lemma makedirs_from_long rest : forall pre fs fs' (q : path),
  Os.makedirs_from pre rest fs = Ok fs' ->
  (length (pre ++ rest) < length q)%nat -> fs' !! q = fs !! q.
Proof.
  induction rest as [|c rest IH]; intros pre fs fs' q; simpl.
  - now intros [= <-].
  - intros Hmk Hlen.
    assert (length ((pre ++ [c]) ++ rest) < length q)%nat as Hlen'
        by (rewrite <- app_assoc; exact Hlen).
    destruct (fs !! (pre ++ [c])) as [[|content]|] eqn:E; [| discriminate |].
    + eapply IH; eassumption.
    + rewrite (IH _ _ _ q Hmk Hlen'). apply lookup_insert_ne.
      intros <-. rewrite !length_app in Hlen'. lia.
Qed.

Lemma object_path_length repo sha :
  length (object_path repo sha) = S (length (object_dir repo sha)).
Proof.
  unfold object_path, object_dir, repo_path, Os.join.
  rewrite !length_app. simpl. lia.
Qed.

Lemma object_path_parent repo sha :
  removelast (object_path repo sha) = object_dir repo sha.
Proof.
  unfold object_path, object_dir, repo_path, Os.join.
  change ["objects"%string; sha_dir sha; sha_file sha]
    with (["objects"%string; sha_dir sha] ++ [sha_file sha]).
  rewrite app_assoc. apply removelast_last.
Qed.

Lemma object_dir_nonempty repo sha : object_dir repo sha <> [].
Proof.
  unfold object_dir, repo_path, Os.join. intros H.
  apply app_eq_nil in H as [_ H]. discriminate.
Qed.

(** [repo_file] with [mkdir]: the object's own path is not touched. *)
Lemma repo_file_mkdir_path repo sha fs r fs1 :
  repo_file repo ["objects"%string; sha_dir sha; sha_file sha] true fs
  = (r, fs1) ->
  only_dirs_added fs fs1 /\
  fs1 !! object_path repo sha = fs !! object_path repo sha.
Proof.
  unfold repo_file, repo_dir, Os.exists_, Os.isdir. simpl removelast.
  fold (object_dir repo sha).
  destruct (fs !! object_dir repo sha) as [[|c]|] eqn:E.
  - intros [= _ <-]. split; [apply only_dirs_added_refl | reflexivity].
  - intros [= _ <-]. split; [apply only_dirs_added_refl | reflexivity].
  - unfold Os.makedirs.
    destruct (Os.makedirs_from [] (object_dir repo sha) fs) as [fs'|e] eqn:Hmk.
    + intros [= _ <-]. split.
      * eapply makedirs_from_only_dirs, Hmk.
      * eapply makedirs_from_long; [exact Hmk|].
        simpl. rewrite object_path_length. lia.
    + intros [= _ <-]. split; [apply only_dirs_added_refl | reflexivity].
Qed.

(** Writing into a store whose way to the object is clear: the address
    comes back, and the object's file is the one that was there or, if
    there was none, the compressed frame. *)
Lemma object_write_stored obj data repo fs :
  serialize obj = Ok data ->
  path_clear fs (object_dir repo (address (fmt obj) data)) ->
  exists fs',
    object_write zc obj (Some repo) fs = (Ok (address (fmt obj) data), fs') /\
    fs' !! object_dir repo (address (fmt obj) data) = Some Dir /\
    fs' !! object_path repo (address (fmt obj) data)
    = match fs !! object_path repo (address (fmt obj) data) with
      | None => Some (File (zc (frame (fmt obj) data)))
      | Some x => Some x
      end.
Proof.
  intros Hser Hclear. unfold object_write. rewrite Hser.
  fold (address (fmt obj) data). set (sha := address (fmt obj) data) in *.
  destruct (repo_file_mkdir repo sha fs Hclear) as (fs1 & Hrf & Hdir & Hadd).
  destruct (repo_file_mkdir_path repo sha fs _ _ Hrf) as [_ Hsame].
  rewrite Hrf. unfold Os.exists_. rewrite Hsame.
  destruct (fs !! object_path repo sha) as [x|] eqn:Hp; simpl negb; cbv iota.
  - exists fs1. auto.
  - unfold Os.write. rewrite Hsame, object_path_parent.
    pose proof (object_dir_nonempty repo sha) as Hne.
    destruct (object_dir repo sha) as [|c0 d0] eqn:Ed; [easy|].
    rewrite Hdir. eexists. split; [reflexivity|].
    split.
    + rewrite lookup_insert_ne; [assumption|].
      intros E. apply (f_equal (@length string)) in E.
      rewrite object_path_length, Ed in E. simpl in E. lia.
    + apply lookup_insert_eq.
Qed.

(** Reading where the directory is there and the file holds a compressed
    stream. *)
Lemma object_read_limited_file limit repo sha fs c raw :
  fs !! object_dir repo sha = Some Dir ->
  fs !! object_path repo sha = Some (File c) ->
  zd c = Some raw ->
  object_read_limited zd depth fuel limit repo sha fs
  = match object_parse_limited depth fuel limit sha raw with
    | None => None
    | Some (Ok obj) => Some (Ok (Some obj))
    | Some (Raise e) => Some (Raise e)
    end.
Proof.
  intros Hdir Hfile Hz. unfold object_read_limited.
  rewrite repo_file_lookup, Hdir. simpl fst.
  unfold Os.isfile, Os.read. rewrite Hfile. simpl negb. cbv iota.
  now rewrite Hz.
Qed.

Lemma object_read_file repo sha fs c raw :
  fs !! object_dir repo sha = Some Dir ->
  fs !! object_path repo sha = Some (File c) ->
  zd c = Some raw ->
  object_read zd depth fuel repo sha fs
  = match object_parse depth fuel sha raw with
    | None => None
    | Some (Ok obj) => Some (Ok (Some obj))
    | Some (Raise e) => Some (Raise e)
    end.
Proof. apply object_read_limited_file. Qed.

(** The limit does not matter where the stored frame has a length field
    within it, as every frame that [object_write] made has. *)
Lemma object_read_limited_frame limit repo sha fs c tag n payload :
  fs !! object_dir repo sha = Some Dir ->
  fs !! object_path repo sha = Some (File c) ->
  zd c = Some (tag ++ Py.SP :: Py.str n ++ Py.NUL :: payload) ->
  Forall (fun x => x <> Py.SP) tag -> 0 <= n ->
  limit = 0 \/ Py.len (Py.str n) <= limit ->
  object_read_limited zd depth fuel limit repo sha fs
  = object_read zd depth fuel repo sha fs.
Proof.
  intros Hdir Hfile Hz Htag Hn Hl.
  rewrite (object_read_limited_file limit repo sha fs c _ Hdir Hfile Hz).
  rewrite (object_read_file repo sha fs c _ Hdir Hfile Hz).
  now rewrite object_parse_limited_within.
Qed.

Lemma fmt_no_space obj : Forall (fun x => x <> Py.SP) (fmt obj).
Proof. destruct obj; repeat constructor; discriminate. Qed.

Lemma hex_length n x : String.length (Hashlib.hex n x) = n.
Proof. induction n as [|n IH]; simpl; [reflexivity | now rewrite IH]. Qed.

Lemma string_length_app (s t : string) :
  String.length (s ++ t) = (String.length s + String.length t)%nat.
Proof. induction s as [|c s IH]; simpl; [reflexivity | now rewrite IH]. Qed.

Lemma hex_digit_lower x : lower_hex (Hashlib.hex_digit x).
Proof.
  unfold Hashlib.hex_digit, lower_hex.
  assert (0 <= x mod 16 < 16) as H by (apply Z.mod_pos_bound; lia).
  apply nth_In. simpl. lia.
Qed.

Lemma hex_lower n x : Forall lower_hex (list_ascii_of_string (Hashlib.hex n x)).
Proof.
  induction n as [|n IH]; simpl; constructor;
    [apply hex_digit_lower | exact IH].
Qed.

Lemma list_ascii_app (s t : string) :
  list_ascii_of_string (s ++ t)
  = list_ascii_of_string s ++ list_ascii_of_string t.
Proof. induction s as [|c s IH]; simpl; [reflexivity | now rewrite IH]. Qed.

Lemma object_write_no_repo obj fs :
  object_write zc obj None fs
  = (match serialize obj with
     | Ok data => Ok (address (fmt obj) data)
     | Raise e => Raise e
     end, fs).
Proof. unfold object_write. destruct (serialize obj); reflexivity. Qed.

Lemma blob_write_no_repo data fs :
  object_write zc (GitBlob (Some data)) None fs
  = (Ok (address (lit "blob") data), fs).
Proof. apply object_write_no_repo. Qed.

Lemma blob_write_stored data repo fs :
  path_clear fs (object_dir repo (address (lit "blob") data)) ->
  exists fs',
    object_write zc (GitBlob (Some data)) (Some repo) fs
    = (Ok (address (lit "blob") data), fs') /\
    fs' !! object_dir repo (address (lit "blob") data) = Some Dir /\
    fs' !! object_path repo (address (lit "blob") data)
    = match fs !! object_path repo (address (lit "blob") data) with
      | None => Some (File (zc (frame (lit "blob") data)))
      | Some x => Some x
      end.
Proof.
  exact (object_write_stored (GitBlob (Some data)) data repo fs eq_refl).
Qed.

(** The digest is forty lowercase hexadecimal digits. *)
Lemma sha1_hexdigest_shape (m : bytes) :
  String.length (Hashlib.sha1_hexdigest m) = 40%nat /\
  Forall lower_hex (list_ascii_of_string (Hashlib.sha1_hexdigest m)).
Proof.
  unfold Hashlib.sha1_hexdigest.
  destruct (Hashlib.sha1 m) as [[[[h0 h1] h2] h3] h4]. split.
  - rewrite !string_length_app, !hex_length. reflexivity.
  - rewrite !list_ascii_app. rewrite !Forall_app.
    repeat split; apply hex_lower.
Qed.

End ObjectStore.

(** * Claims on the object store *)

Definition hello : bytes := lit "hello world" ++ [Py.LF].

Definition hello_address : string := "3b18e512dba79e4c8300dd08aeb37f8e728b8dad".

(** A repository at [repo], nothing read from the disk. *)
Definition a_repo : GitRepository := GitRepository_force ["repo"%string].

Lemma frame_parts (tag data : bytes) :
  frame tag data = tag ++ Py.SP :: Py.str (Py.len data) ++ Py.NUL :: data.
Proof. reflexivity. Qed.

Lemma hello_address_eq : address (lit "blob") hello = hello_address.
Proof. vm_compute. reflexivity. Qed.

Lemma class_of_fmt_blob : class_of_fmt (lit "blob") = Some cGitBlob.
Proof. reflexivity. Qed.

Lemma path_clear_empty (p : path) : path_clear ∅ p.
Proof. intros n c. now rewrite lookup_empty. Qed.

Section StoreClaims.

Variable zc : bytes -> bytes.
Variable zd : bytes -> option bytes.
Variables (depth fuel : nat).

Implicit Types (fs : filesystem) (repo : GitRepository) (sha : string)
  (obj : GitObject) (data tag payload : bytes).

(** The object round trip, for the class it holds for.  For every
    payload, a [GitBlob] made from it by [object_hash], written into a store and read
    back at the address returned is a record that serializes to the
    payload; the store is one in which no regular file is in the way of
    the object's directory, the object's file is absent or holds this
    object, and decompressing undoes compressing. *)
Theorem blob_store_roundtrip repo fs data :
  (forall x, zd (zc x) = Some x) ->
  path_clear fs (object_dir repo (address (lit "blob") data)) ->
  (fs !! object_path repo (address (lit "blob") data) = None
   \/ exists c, fs !! object_path repo (address (lit "blob") data)
                = Some (File c)
                /\ zd c = Some (frame (lit "blob") data)) ->
  stores_and_reads zc zd depth fuel repo fs (lit "blob") data.
Proof.
  intros Hz Hclear Hfile.
  destruct (blob_write_stored zc data repo fs Hclear)
    as (fs' & Hw & Hdir & Hp).
  set (sha := address (lit "blob") data) in *.
  assert (exists c, fs' !! object_path repo sha = Some (File c)
                    /\ zd c = Some (frame (lit "blob") data))
    as (c & Hc & Hzc).
  { destruct Hfile as [Hnone|(c & Hsome & Hzc)].
    - rewrite Hnone in Hp. eauto.
    - rewrite Hsome in Hp. eauto. }
  exists sha, fs', (GitBlob (Some data)). split; [|split].
  - unfold object_hash. rewrite class_of_fmt_blob.
    unfold construct, new_GitBlob. now rewrite Hw.
  - rewrite (object_read_file zd depth fuel repo sha fs' c _ Hdir Hc Hzc).
    rewrite frame_parts, object_parse_frame;
      [| repeat constructor; discriminate | apply len_nonneg].
    rewrite Z.eqb_refl, class_of_fmt_blob. reflexivity.
  - reflexivity.
Qed.

(** C4.  For the blob [hello world] with its newline, the frame is
    [blob 12], a NUL and the payload; [object_write] returns the address
    [3b18e512dba79e4c8300dd08aeb37f8e728b8dad], the SHA-1 of the frame,
    without a repository and with one; and into an empty store it writes
    the compressed frame at the path of that address. *)
Theorem hello_blob_write :
  frame (lit "blob") hello = lit "blob 12" ++ [Py.NUL] ++ hello /\
  Hashlib.sha1_hexdigest (lit "blob 12" ++ [Py.NUL] ++ hello)
  = hello_address /\
  (forall fs, object_write zc (GitBlob (Some hello)) None fs
              = (Ok hello_address, fs)) /\
  (forall repo, exists fs',
      object_write zc (GitBlob (Some hello)) (Some repo) ∅
      = (Ok hello_address, fs') /\
      fs' !! object_path repo hello_address
      = Some (File (zc (lit "blob 12" ++ [Py.NUL] ++ hello)))).
Proof.
  split; [vm_compute; reflexivity|]. split; [vm_compute; reflexivity|]. split.
  - intros fs. rewrite blob_write_no_repo, hello_address_eq. reflexivity.
  - intros repo.
    destruct (blob_write_stored zc hello repo ∅ (path_clear_empty _))
      as (fs' & Hw & _ & Hp).
    rewrite hello_address_eq in Hw, Hp. rewrite lookup_empty in Hp.
    exists fs'. split; [exact Hw | exact Hp].
Qed.

(** C6.  Where the stored frame is a tag without a space, a space, the
    decimal text of [n], a NUL and the payload, and [limit] is the limit of
    the interpreter on the digits of an integer literal.  For a field
    within the limit, or with the limit off: if [n] is not the length of
    the payload, [object_read] raises the exception with the text
    [Malformed object ..: bad length]; and if it is, and the tag is one the
    function knows, nothing else is checked: the result is what the class
    of the tag makes of the payload.  For a field of more digits than the
    limit, [int()] raises [ValueError] before the lengths are compared, and
    the exception for a bad length is not raised. *)
Theorem object_read_length_check limit repo sha fs c tag n payload :
  fs !! object_dir repo sha = Some Dir ->
  fs !! object_path repo sha = Some (File c) ->
  zd c = Some (tag ++ Py.SP :: Py.str n ++ Py.NUL :: payload) ->
  Forall (fun x => x <> Py.SP) tag ->
  0 <= n ->
  (limit = 0 \/ Py.len (Py.str n) <= limit ->
   n <> Py.len payload ->
   object_read_limited zd depth fuel limit repo sha fs
   = Some (Raise (Exception ("Malformed object " ++ sha ++ ": bad length"))))
  /\
  (limit = 0 \/ Py.len (Py.str n) <= limit ->
   n = Py.len payload ->
   forall cls, class_of_fmt tag = Some cls ->
     object_read_limited zd depth fuel limit repo sha fs
     = match construct depth fuel cls payload with
       | None => None
       | Some (Ok obj) => Some (Ok (Some obj))
       | Some (Raise e) => Some (Raise e)
       end)
  /\
  (0 < limit < Py.len (Py.str n) ->
   object_read_limited zd depth fuel limit repo sha fs
   = Some (Raise ValueError)).
Proof.
  intros Hdir Hfile Hz Htag Hn.
  rewrite (object_read_limited_file zd depth fuel limit repo sha fs c _
             Hdir Hfile Hz).
  rewrite object_parse_limited_frame by assumption.
  split; [|split].
  - intros Hl Hne. apply Z.eqb_neq in Hne. rewrite Hne.
    replace ((0 <? limit) && (limit <? Py.len (Py.str n))) with false;
      [reflexivity|].
    symmetry. apply andb_false_iff.
    destruct Hl as [->|Hl]; [left; reflexivity | right; lia].
  - intros Hl -> cls Hcls. rewrite Z.eqb_refl, Hcls.
    replace ((0 <? limit) && (limit <? Py.len (Py.str (Py.len payload))))
      with false; [reflexivity|].
    symmetry. apply andb_false_iff.
    destruct Hl as [->|Hl]; [left; reflexivity | right; lia].
  - intros [H0 Hl].
    replace ((0 <? limit) && (limit <? Py.len (Py.str n))) with true;
      [reflexivity|].
    symmetry. apply andb_true_iff. split; lia.
Qed.

(** C7, as the code has it.  For an address whose two-character
    directory is there and at whose path there is no regular file,
    [object_read] returns [None] to its caller; it raises nothing. *)
Theorem object_read_absent repo sha fs :
  Os.isdir fs (object_dir repo sha) = true ->
  Os.isfile fs (object_path repo sha) = false ->
  object_read zd depth fuel repo sha fs = Some (Ok None).
Proof.
  intros Hdir Hfile. unfold object_read, object_read_limited. rewrite repo_file_lookup.
  unfold Os.isdir in Hdir.
  destruct (fs !! object_dir repo sha) as [[|c]|]; try discriminate.
  cbv beta iota delta [fst]. now rewrite Hfile.
Qed.

(** Where the two-character directory itself is missing, [repo_file]
    returns [None] and [os.path.isfile] is called on it. *)
Lemma object_read_no_directory repo sha fs :
  fs !! object_dir repo sha = None ->
  object_read zd depth fuel repo sha fs = Some (Raise TypeError).
Proof.
  intros Hdir. unfold object_read, object_read_limited. now rewrite repo_file_lookup, Hdir.
Qed.

Lemma object_write_files obj (given : option GitRepository) fs (p : path) c :
  snd (object_write zc obj given fs) !! p = Some (File c) ->
  fs !! p <> Some (File c) ->
  exists rp data,
    given = Some rp /\ serialize obj = Ok data /\
    p = object_path rp (address (fmt obj) data) /\
    fs !! p = None /\ c = zc (frame (fmt obj) data).
Proof.
  unfold object_write.
  destruct (serialize obj) as [data|e]; [|simpl; congruence].
  fold (address (fmt obj) data). set (sha := address (fmt obj) data).
  destruct given as [rp|]; [|simpl; congruence].
  destruct (repo_file rp ["objects"%string; sha_dir sha; sha_file sha] true fs)
    as [r fs1] eqn:Hrf.
  destruct (repo_file_mkdir_path rp sha fs r fs1 Hrf) as [Hadd Hsame].
  assert (fs1 !! p = Some (File c) -> fs !! p <> Some (File c) -> False)
    as Hfs1.
  { intros H1 H0. destruct (Hadd p) as [E|[_ E]]; congruence. }
  assert (r = Ok (Some (object_path rp sha)) \/ r = Ok None \/ exists e, r = Raise e)
    as Hr.
  { revert Hrf. unfold repo_file.
    destruct (repo_dir rp _ true fs) as [[[q|]|e] fs0]; intros [= <- _]; eauto. }
  destruct Hr as [->|[->|[e ->]]]; simpl; try (intros; exfalso; eauto; fail).
  unfold Os.exists_.
  destruct (fs1 !! object_path rp sha) as [x|] eqn:Hx; simpl negb; cbv iota;
    simpl; [intros; exfalso; eauto|].
  destruct (Os.write (object_path rp sha) (zc (frame (fmt obj) data)) fs1)
    as [fs2|e] eqn:Hw; simpl; [|intros; exfalso; eauto].
  assert (fs2 = <[object_path rp sha := File (zc (frame (fmt obj) data))]> fs1)
    as ->.
  { revert Hw. unfold Os.write. rewrite Hx.
    destruct (removelast (object_path rp sha)); [congruence|].
    destruct (fs1 !! (s :: l)) as [[|?]|]; congruence. }
  intros H2 H0. destruct (decide (object_path rp sha = p)) as [<-|Hne].
  - rewrite lookup_insert_eq in H2. injection H2 as <-.
    exists rp, data. repeat split. congruence.
  - rewrite lookup_insert_ne in H2 by assumption. exfalso. eauto.
Qed.

(** C10, as the code has it.  Without a repository [object_write]
    leaves the file system as
    it is and returns the address of the frame, or raises what
    [serialize] raises; an address is forty lowercase hexadecimal digits;
    and a regular file that is there after a call and was not there
    before is the compressed frame at the path of the address, in a call
    that was given a repository and found nothing at that path. *)
Theorem object_write_effects :
  (forall obj fs,
      snd (object_write zc obj None fs) = fs /\
      fst (object_write zc obj None fs)
      = match serialize obj with
        | Ok data => Ok (address (fmt obj) data)
        | Raise e => Raise e
        end) /\
  (forall tag data,
      String.length (address tag data) = 40%nat /\
      Forall lower_hex (list_ascii_of_string (address tag data))) /\
  (forall obj (given : option GitRepository) fs (p : path) c,
      snd (object_write zc obj given fs) !! p = Some (File c) ->
      fs !! p <> Some (File c) ->
      exists rp data,
        given = Some rp /\ serialize obj = Ok data /\
        p = object_path rp (address (fmt obj) data) /\
        fs !! p = None /\ c = zc (frame (fmt obj) data)).
Proof.
  split; [|split].
  - intros obj fs. unfold object_write.
    destruct (serialize obj); split; reflexivity.
  - intros tag data. apply sha1_hexdigest_shape.
  - apply object_write_files.
Qed.

End StoreClaims.

(** * The claims at concrete stores *)

(** A frame that claims twelve bytes for a payload of eleven. *)
Definition short_frame : bytes :=
  lit "blob 12" ++ [Py.NUL] ++ lit "hello world".

Definition short_store : filesystem :=
  <[object_path a_repo hello_address := File short_frame]>
    (<[object_dir a_repo hello_address := Dir]> ∅).

(** A store with the directory of the address and no object in it. *)
Definition fanout_only : filesystem :=
  <[object_dir a_repo hello_address := Dir]> ∅.

(** The object round trip on a payload that is no KVLM document.  With
    the tag [commit] and the payload [x] the
    parser's [assert] fails while the record is made; with [tree] and [tag]
    the class names are not bound.  Nothing is written and no address
    comes back. *)
Lemma object_roundtrip_fails :
  ~ stores_and_reads keep_compress keep_decompress 1000 1000 a_repo ∅
      (lit "commit") (lit "x")
  /\ ~ stores_and_reads keep_compress keep_decompress 1000 1000 a_repo ∅
        (lit "tree") (lit "x")
  /\ ~ stores_and_reads keep_compress keep_decompress 1000 1000 a_repo ∅
        (lit "tag") (lit "x").
Proof.
  repeat split; intros (sha & fs' & obj & H & _); vm_compute in H;
    discriminate.
Qed.

Lemma blob_store_roundtrip_witness :
  stores_and_reads keep_compress keep_decompress 0 0 a_repo ∅
    (lit "blob") hello.
Proof.
  apply (blob_store_roundtrip keep_compress keep_decompress 0 0 a_repo ∅ hello).
  - intros x. reflexivity.
  - apply path_clear_empty.
  - left. apply lookup_empty.
Defined.

(** A frame whose length field has 4301 digits. *)
Definition long_frame : bytes :=
  lit "blob" ++ Py.SP :: Py.str (10 ^ 4300) ++ Py.NUL :: lit "x".

Definition long_store : filesystem :=
  <[object_path a_repo hello_address := File long_frame]>
    (<[object_dir a_repo hello_address := Dir]> ∅).

Lemma object_read_length_check_witness :
  object_read_limited keep_decompress 0 0 Py.int_max_str_digits a_repo
    hello_address short_store
  = Some (Raise (Exception ("Malformed object " ++ hello_address
                            ++ ": bad length")))
  /\
  object_read_limited keep_decompress 0 0 Py.int_max_str_digits a_repo
    hello_address long_store
  = Some (Raise ValueError).
Proof.
  split.
  - apply (object_read_length_check keep_decompress 0 0 Py.int_max_str_digits
             a_repo hello_address short_store short_frame (lit "blob") 12
             (lit "hello world")).
    + vm_compute. reflexivity.
    + vm_compute. reflexivity.
    + reflexivity.
    + repeat constructor; discriminate.
    + lia.
    + right. vm_compute. discriminate.
    + vm_compute. discriminate.
  - apply (object_read_length_check keep_decompress 0 0 Py.int_max_str_digits
             a_repo hello_address long_store long_frame (lit "blob")
             (10 ^ 4300) (lit "x")).
    + unfold long_store.
      rewrite lookup_insert_ne by (vm_compute; discriminate).
      apply lookup_insert_eq.
    + apply lookup_insert_eq.
    + reflexivity.
    + repeat constructor; discriminate.
    + apply Z.pow_nonneg. lia.
    + split; vm_compute; reflexivity.
Defined.

(** C7, as the claim has it, fails: for an address without a stored file
    [object_read] does not fail with an error.  In a store that has the
    directory of the address and no file in it, the call returns. *)
Lemma object_read_absent_no_error :
  ~ exists e,
      object_read keep_decompress 1000 1000 a_repo hello_address fanout_only
      = Some (Raise e).
Proof. intros [e H]. vm_compute in H. discriminate. Qed.

Lemma object_read_absent_witness :
  object_read keep_decompress 0 0 a_repo hello_address fanout_only
  = Some (Ok None).
Proof.
  apply (object_read_absent keep_decompress 0 0 a_repo hello_address
           fanout_only).
  - vm_compute. reflexivity.
  - vm_compute. reflexivity.
Defined.

(** C10, as the claim has it, fails: not every record gets an address.
    For a [GitBlob] and a [GitCommit] made without data, [GitBlob()] and
    [GitCommit()], [serialize] raises and so does [object_write]. *)
Lemma object_write_without_data :
  object_write keep_compress (GitBlob None) None ∅
  = (Raise AttributeError, ∅)
  /\ object_write keep_compress (GitCommit []) None ∅
     = (Raise KeyError, ∅).
Proof. split; vm_compute; reflexivity. Qed.

Lemma object_write_effects_witness :
  exists rp data,
    Some a_repo = Some rp /\ serialize (GitBlob (Some hello)) = Ok data /\
    object_path a_repo hello_address
    = object_path rp (address (fmt (GitBlob (Some hello))) data) /\
    (∅ : filesystem) !! object_path a_repo hello_address = None /\
    keep_compress (frame (lit "blob") hello)
    = keep_compress (frame (fmt (GitBlob (Some hello))) data).
Proof.
  apply (proj2 (proj2 (object_write_effects keep_compress))
           (GitBlob (Some hello)) (Some a_repo) ∅).
  - vm_compute. reflexivity.
  - rewrite lookup_empty. discriminate.
Defined.

(** * Further properties of the KVLM codec *)

(** X1. The two replacements undo each other in the order the code uses
    them on the way out and back in: for every value, folding its newlines
    into newline-space (line 409) and then replacing newline-space by
    newline (line 383) gives the value back. *)
Theorem replace_fold_then_unfold (v : bytes) :
  Py.replace (Py.replace v [Py.LF] [Py.LF; Py.SP]) [Py.LF; Py.SP] [Py.LF] = v.
Proof. exact (unfold_fold v). Qed.

(** X2. In the other order the replacements undo each other on bytes in
    which every newline is followed by a space, which is what the bytes of a
    field between its key and its closing newline are. *)
Theorem replace_unfold_then_fold (w : bytes) :
  continued w ->
  Py.replace (Py.replace w [Py.LF; Py.SP] [Py.LF]) [Py.LF] [Py.LF; Py.SP] = w.
Proof.
  change (continued w -> fold (unfold w) = w).
  induction 1 as [|c w Hc Hw IH|w Hw IH].
  - reflexivity.
  - rewrite unfold_byte, fold_cons by assumption.
    apply byte_eqb_false in Hc. now rewrite Hc, IH.
  - rewrite unfold_fold_step, fold_cons, byte_eqb_refl. now rewrite IH.
Qed.

Lemma replace_unfold_then_fold_witness :
  Py.replace (Py.replace (lit "a" ++ [Py.LF; Py.SP] ++ lit " b")
                [Py.LF; Py.SP] [Py.LF]) [Py.LF] [Py.LF; Py.SP]
  = lit "a" ++ [Py.LF; Py.SP] ++ lit " b".
Proof.
  apply (replace_unfold_then_fold (lit "a" ++ [Py.LF; Py.SP] ++ lit " b")).
  simpl. repeat (first [ apply continued_nil
                       | apply continued_fold
                       | apply continued_byte; [discriminate|] ]).
Defined.

(** Without the hypothesis the second order fails: a newline that no
    space follows gains one. *)
Lemma replace_unfold_then_fold_bare_newline :
  Py.replace (Py.replace (lit "a" ++ [Py.LF] ++ lit "b")
                [Py.LF; Py.SP] [Py.LF]) [Py.LF] [Py.LF; Py.SP]
  = lit "a" ++ [Py.LF; Py.SP] ++ lit "b".
Proof. reflexivity. Qed.

Lemma get_set_same (k : key) (x : value) (d : odict) :
  Dict.get k (Dict.set k x d) = Some x.
Proof.
  induction d as [|[k' y] d IH]; simpl.
  - now rewrite key_eqb_refl.
  - destruct (key_eqb k k') eqn:E; simpl; rewrite E; [reflexivity | exact IH].
Qed.

Lemma get_set_other (k k' : key) (x : value) (d : odict) :
  k <> k' -> Dict.get k' (Dict.set k x d) = Dict.get k' d.
Proof.
  intros Hne. induction d as [|[k0 y] d IH]; simpl.
  - destruct (key_eqb k' k) eqn:E; [|reflexivity].
    apply key_eqb_true in E. congruence.
  - destruct (key_eqb k k0) eqn:E; simpl.
    + apply key_eqb_true in E. subst k0.
      destruct (key_eqb k' k) eqn:E'; [|reflexivity].
      apply key_eqb_true in E'. congruence.
    + now rewrite IH.
Qed.

(** The message of a parsed document is what follows a newline of the
    input. *)
Lemma kvlm_parse_message_suffix fuel (raw : bytes) :
  forall depth start dct d,
    0 <= start ->
    kvlm_parse depth fuel raw start (Some dct) = Some (Ok d) ->
    exists pre m, raw = pre ++ Py.LF :: m /\ Dict.get None d = Some (Single m).
Proof.
  induction depth as [|depth IH]; intros start dct d Hstart; [discriminate|].
  rewrite kvlm_parse_unfold. cbv zeta.
  destruct ((Py.find raw Py.SP start <? 0)
            || (Py.find raw Py.LF start <? Py.find raw Py.SP start)).
  - destruct (Z.eqb_spec (Py.find raw Py.LF start) start) as [Enl|];
      [|discriminate].
    intros [= <-].
    destruct (find_split raw Py.LF start start Hstart Enl Hstart)
      as (pre & a & post & Eraw & Hpre & _ & Ha).
    assert (a = []) as -> by (destruct a; [reflexivity | rewrite len_cons in Ha;
                                pose proof (len_nonneg a); lia]).
    simpl in Eraw. exists pre, post. split; [assumption|].
    rewrite get_set_same. do 2 f_equal.
    rewrite Eraw, <- Hpre.
    replace (pre ++ Py.LF :: post) with ((pre ++ [Py.LF]) ++ post) by app_eq.
    replace (Py.len pre + 1) with (Py.len (pre ++ [Py.LF]))
      by (rewrite len_app, len_cons, len_nil; lia).
    apply slice_from_app.
  - destruct (value_end fuel raw start) as [[e|x]|] eqn:Hend; try discriminate.
    destruct (value_end_stop _ _ _ _ Hend) as (He & _).
    apply IH. lia.
Qed.

(** X3. What every document that [kvlm_parse] returns looks like: headers
    followed by exactly one message entry, which comes last and holds the
    bytes after some newline of the input; the header keys are distinct and
    hold neither a space nor a newline; a key that occurred once holds one
    value, a key that occurred more often a list of two values or more; and
    only the first header can have the empty key. *)
Theorem kvlm_parse_document_shape depth fuel (raw : bytes) (d : odict) :
  kvlm_parse depth fuel raw 0 None = Some (Ok d) ->
  exists h m pre,
    d = h ++ [(None, Single m)] /\ raw = pre ++ Py.LF :: m /\
    NoDup (Dict.keys h) /\ Forall header_ok h /\ Forall named (tail h).
Proof.
  intros Hparse. rewrite kvlm_parse_None in Hparse.
  destruct (kvlm_parse_wf fuel raw depth 0 [] d) as (h & m & -> & Hwf);
    [lia | repeat split; constructor | now left | assumption |].
  destruct (kvlm_parse_message_suffix fuel raw depth 0 [] _ ltac:(lia) Hparse)
    as (pre & m' & Eraw & Hget).
  destruct Hwf as (Hnd & Hok & Hfirst).
  rewrite get_last in Hget by now apply header_keys_not_None.
  injection Hget as <-.
  exists h, m, pre. repeat split; try assumption.
  destruct h as [|e t]; [constructor | apply Hfirst].
Qed.

Lemma kvlm_parse_document_shape_witness :
  exists h m pre,
    two_parents_doc = h ++ [(None, Single m)] /\
    two_parents = pre ++ Py.LF :: m /\
    NoDup (Dict.keys h) /\ Forall header_ok h /\ Forall named (tail h).
Proof.
  apply (kvlm_parse_document_shape 3 1 two_parents two_parents_doc).
  vm_compute. reflexivity.
Defined.

(** X4. The round trip the code does keep.  For well-formed headers [h]
    and any message [m], [kvlm_serialize] writes some text followed by one
    newline, and [kvlm_parse] of that text, without the last newline, is the
    document again: keys in order, values in order, message as it was. *)
Theorem kvlm_serialize_then_parse (h : odict) (m : bytes) depth fuel :
  wf_headers h ->
  exists text,
    kvlm_serialize (h ++ [(None, Single m)]) = Ok (text ++ [Py.LF]) /\
    kvlm_parse (1 + length text + depth) (1 + length text + fuel) text 0 None
    = Some (Ok (h ++ [(None, Single m)])).
Proof.
  intros Hwf. exists (fields (lines h) ++ Py.LF :: m). split.
  - rewrite kvlm_serialize_doc by assumption. f_equal. app_eq.
  - pose proof (lines_le_fields (lines h)).
    apply kvlm_parse_serialized; [assumption | |];
      rewrite length_app; simpl; lia.
Qed.

Lemma kvlm_serialize_then_parse_witness :
  exists text,
    kvlm_serialize ([(Some (lit "parent"), Multi [lit "a"; lit "b"])]
                    ++ [(None, Single (lit "m"))]) = Ok (text ++ [Py.LF]) /\
    kvlm_parse (1 + length text + 0) (1 + length text + 0) text 0 None
    = Some (Ok ([(Some (lit "parent"), Multi [lit "a"; lit "b"])]
                ++ [(None, Single (lit "m"))])).
Proof.
  apply (kvlm_serialize_then_parse
           [(Some (lit "parent"), Multi [lit "a"; lit "b"])] (lit "m") 0 0).
  repeat split.
  - apply NoDup_singleton.
  - apply Forall_singleton. simpl.
    repeat split; [repeat constructor; discriminate ..| lia].
  - intros [=].
  - constructor.
Defined.

(** ** Header lines in any order *)

(** The values the lines give a key, in the order of the lines. *)
Definition values_of (k : bytes) (kvs : list (bytes * bytes)) : list bytes :=
  List.map snd (List.filter (fun kv => bytes_eqb (fst kv) k) kvs).

(** How the dictionary holds them: nothing, the value, or the list. *)
Definition value_of_list (vs : list bytes) : option value :=
  match vs with
  | [] => None
  | [v] => Some (Single v)
  | _ => Some (Multi vs)
  end.

(** The keys of the lines in the order in which they first occur, those
    in [seen] left out. *)
Fixpoint new_keys (seen : list key) (kvs : list (bytes * bytes)) : list key :=
  match kvs with
  | [] => []
  | kv :: r =>
      if existsb (key_eqb (Some (fst kv))) seen then new_keys seen r
      else Some (fst kv) :: new_keys (seen ++ [Some (fst kv)]) r
  end.

Definition vals_in (d : odict) (k : bytes) : list bytes :=
  match Dict.get (Some k) d with
  | None => []
  | Some val => values val
  end.

Definition shape_ok (d : odict) : Prop :=
  Forall (fun e : key * value =>
            match snd e with
            | Multi vs => (2 <= length vs)%nat
            | Single _ => True
            end) d.

Section Lines.

Implicit Types (k v m : bytes) (d : odict) (kvs : list (bytes * bytes)).

Lemma mem_existsb (k0 : key) d :
  Dict.mem k0 d = existsb (key_eqb k0) (Dict.keys d).
Proof. induction d as [|[k' x] d IH]; simpl; [reflexivity | now rewrite IH]. Qed.

Lemma keys_insert k v d :
  Dict.keys (kvlm_insert k v d)
  = if Dict.mem (Some k) d then Dict.keys d else Dict.keys d ++ [Some k].
Proof.
  unfold kvlm_insert. destruct (Dict.mem (Some k) d) eqn:Hmem.
  - destruct (mem_get _ _ Hmem) as [x ->].
    destruct x; now rewrite set_keys.
  - rewrite set_new by assumption. unfold Dict.keys. now rewrite map_app.
Qed.

Lemma keys_insert_all kvs : forall d,
  Dict.keys (insert_all kvs d) = Dict.keys d ++ new_keys (Dict.keys d) kvs.
Proof.
  induction kvs as [|[k v] kvs IH]; intros d; simpl.
  - now rewrite app_nil_r.
  - change (insert_all ((k, v) :: kvs) d)
      with (insert_all kvs (kvlm_insert k v d)).
    rewrite IH, keys_insert, <- mem_existsb.
    destruct (Dict.mem (Some k) d); [reflexivity | now rewrite <- app_assoc].
Qed.

Lemma vals_insert k v d k' :
  vals_in (kvlm_insert k v d) k'
  = vals_in d k' ++ (if bytes_eqb k k' then [v] else []).
Proof.
  unfold vals_in, kvlm_insert.
  destruct (bytes_eqb k k') eqn:E.
  - apply bytes_eqb_true in E. subst k'.
    destruct (Dict.mem (Some k) d) eqn:Hmem.
    + destruct (mem_get _ _ Hmem) as [x Hx]. rewrite Hx.
      destruct x; now rewrite get_set_same.
    + rewrite get_set_same.
      assert (Dict.get (Some k) d = None) as ->; [|reflexivity].
      destruct (Dict.get (Some k) d) as [x|] eqn:Hx; [|reflexivity].
      apply get_In in Hx. apply mem_false in Hmem. exfalso. apply Hmem.
      change (Some k) with (fst (Some k, x)). now apply in_map.
  - assert (Some k <> Some k') as Hne.
    { intros [= ->]. now rewrite bytes_eqb_refl in E. }
    rewrite app_nil_r.
    destruct (Dict.mem (Some k) d).
    + destruct (Dict.get (Some k) d) as [[v0|vs]|];
        [now rewrite get_set_other .. | reflexivity].
    + now rewrite get_set_other.
Qed.

Lemma vals_insert_all kvs : forall d k,
  vals_in (insert_all kvs d) k = vals_in d k ++ values_of k kvs.
Proof.
  induction kvs as [|[k0 v] kvs IH]; intros d k.
  - unfold values_of. simpl. now rewrite app_nil_r.
  - change (insert_all ((k0, v) :: kvs) d)
      with (insert_all kvs (kvlm_insert k0 v d)).
    rewrite IH, vals_insert. unfold values_of. simpl.
    destruct (bytes_eqb k0 k); simpl; now rewrite <- app_assoc.
Qed.

Lemma shape_insert k v d : shape_ok d -> shape_ok (kvlm_insert k v d).
Proof.
  intros Hd. unfold kvlm_insert.
  destruct (Dict.mem (Some k) d).
  - destruct (Dict.get (Some k) d) as [[v0|vs]|] eqn:Hx; [| |assumption].
    + apply set_Forall; [assumption | simpl; lia].
    + apply set_Forall; [assumption|]. simpl.
      apply get_In in Hx. unfold shape_ok in Hd. rewrite Forall_forall in Hd.
      apply list_elem_of_In, Hd in Hx. simpl in Hx.
      rewrite length_app. simpl. lia.
  - apply set_Forall; [assumption | exact I].
Qed.

Lemma shape_insert_all kvs : forall d, shape_ok d -> shape_ok (insert_all kvs d).
Proof.
  induction kvs as [|[k v] kvs IH]; intros d Hd; [assumption|].
  apply (IH (kvlm_insert k v d)), shape_insert, Hd.
Qed.

Lemma get_by_vals d k :
  shape_ok d -> Dict.get (Some k) d = value_of_list (vals_in d k).
Proof.
  intros Hd. unfold vals_in.
  destruct (Dict.get (Some k) d) as [[v|vs]|] eqn:Hx; [reflexivity | | reflexivity].
  apply get_In in Hx. unfold shape_ok in Hd. rewrite Forall_forall in Hd.
  apply list_elem_of_In, Hd in Hx. simpl in Hx.
  destruct vs as [|v1 [|v2 vs]]; simpl in Hx; try lia. reflexivity.
Qed.

Lemma new_keys_Some seen kvs : Forall (fun k0 : key => k0 <> None) (new_keys seen kvs).
Proof.
  revert seen. induction kvs as [|kv kvs IH]; intros seen; simpl; [constructor|].
  destruct (existsb _ seen); [apply IH|]. constructor; [discriminate | apply IH].
Qed.

(** The parser over header lines, a blank line and a message. *)
Lemma kvlm_parse_lines kvs m depth fuel :
  lines_ok kvs ->
  (length kvs < depth)%nat -> (length (fields kvs) < fuel)%nat ->
  kvlm_parse depth fuel (fields kvs ++ Py.LF :: m) 0 None
  = Some (Ok (Dict.set None (Single m) (insert_all kvs []))).
Proof.
  intros Hok Hdepth Hfuel. rewrite kvlm_parse_None.
  replace depth with (length kvs + S (depth - S (length kvs)))%nat by lia.
  pose proof (kvlm_parse_fields kvs (S (depth - S (length kvs)))
                fuel [] Py.LF m [] Hok) as H.
  simpl app in H. rewrite len_nil in H.
  rewrite H by (first [discriminate | assumption]).
  apply kvlm_parse_message.
Qed.

End Lines.

(** X5. Header lines in any order, keys repeated anywhere.  For lines
    whose keys hold no space or newline (and are not empty after the first
    line), followed by a blank line and a message, the parser returns a
    document in which the keys stand in the order of their first
    occurrence, the message key last; each key holds the values of its
    lines in the order of the lines, as one value if there is one and as a
    list otherwise; and the message is the bytes after the blank line. *)
Theorem kvlm_parse_collects (kvs : list (bytes * bytes)) (m : bytes) depth fuel :
  lines_ok kvs ->
  (length kvs < depth)%nat -> (length (fields kvs) < fuel)%nat ->
  exists d,
    kvlm_parse depth fuel (fields kvs ++ Py.LF :: m) 0 None = Some (Ok d) /\
    Dict.keys d = new_keys [] kvs ++ [None] /\
    (forall k, Dict.get (Some k) d = value_of_list (values_of k kvs)) /\
    Dict.get None d = Some (Single m).
Proof.
  intros Hok Hdepth Hfuel.
  exists (Dict.set None (Single m) (insert_all kvs [])).
  split; [now apply kvlm_parse_lines|].
  assert (Dict.mem None (insert_all kvs []) = false) as Hmem.
  { apply mem_false. rewrite keys_insert_all. simpl. intros Hin.
    pose proof (new_keys_Some [] kvs) as HS. rewrite Forall_forall in HS.
    apply list_elem_of_In in Hin. now apply HS in Hin. }
  split; [|split].
  - rewrite set_new by assumption. unfold Dict.keys. rewrite map_app.
    fold (Dict.keys (insert_all kvs [])). now rewrite keys_insert_all.
  - intros k. rewrite get_set_other by discriminate.
    rewrite get_by_vals by (apply shape_insert_all; constructor).
    now rewrite vals_insert_all.
  - apply get_set_same.
Qed.

(** Three lines, the first key again in the third. *)
Definition interleaved : list (bytes * bytes) :=
  [(lit "a", lit "1"); (lit "b", lit "2"); (lit "a", lit "3")].

Lemma kvlm_parse_collects_witness :
  exists d,
    kvlm_parse 4 20 (fields interleaved ++ Py.LF :: lit "m") 0 None
    = Some (Ok d) /\
    Dict.keys d = new_keys [] interleaved ++ [None] /\
    (forall k, Dict.get (Some k) d = value_of_list (values_of k interleaved)) /\
    Dict.get None d = Some (Single (lit "m")).
Proof.
  apply (kvlm_parse_collects interleaved (lit "m") 4 20).
  - split; repeat constructor; discriminate.
  - simpl. lia.
  - simpl. lia.
Defined.

(** ** Input that ends early, and the depth of the recursion *)

Section EarlyEnd.

Implicit Types (k v m pre rest w : bytes) (c : byte) (dct : odict)
  (kvs : list (bytes * bytes)).

(** The loop on bytes whose newlines are all continued, closed by a
    newline that is the last byte of the input. *)
Lemma value_end_at_end w : continued w ->
  forall fuel pre,
    (length w < fuel)%nat ->
    value_end fuel (pre ++ w ++ [Py.LF]) (Py.len pre - 1)
    = Some (Raise IndexError).
Proof.
  induction 1 as [|c0 w Hc0 Hw IH|w Hw IH]; intros fuel pre Hfuel.
  - destruct fuel as [|fuel]; [simpl in Hfuel; lia|]. simpl.
    replace (Py.len pre - 1 + 1) with (Py.len pre) by lia.
    rewrite find_app. simpl.
    replace (Py.len pre + 1) with (Py.len (pre ++ [Py.LF]))
      by (rewrite len_app, len_cons, len_nil; lia).
    now rewrite getitem_end.
  - simpl app. rewrite value_end_shift by assumption.
    simpl in Hfuel. apply IH. lia.
  - destruct fuel as [|fuel]; [simpl in Hfuel; lia|]. simpl.
    replace (Py.len pre - 1 + 1) with (Py.len pre) by lia.
    rewrite find_app. simpl. rewrite getitem_app_cons. simpl.
    replace (Py.len pre) with (Py.len (pre ++ [Py.LF]) - 1)
      by (rewrite len_app, len_cons, len_nil; lia).
    replace (pre ++ Py.LF :: Py.SP :: w ++ [Py.LF])
      with ((pre ++ [Py.LF]) ++ Py.SP :: w ++ [Py.LF]) by app_eq.
    rewrite value_end_shift by discriminate.
    simpl in Hfuel. apply IH. lia.
Qed.

(** The parser at the start of a field with which the input ends. *)
Lemma kvlm_parse_field_last depth fuel pre k v dct :
  Forall (fun x => x <> Py.SP) k ->
  Forall (fun x => x <> Py.LF) k ->
  (length (field k v) < fuel)%nat ->
  kvlm_parse (S depth) fuel (pre ++ field k v) (Py.len pre) (Some dct)
  = Some (Raise IndexError).
Proof.
  intros Hsp Hlf Hfuel.
  pose proof (len_nonneg pre) as Hpre. pose proof (len_nonneg k) as Hk.
  rewrite kvlm_parse_unfold. cbv zeta.
  assert (Py.find (pre ++ field k v) Py.SP (Py.len pre)
          = Py.len pre + Py.len k) as Espc.
  { rewrite find_app. unfold field. now rewrite find_at_hit. }
  assert (Py.len pre + Py.len k
          <= Py.find (pre ++ field k v) Py.LF (Py.len pre)) as Enl.
  { rewrite find_app. unfold field.
    rewrite find_at_skip by assumption. simpl.
    pose proof (find_at_found Py.LF (fold v ++ [Py.LF])
                  (Py.len pre + Py.len k + 1) ltac:(lia)) as Hf.
    assert (In Py.LF (fold v ++ [Py.LF])) as Hin
        by (apply in_or_app; right; now left).
    specialize (Hf Hin). lia. }
  rewrite Espc. zbool. simpl orb. cbv iota.
  assert (value_end fuel (pre ++ field k v) (Py.len pre)
          = Some (Raise IndexError)) as ->; [|reflexivity].
  assert (exists b0 w, k ++ Py.SP :: fold v = b0 :: w /\ b0 <> Py.LF
                       /\ continued w) as (b0 & w & Ew & Hb0 & Hw).
  { destruct k as [|k0 k'].
    - exists Py.SP, (fold v). repeat split; [discriminate | apply fold_continued].
    - exists k0, (k' ++ Py.SP :: fold v). inversion Hlf; subst.
      repeat split; [assumption|].
      apply continued_app; [assumption|].
      constructor; [discriminate | apply fold_continued]. }
  replace (pre ++ field k v) with ((pre ++ [b0]) ++ w ++ [Py.LF]).
  2:{ unfold field. rewrite <- !app_assoc. f_equal.
      change ([b0] ++ w ++ [Py.LF]) with ((b0 :: w) ++ [Py.LF]).
      rewrite <- Ew. app_eq. }
  replace (Py.len pre) with (Py.len (pre ++ [b0]) - 1)
    by (rewrite len_app, len_cons, len_nil; lia).
  apply value_end_at_end; [assumption|].
  unfold field in Hfuel. apply (f_equal (@length byte)) in Ew.
  rewrite !length_app in Hfuel. simpl in Hfuel, Ew.
  rewrite length_app in Hfuel, Ew. simpl in Hfuel, Ew. lia.
Qed.

Lemma lines_ok_app kvs1 kvs2 :
  lines_ok (kvs1 ++ kvs2) ->
  lines_ok kvs1 /\
  (kvs1 <> [] -> Forall (fun kv : bytes * bytes => fst kv <> []) kvs2) /\
  Forall (fun kv : bytes * bytes =>
            Forall (fun x => x <> Py.SP) (fst kv) /\
            Forall (fun x => x <> Py.LF) (fst kv)) kvs2.
Proof.
  intros [Hk Hne]. apply Forall_app in Hk as [Hk1 Hk2].
  destruct kvs1 as [|kv kvs1]; simpl in *.
  - repeat split; [constructor | constructor | easy | assumption].
  - apply Forall_app in Hne as [Hne1 Hne2].
    split; [split; assumption|]. split; [intros _|]; assumption.
Qed.

End EarlyEnd.

(** X6. Header lines with nothing after them: when the input ends with
    the newline of its last header line, with no blank line and no message,
    the parser does not return a document and does not fail its own check:
    the look at the byte after the last newline raises [IndexError]. *)
Theorem kvlm_parse_headers_only (kvs : list (bytes * bytes)) depth fuel :
  kvs <> [] -> lines_ok kvs ->
  (length kvs <= depth)%nat -> (length (fields kvs) < fuel)%nat ->
  kvlm_parse depth fuel (fields kvs) 0 None = Some (Raise IndexError).
Proof.
  intros Hne Hok Hdepth Hfuel.
  destruct (exists_last Hne) as (kvs' & [k v] & ->).
  rewrite fields_app in *. simpl fields in *. rewrite app_nil_r in *.
  rewrite length_app in Hdepth, Hfuel. simpl in Hdepth.
  destruct (lines_ok_app _ _ Hok) as (Hok' & Hk & Hkv).
  apply Forall_singleton in Hkv as [Hsp Hlf]. simpl in Hsp, Hlf.
  rewrite kvlm_parse_None.
  replace depth with (length kvs' + S (depth - S (length kvs')))%nat by lia.
  destruct kvs' as [|kv0 kvs0].
  - simpl. apply (kvlm_parse_field_last _ fuel [] k v []); [assumption ..| lia].
  - specialize (Hk ltac:(discriminate)). apply Forall_inv in Hk.
    simpl in Hk. remember (kv0 :: kvs0) as kvs' eqn:Ekvs. clear Ekvs.
    assert (exists c rest, field k v = c :: rest /\ c <> Py.SP)
      as (c & rest & E & Hc).
    { destruct k as [|k0 k']; [easy|]. apply Forall_cons in Hsp as [Hk0 _].
      unfold field. simpl. eauto. }
    pose proof (kvlm_parse_fields kvs' (S (depth - S (length kvs'))) fuel
                  [] c rest [] Hok' Hc ltac:(lia)) as H.
    simpl app in H. rewrite len_nil in H. rewrite <- E in H.
    rewrite H. apply kvlm_parse_field_last; [assumption ..| lia].
Qed.

Lemma kvlm_parse_headers_only_witness :
  kvlm_parse 3 20 (fields interleaved) 0 None = Some (Raise IndexError).
Proof.
  apply (kvlm_parse_headers_only interleaved 3 20).
  - discriminate.
  - split; repeat constructor; discriminate.
  - simpl. lia.
  - simpl. lia.
Defined.

(** X7. One frame for each header line.  The parser calls itself once
    for every header line, so a document with as many header lines as the
    interpreter allows frames, or more, is not parsed: the call raises
    [RecursionError], whatever follows the lines.  (With one frame more the
    document is returned, X5.) *)
Theorem kvlm_parse_recursion_limit (kvs : list (bytes * bytes)) (m : bytes)
    depth fuel :
  lines_ok kvs ->
  (depth <= length kvs)%nat -> (length (fields kvs) < fuel)%nat ->
  kvlm_parse depth fuel (fields kvs ++ Py.LF :: m) 0 None
  = Some (Raise RecursionError).
Proof.
  intros Hok Hdepth Hfuel. rewrite kvlm_parse_None.
  destruct depth as [|depth']; [reflexivity|]. set (depth := S depth') in *.
  rewrite <- (take_drop depth kvs) in Hok |- *.
  destruct (lines_ok_app _ _ Hok) as (Hok1 & Hne2 & Hk2).
  assert (length (take depth kvs) = depth) as Hlen
      by (rewrite length_take; lia).
  assert (take depth kvs <> []) as Hne1.
  { intros E. rewrite E in Hlen. discriminate. }
  specialize (Hne2 Hne1).
  destruct (fields_head (drop depth kvs) Py.LF m) as (c & rest & E & Hc);
    [eapply Forall_impl; [exact Hk2|]; now intros ? [? _]
    | assumption | discriminate |].
  rewrite fields_app, <- app_assoc, E.
  pose proof (kvlm_parse_fields (take depth kvs) 0 fuel [] c rest [] Hok1 Hc)
    as H.
  rewrite Hlen, Nat.add_0_r in H. simpl app in H. rewrite len_nil in H.
  rewrite H; [reflexivity|].
  rewrite <- (take_drop depth kvs), fields_app, length_app in Hfuel. lia.
Qed.

Lemma kvlm_parse_recursion_limit_witness :
  kvlm_parse 3 20 (fields interleaved ++ Py.LF :: lit "m") 0 None
  = Some (Raise RecursionError).
Proof.
  apply (kvlm_parse_recursion_limit interleaved (lit "m") 3 20).
  - split; repeat constructor; discriminate.
  - simpl. lia.
  - simpl. lia.
Defined.

(** ** When the parser comes to an end *)

Section Returns.

Implicit Types (raw : bytes) (c : byte) (e start : Z) (dct : odict).

Lemma find_range raw c s :
  0 <= s ->
  Py.find raw c s = -1 \/ (s <= Py.find raw c s /\ Py.find raw c s < Py.len raw).
Proof.
  intros Hs. pose proof (find_lower raw c s) as Hl.
  destruct (Z.eq_dec (Py.find raw c s) (-1)) as [E|E]; [now left | right].
  destruct (find_split raw c s _ Hs eq_refl ltac:(lia))
    as (pre & a & post & Eraw & Hpre & _ & ->).
  pose proof (len_nonneg a). pose proof (len_nonneg post).
  rewrite Eraw, !len_app, len_cons. lia.
Qed.

(** Where the input does not begin with a space, the loop leaves within
    as many iterations as the input has bytes. *)
Lemma value_end_returns raw :
  (forall c, Py.getitem raw 0 = Ok c -> c <> Py.SP) ->
  forall fuel e,
    -1 <= e <= Py.len raw -> Py.len raw - e < Z.of_nat fuel ->
    exists r, value_end fuel raw e = Some r.
Proof.
  intros Hhead. induction fuel as [|fuel IH]; intros e He Hfuel; [lia|].
  simpl.
  destruct (Py.getitem raw (Py.find raw Py.LF (e + 1) + 1)) as [c|x] eqn:G;
    [|eauto].
  destruct (Byte.eqb c Py.SP) eqn:E; [|eauto].
  apply byte_eqb_true in E. subst c.
  destruct (find_range raw Py.LF (e + 1) ltac:(lia)) as [Hm|[Hlo Hhi]].
  - rewrite Hm in G. simpl in G. now apply Hhead in G.
  - apply IH; lia.
Qed.

Lemma kvlm_parse_returns_from raw fuel :
  (forall c, Py.getitem raw 0 = Ok c -> c <> Py.SP) ->
  Py.len raw + 1 < Z.of_nat fuel ->
  forall depth start dct,
    0 <= start ->
    exists r, kvlm_parse depth fuel raw start (Some dct) = Some r.
Proof.
  intros Hhead Hfuel. induction depth as [|depth IH]; intros start dct Hstart.
  - simpl. eauto.
  - rewrite kvlm_parse_unfold. cbv zeta.
    destruct ((Py.find raw Py.SP start <? 0)
              || (Py.find raw Py.LF start <? Py.find raw Py.SP start)) eqn:Hb.
    + destruct (Py.find raw Py.LF start =? start); eauto.
    + apply orb_false_iff in Hb as [Hspc _]. apply Z.ltb_ge in Hspc.
      destruct (find_range raw Py.SP start Hstart) as [Hm|[Hlo Hhi]]; [lia|].
      destruct (value_end_returns raw Hhead fuel start) as [[e|x] Hr];
        [lia | lia | | rewrite Hr; eauto].
      rewrite Hr. destruct (value_end_stop _ _ _ _ Hr) as [He _].
      apply IH. lia.
Qed.

End Returns.

(** X8. Where the parser does come to an end.  On input that is empty
    or begins with a byte other than a space, the loop that looks for the
    end of a value leaves within as many iterations as the input has bytes,
    and the parser returns a document or raises, whatever the recursion
    limit.  The loop that never ends (C9) needs an input that begins with
    a space. *)
Theorem kvlm_parse_returns (raw : bytes) depth fuel :
  match raw with
  | c :: _ => c <> Py.SP
  | [] => True
  end ->
  (length raw + 1 < fuel)%nat ->
  exists r, kvlm_parse depth fuel raw 0 None = Some r.
Proof.
  intros Hhead Hfuel. rewrite kvlm_parse_None.
  apply kvlm_parse_returns_from; [| unfold Py.len; lia | lia].
  intros c. destruct raw as [|c0 raw]; [discriminate|].
  pose proof (getitem_app [] c0 raw) as G.
  change (Py.getitem (c0 :: raw) 0 = Ok c0) in G.
  rewrite G. intros [= <-]. assumption.
Qed.

Lemma kvlm_parse_returns_witness :
  exists r, kvlm_parse 2 9 (lit "a b" ++ [Py.LF] ++ lit " c") 0 None = Some r.
Proof.
  apply (kvlm_parse_returns (lit "a b" ++ [Py.LF] ++ lit " c") 2 9).
  - discriminate.
  - simpl. lia.
Defined.

(** * Further properties of the object store *)

Section Framing.

Implicit Types (tag data a r : bytes) (c : byte).

(** Two lists cut at the first occurrence of a byte are cut alike. *)
Lemma split_at_first c a : forall a' r r',
  Forall (fun x => x <> c) a -> Forall (fun x => x <> c) a' ->
  a ++ c :: r = a' ++ c :: r' -> a = a' /\ r = r'.
Proof.
  induction a as [|x a IH]; intros a' r r' Ha Ha' E.
  - destruct a' as [|x' a']; simpl in E.
    + injection E as ->. auto.
    + injection E as <- _. apply Forall_inv in Ha'. contradiction.
  - destruct a' as [|x' a']; simpl in E.
    + injection E as -> _. apply Forall_inv in Ha. contradiction.
    + injection E as -> E.
      apply Forall_cons in Ha as [_ Ha]. apply Forall_cons in Ha' as [_ Ha'].
      destruct (IH a' r r' Ha Ha' E) as [-> ->]. auto.
Qed.

End Framing.

(** X9. The framing is unambiguous: two objects whose type tags hold no
    space (as the four tags do not) get the same frame, the bytes that are
    hashed and stored, only if they have the same tag and the same
    payload. *)
Theorem frame_injective (tag tag' data data' : bytes) :
  Forall (fun x => x <> Py.SP) tag -> Forall (fun x => x <> Py.SP) tag' ->
  frame tag data = frame tag' data' -> tag = tag' /\ data = data'.
Proof.
  intros Ht Ht' E. rewrite !frame_parts in E.
  destruct (split_at_first Py.SP tag tag' _ _ Ht Ht' E) as [-> E'].
  split; [reflexivity|].
  apply (split_at_first Py.NUL) in E' as [_ Ed];
    [assumption | apply str_no_NUL, len_nonneg ..].
Qed.

Lemma frame_injective_witness :
  lit "blob" = lit "blob" /\ hello = hello.
Proof.
  apply (frame_injective (lit "blob") (lit "blob") hello hello).
  - repeat constructor; discriminate.
  - repeat constructor; discriminate.
  - reflexivity.
Defined.

Section StoreMore.

Variable zc : bytes -> bytes.
Variable zd : bytes -> option bytes.
Variables (depth fuel : nat).

Implicit Types (fs : filesystem) (repo : GitRepository) (sha : string)
  (obj : GitObject) (data tag payload : bytes).

(** X10. Writing is idempotent.  Into a store in which no regular file
    is in the way of the object's directory, [object_write] returns the
    address, and a second write of the same object returns the same address
    and leaves the file system as the first write left it. *)
Theorem object_write_twice obj data repo fs :
  serialize obj = Ok data ->
  path_clear fs (object_dir repo (address (fmt obj) data)) ->
  exists fs',
    object_write zc obj (Some repo) fs = (Ok (address (fmt obj) data), fs') /\
    object_write zc obj (Some repo) fs' = (Ok (address (fmt obj) data), fs').
Proof.
  intros Hser Hclear.
  destruct (object_write_stored zc obj data repo fs Hser Hclear)
    as (fs' & Hw & Hdir & Hp).
  exists fs'. split; [assumption|].
  unfold object_write. rewrite Hser.
  fold (address (fmt obj) data). set (sha := address (fmt obj) data) in *.
  unfold repo_file, repo_dir, Os.exists_, Os.isdir. simpl removelast.
  fold (object_dir repo sha). rewrite Hdir. fold (object_path repo sha).
  rewrite Hp. now destruct (fs !! object_path repo sha).
Qed.

(** X11. [object_write] never removes or changes what is in the store:
    whatever the object, with or without a repository, and also when the
    call raises, every directory and every file that was there before is
    there afterwards with the same content.  In particular a file that is
    already at the path of the address is not written again, even if its
    content is not this object. *)
Theorem object_write_keeps_entries obj (given : option GitRepository) fs
    (p : path) (x : node) :
  fs !! p = Some x -> snd (object_write zc obj given fs) !! p = Some x.
Proof.
  intros Hp. unfold object_write.
  destruct (serialize obj) as [data|e]; [|assumption].
  fold (address (fmt obj) data). set (sha := address (fmt obj) data).
  destruct given as [rp|]; [|assumption].
  destruct (repo_file rp ["objects"%string; sha_dir sha; sha_file sha] true fs)
    as [r fs1] eqn:Hrf.
  destruct (repo_file_mkdir_path rp sha fs r fs1 Hrf) as [Hadd Hsame].
  assert (fs1 !! p = Some x) as Hp1.
  { destruct (Hadd p) as [E|[E _]]; congruence. }
  destruct r as [[q|]|e]; [|assumption ..].
  unfold Os.exists_. destruct (fs1 !! q) as [y|] eqn:Hq; simpl negb; cbv iota;
    [assumption|].
  unfold Os.write. rewrite Hq.
  assert (q <> p) as Hne by congruence.
  destruct (removelast q) as [|s l]; simpl.
  - now rewrite lookup_insert_ne.
  - destruct (fs1 !! (s :: l)) as [[|c]|]; simpl;
      [now rewrite lookup_insert_ne | assumption ..].
Qed.

(** X12. A stored frame whose length field is right and whose type tag
    is none of [commit], [tree], [tag], [blob] is refused with the
    exception [Unknown type .. for object ..], the tag being ASCII. *)
Theorem object_read_unknown_type repo sha fs c tag payload name :
  fs !! object_dir repo sha = Some Dir ->
  fs !! object_path repo sha = Some (File c) ->
  zd c = Some (frame tag payload) ->
  Forall (fun x => x <> Py.SP) tag ->
  class_of_fmt tag = None ->
  decode_ascii tag = Ok name ->
  object_read zd depth fuel repo sha fs
  = Some (Raise (Exception ("Unknown type " ++ name ++ " for object " ++ sha))).
Proof.
  intros Hdir Hfile Hz Htag Hcls Hname.
  rewrite (object_read_file zd depth fuel repo sha fs c _ Hdir Hfile Hz).
  rewrite frame_parts, object_parse_frame by (first [assumption | apply len_nonneg]).
  now rewrite Z.eqb_refl, Hcls, Hname.
Qed.

(** X13. A stored frame of type [tree] or [tag] cannot be read, however
    well formed: the classes [GitTree] and [GitTag] that [object_read]
    names are bound nowhere in the module, and the call raises
    [NameError]. *)
Theorem object_read_tree_or_tag repo sha fs c tag payload :
  fs !! object_dir repo sha = Some Dir ->
  fs !! object_path repo sha = Some (File c) ->
  zd c = Some (frame tag payload) ->
  tag = lit "tree" \/ tag = lit "tag" ->
  exists name,
    object_read zd depth fuel repo sha fs = Some (Raise (NameError name)).
Proof.
  intros Hdir Hfile Hz Htag.
  rewrite (object_read_file zd depth fuel repo sha fs c _ Hdir Hfile Hz).
  rewrite frame_parts, object_parse_frame;
    [| destruct Htag as [-> | ->]; repeat constructor; discriminate
     | apply len_nonneg].
  rewrite Z.eqb_refl. destruct Htag as [-> | ->]; simpl; eauto.
Qed.

(** X14. An address whose two-character directory is not in the store:
    [repo_file] falls off its end and returns [None], on which
    [os.path.isfile] is called, and [object_read] raises [TypeError]; it
    does not return [None] as it does for a missing file in a directory
    that is there. *)
Theorem object_read_missing_directory repo sha fs :
  Os.exists_ fs (object_dir repo sha) = false ->
  object_read zd depth fuel repo sha fs = Some (Raise TypeError).
Proof.
  intros Hdir. unfold Os.exists_ in Hdir. unfold object_read, object_read_limited.
  rewrite repo_file_lookup.
  destruct (fs !! object_dir repo sha); [discriminate | reflexivity].
Qed.

(** X15. The address does not depend on the repository: when a write
    into a repository returns an address, the write without a repository
    ([hash-object] without [-w]) returns the same address and touches
    nothing. *)
Theorem object_write_dry_run obj repo fs sha fs' :
  object_write zc obj (Some repo) fs = (Ok sha, fs') ->
  object_write zc obj None fs = (Ok sha, fs).
Proof.
  unfold object_write. destruct (serialize obj) as [data|e]; [|discriminate].
  destruct (repo_file repo _ true fs) as [[[q|]|e] fs1]; try discriminate.
  destruct (negb (Os.exists_ fs1 q)).
  - destruct (Os.write q _ fs1); [|discriminate]. now intros [= <- _].
  - now intros [= <- _].
Qed.

End StoreMore.

(** A store with a frame of a type the module does not know, and one
    with a tree. *)
Definition store_of (raw : bytes) : filesystem :=
  <[object_path a_repo hello_address := File raw]>
    (<[object_dir a_repo hello_address := Dir]> ∅).

Lemma object_write_twice_witness :
  exists fs',
    object_write keep_compress (GitBlob (Some hello)) (Some a_repo) ∅
    = (Ok (address (fmt (GitBlob (Some hello))) hello), fs') /\
    object_write keep_compress (GitBlob (Some hello)) (Some a_repo) fs'
    = (Ok (address (fmt (GitBlob (Some hello))) hello), fs').
Proof.
  apply (object_write_twice keep_compress (GitBlob (Some hello)) hello a_repo ∅).
  - reflexivity.
  - apply path_clear_empty.
Defined.

Lemma object_write_keeps_entries_witness :
  snd (object_write keep_compress (GitBlob (Some hello)) (Some a_repo)
         fanout_only) !! object_dir a_repo hello_address = Some Dir.
Proof.
  apply (object_write_keeps_entries keep_compress (GitBlob (Some hello))
           (Some a_repo) fanout_only).
  vm_compute. reflexivity.
Defined.

Lemma object_read_unknown_type_witness :
  object_read keep_decompress 0 0 a_repo hello_address
    (store_of (frame (lit "blub") (lit "x")))
  = Some (Raise (Exception ("Unknown type " ++ "blub" ++ " for object "
                            ++ hello_address))).
Proof.
  apply (object_read_unknown_type keep_decompress 0 0 a_repo hello_address
           (store_of (frame (lit "blub") (lit "x")))
           (frame (lit "blub") (lit "x")) (lit "blub") (lit "x")).
  - vm_compute. reflexivity.
  - vm_compute. reflexivity.
  - reflexivity.
  - repeat constructor; discriminate.
  - reflexivity.
  - reflexivity.
Defined.

Lemma object_read_tree_or_tag_witness :
  exists name,
    object_read keep_decompress 0 0 a_repo hello_address
      (store_of (frame (lit "tree") (lit "x")))
    = Some (Raise (NameError name)).
Proof.
  apply (object_read_tree_or_tag keep_decompress 0 0 a_repo hello_address
           (store_of (frame (lit "tree") (lit "x")))
           (frame (lit "tree") (lit "x")) (lit "tree") (lit "x")).
  - vm_compute. reflexivity.
  - vm_compute. reflexivity.
  - reflexivity.
  - now left.
Defined.

Lemma object_read_missing_directory_witness :
  object_read keep_decompress 0 0 a_repo hello_address ∅
  = Some (Raise TypeError).
Proof.
  apply (object_read_missing_directory keep_decompress 0 0 a_repo
           hello_address ∅).
  reflexivity.
Defined.

Lemma object_write_dry_run_witness :
  object_write keep_compress (GitBlob (Some hello)) None ∅
  = (Ok hello_address, ∅).
Proof.
  apply (object_write_dry_run keep_compress (GitBlob (Some hello)) a_repo ∅
           hello_address
           (snd (object_write keep_compress (GitBlob (Some hello))
                   (Some a_repo) ∅))).
  vm_compute. reflexivity.
Defined.

(** * [cat_file] *)

(** [object_find(repo, name, fmt, follow)] *)
Definition object_find (repo : GitRepository) (name : string)
    (f : option bytes) (follow : bool) : string :=
  name.

(** [cat_file(repo, obj, fmt)]: the bytes it writes to standard output.
    On the [None] that [object_read] returns for a missing file,
    [obj.serialize()] raises [AttributeError]. *)
Definition cat_file (zd : bytes -> option bytes) (depth fuel : nat)
    (repo : GitRepository) (obj : string) (f : option bytes)
    (fs : filesystem) : option (result bytes) :=
  match object_read zd depth fuel repo (object_find repo obj f true) fs with
  | None => None
  | Some (Raise e) => Some (Raise e)
  | Some (Ok None) => Some (Raise AttributeError)
  | Some (Ok (Some o)) => Some (serialize o)
  end.

Lemma class_of_fmt_commit : class_of_fmt (lit "commit") = Some cGitCommit.
Proof. reflexivity. Qed.

Section CatFile.

Variable zc : bytes -> bytes.
Variable zd : bytes -> option bytes.
Variables (depth fuel : nat).
Hypothesis zlib_inverse : forall x, zd (zc x) = Some x.

Implicit Types (fs : filesystem) (repo : GitRepository) (sha : string)
  (data m : bytes) (h : odict).

(** Reading an object back after it was written into a store that did not
    have it. *)
Lemma object_read_written obj data repo fs :
  serialize obj = Ok data ->
  path_clear fs (object_dir repo (address (fmt obj) data)) ->
  fs !! object_path repo (address (fmt obj) data) = None ->
  exists fs',
    object_write zc obj (Some repo) fs = (Ok (address (fmt obj) data), fs') /\
    object_read zd depth fuel repo (address (fmt obj) data) fs'
    = match construct depth fuel
              match obj with
              | GitBlob _ => cGitBlob
              | GitCommit _ => cGitCommit
              end data
      with
      | None => None
      | Some (Ok o) => Some (Ok (Some o))
      | Some (Raise e) => Some (Raise e)
      end.
Proof.
  intros Hser Hclear Hnone.
  destruct (object_write_stored zc obj data repo fs Hser Hclear)
    as (fs' & Hw & Hdir & Hp).
  rewrite Hnone in Hp. exists fs'. split; [assumption|].
  rewrite (object_read_file zd depth fuel repo _ fs' _ _ Hdir Hp
             (zlib_inverse _)).
  rewrite frame_parts, object_parse_frame
    by (first [apply fmt_no_space | apply len_nonneg]).
  rewrite Z.eqb_refl. destruct obj; reflexivity.
Qed.

(** X16. [hash-object -w] of a blob and then [cat-file]: the bytes
    printed are the bytes hashed, whichever type is named to [cat_file],
    which does not look at it. *)
Theorem cat_file_after_write repo fs data (f : option bytes) :
  path_clear fs (object_dir repo (address (lit "blob") data)) ->
  fs !! object_path repo (address (lit "blob") data) = None ->
  exists sha fs',
    object_hash zc depth fuel data (lit "blob") (Some repo) fs
    = Some (Ok sha, fs') /\
    cat_file zd depth fuel repo sha f fs' = Some (Ok data).
Proof.
  intros Hclear Hnone.
  destruct (object_read_written (GitBlob (Some data)) data repo fs
              eq_refl Hclear Hnone) as (fs' & Hw & Hr).
  exists (address (lit "blob") data), fs'. split.
  - unfold object_hash. rewrite class_of_fmt_blob.
    unfold construct, new_GitBlob. now rewrite Hw.
  - unfold cat_file, object_find.
    change (fmt (GitBlob (Some data))) with (lit "blob") in Hr.
    rewrite Hr. reflexivity.
Qed.

(** X17. [cat_file] of an object that is not in the store, its
    two-character directory being there: [object_read] returns [None], and
    the call of [serialize] on it raises [AttributeError]. *)
Theorem cat_file_missing repo sha (f : option bytes) fs :
  Os.isdir fs (object_dir repo sha) = true ->
  Os.isfile fs (object_path repo sha) = false ->
  cat_file zd depth fuel repo sha f fs = Some (Raise AttributeError).
Proof.
  intros Hdir Hfile. unfold cat_file, object_find, object_read, object_read_limited.
  rewrite repo_file_lookup. unfold Os.isdir in Hdir.
  destruct (fs !! object_dir repo sha) as [[|c]|]; try discriminate.
  cbv beta iota delta [fst]. now rewrite Hfile.
Qed.

(** X18. A commit through the store.  Let the text be well-formed
    headers, a blank line and a message.  [hash-object -t commit -w] parses
    it and stores what [kvlm_serialize] makes of the document, which is the
    text and one more newline: the address returned is that of the longer
    payload.  [cat-file] parses the stored payload and serializes again:
    it prints the text and two more newlines. *)
Theorem commit_through_store repo fs h m :
  wf_headers h ->
  (length (fields (lines h) ++ Py.LF :: m) + 1 < depth)%nat ->
  (length (fields (lines h) ++ Py.LF :: m) + 1 < fuel)%nat ->
  path_clear fs
    (object_dir repo
       (address (lit "commit") ((fields (lines h) ++ Py.LF :: m) ++ [Py.LF]))) ->
  fs !! object_path repo
          (address (lit "commit") ((fields (lines h) ++ Py.LF :: m) ++ [Py.LF]))
  = None ->
  exists fs',
    object_hash zc depth fuel (fields (lines h) ++ Py.LF :: m) (lit "commit")
      (Some repo) fs
    = Some (Ok (address (lit "commit")
                  ((fields (lines h) ++ Py.LF :: m) ++ [Py.LF])), fs') /\
    cat_file zd depth fuel repo
      (address (lit "commit") ((fields (lines h) ++ Py.LF :: m) ++ [Py.LF]))
      None fs'
    = Some (Ok ((fields (lines h) ++ Py.LF :: m) ++ [Py.LF; Py.LF])).
Proof.
  intros Hwf Hdepth Hfuel Hclear Hnone.
  set (text := fields (lines h) ++ Py.LF :: m) in *.
  pose proof (lines_le_fields (lines h)) as Hle.
  assert (length (fields (lines h)) < length text)%nat as Hlen
      by (unfold text; rewrite length_app; simpl; lia).
  assert (text ++ [Py.LF] = fields (lines h) ++ Py.LF :: (m ++ [Py.LF])) as Etext
      by (unfold text; app_eq).
  assert (serialize (GitCommit (h ++ [(None, Single m)]))
          = Ok (text ++ [Py.LF])) as Hser.
  { simpl. rewrite kvlm_serialize_doc by assumption. now rewrite Etext. }
  destruct (object_read_written (GitCommit (h ++ [(None, Single m)]))
              (text ++ [Py.LF]) repo fs Hser Hclear Hnone) as (fs' & Hw & Hr).
  change (fmt (GitCommit (h ++ [(None, Single m)]))) with (lit "commit")
    in Hw, Hr.
  exists fs'. split.
  - unfold object_hash. rewrite class_of_fmt_commit.
    unfold construct, new_GitCommit.
    unfold text at 1. rewrite kvlm_parse_serialized by (first [assumption | lia]).
    now rewrite Hw.
  - unfold cat_file, object_find. rewrite Hr.
    unfold construct, new_GitCommit. rewrite Etext.
    rewrite kvlm_parse_serialized by (first [assumption | lia]).
    simpl serialize. rewrite kvlm_serialize_doc by assumption.
    f_equal. unfold text. app_eq.
Qed.

End CatFile.

Lemma cat_file_after_write_witness :
  exists sha fs',
    object_hash keep_compress 0 0 hello (lit "blob") (Some a_repo) ∅
    = Some (Ok sha, fs') /\
    cat_file keep_decompress 0 0 a_repo sha (Some (lit "commit")) fs'
    = Some (Ok hello).
Proof.
  apply (cat_file_after_write keep_compress keep_decompress 0 0
           (fun x => eq_refl) a_repo ∅ hello (Some (lit "commit"))).
  - apply path_clear_empty.
  - apply lookup_empty.
Defined.

Lemma cat_file_missing_witness :
  cat_file keep_decompress 0 0 a_repo hello_address None fanout_only
  = Some (Raise AttributeError).
Proof.
  apply (cat_file_missing keep_decompress 0 0 a_repo hello_address None
           fanout_only).
  - vm_compute. reflexivity.
  - vm_compute. reflexivity.
Defined.

Lemma commit_through_store_witness :
  exists fs',
    object_hash keep_compress 40 40
      (fields (lines [(Some (lit "tree"), Single (lit "abc"))])
       ++ Py.LF :: lit "msg") (lit "commit") (Some a_repo) ∅
    = Some (Ok (address (lit "commit")
                  ((fields (lines [(Some (lit "tree"), Single (lit "abc"))])
                    ++ Py.LF :: lit "msg") ++ [Py.LF])), fs') /\
    cat_file keep_decompress 40 40 a_repo
      (address (lit "commit")
         ((fields (lines [(Some (lit "tree"), Single (lit "abc"))])
           ++ Py.LF :: lit "msg") ++ [Py.LF]))
      None fs'
    = Some (Ok ((fields (lines [(Some (lit "tree"), Single (lit "abc"))])
                 ++ Py.LF :: lit "msg") ++ [Py.LF; Py.LF])).
Proof.
  apply (commit_through_store keep_compress keep_decompress 40 40
           (fun x => eq_refl) a_repo ∅
           [(Some (lit "tree"), Single (lit "abc"))] (lit "msg")).
  - repeat split.
    + apply NoDup_singleton.
    + apply Forall_singleton. simpl.
      repeat split; repeat constructor; discriminate.
    + intros [=].
    + constructor.
  - simpl. lia.
  - simpl. lia.
  - apply path_clear_empty.
  - apply lookup_empty.
Defined.

(** * The object round trip, as the code has it *)

Section StoreRoundTrip.

Variable zc : bytes -> bytes.
Variable zd : bytes -> option bytes.
Variables (depth fuel : nat).
Hypothesis zlib_inverse : forall b : bytes, zd (zc b) = Some b.

Implicit Types (fs : filesystem) (repo : GitRepository) (h : odict)
  (m data : bytes).

(** C3 fails in the code for three of the four tags.  For the tag
    [commit] and every payload that is a commit text (well-formed headers,
    a blank line, a message): the record is made, written and read back,
    and what it serializes to is the payload and two more newlines, not
    the payload; [kvlm_serialize] puts a newline after the message that
    [kvlm_parse] does not take off, once on the way into the store and once
    more on the way out.  For the tags [tree] and [tag] no record is made
    for any payload: the classes [GitTree] and [GitTag], which
    [object_hash] and [object_read] name, are defined nowhere. *)
Theorem object_roundtrip_breaks repo fs h m :
  wf_headers h ->
  (length (fields (lines h) ++ Py.LF :: m) + 1 < depth)%nat ->
  (length (fields (lines h) ++ Py.LF :: m) + 1 < fuel)%nat ->
  path_clear fs
    (object_dir repo
       (address (lit "commit") ((fields (lines h) ++ Py.LF :: m) ++ [Py.LF]))) ->
  fs !! object_path repo
          (address (lit "commit") ((fields (lines h) ++ Py.LF :: m) ++ [Py.LF]))
  = None ->
  (exists sha fs' obj,
      object_hash zc depth fuel (fields (lines h) ++ Py.LF :: m)
        (lit "commit") (Some repo) fs
      = Some (Ok sha, fs') /\
      object_read zd depth fuel repo sha fs' = Some (Ok (Some obj)) /\
      serialize obj
      = Ok ((fields (lines h) ++ Py.LF :: m) ++ [Py.LF; Py.LF])) /\
  ~ stores_and_reads zc zd depth fuel repo fs (lit "commit")
      (fields (lines h) ++ Py.LF :: m) /\
  (forall data,
      object_hash zc depth fuel data (lit "tree") (Some repo) fs
      = Some (Raise (NameError "GitTree"), fs) /\
      object_hash zc depth fuel data (lit "tag") (Some repo) fs
      = Some (Raise (NameError "GitTag"), fs)).
Proof.
  intros Hwf Hdepth Hfuel Hclear Hnone.
  set (text := fields (lines h) ++ Py.LF :: m) in *.
  pose proof (lines_le_fields (lines h)) as Hle.
  assert (length (fields (lines h)) < length text)%nat as Hlen
      by (unfold text; rewrite length_app; simpl; lia).
  assert (text ++ [Py.LF] = fields (lines h) ++ Py.LF :: (m ++ [Py.LF]))
    as Etext by (unfold text; app_eq).
  assert (serialize (GitCommit (h ++ [(None, Single m)]))
          = Ok (text ++ [Py.LF])) as Hser.
  { simpl. rewrite kvlm_serialize_doc by assumption. now rewrite Etext. }
  destruct (object_read_written zc zd depth fuel zlib_inverse
              (GitCommit (h ++ [(None, Single m)]))
              (text ++ [Py.LF]) repo fs Hser Hclear Hnone) as (fs' & Hw & Hr).
  change (fmt (GitCommit (h ++ [(None, Single m)]))) with (lit "commit")
    in Hw, Hr.
  assert (object_hash zc depth fuel text (lit "commit") (Some repo) fs
          = Some (Ok (address (lit "commit") (text ++ [Py.LF])), fs'))
    as Hhash.
  { unfold object_hash. rewrite class_of_fmt_commit.
    unfold construct, new_GitCommit.
    unfold text at 1.
    rewrite kvlm_parse_serialized by (first [assumption | lia]).
    now rewrite Hw. }
  assert (object_read zd depth fuel repo
            (address (lit "commit") (text ++ [Py.LF])) fs'
          = Some (Ok (Some (GitCommit
                              (h ++ [(None, Single (m ++ [Py.LF]))])))))
    as Hread.
  { rewrite Hr. unfold construct, new_GitCommit. rewrite Etext.
    now rewrite kvlm_parse_serialized by (first [assumption | lia]). }
  assert (serialize (GitCommit (h ++ [(None, Single (m ++ [Py.LF]))]))
          = Ok (text ++ [Py.LF; Py.LF])) as Hagain.
  { simpl. rewrite kvlm_serialize_doc by assumption.
    f_equal. unfold text. app_eq. }
  split; [|split].
  - eauto 6.
  - intros (sha & fs'' & obj & H1 & H2 & H3).
    rewrite Hhash in H1. injection H1 as <- <-.
    rewrite Hread in H2. injection H2 as <-.
    rewrite Hagain in H3. injection H3 as H3.
    apply (f_equal (@length byte)) in H3.
    rewrite length_app in H3. simpl in H3. lia.
  - intros data. split; reflexivity.
Qed.

End StoreRoundTrip.

Lemma object_roundtrip_breaks_witness :
  (exists sha fs' obj,
      object_hash keep_compress 40 40
        (fields (lines [(Some (lit "tree"), Single (lit "abc"))])
         ++ Py.LF :: lit "msg") (lit "commit") (Some a_repo) ∅
      = Some (Ok sha, fs') /\
      object_read keep_decompress 40 40 a_repo sha fs'
      = Some (Ok (Some obj)) /\
      serialize obj
      = Ok ((fields (lines [(Some (lit "tree"), Single (lit "abc"))])
             ++ Py.LF :: lit "msg") ++ [Py.LF; Py.LF])) /\
  ~ stores_and_reads keep_compress keep_decompress 40 40 a_repo ∅
      (lit "commit")
      (fields (lines [(Some (lit "tree"), Single (lit "abc"))])
       ++ Py.LF :: lit "msg") /\
  (forall data,
      object_hash keep_compress 40 40 data (lit "tree") (Some a_repo) ∅
      = Some (Raise (NameError "GitTree"), ∅) /\
      object_hash keep_compress 40 40 data (lit "tag") (Some a_repo) ∅
      = Some (Raise (NameError "GitTag"), ∅)).
Proof.
  apply (object_roundtrip_breaks keep_compress keep_decompress 40 40
           (fun x => eq_refl) a_repo ∅
           [(Some (lit "tree"), Single (lit "abc"))] (lit "msg")).
  - repeat split.
    + apply NoDup_singleton.
    + apply Forall_singleton. simpl.
      repeat split; repeat constructor; discriminate.
    + intros [=].
    + constructor.
  - simpl. lia.
  - simpl. lia.
  - apply path_clear_empty.
  - apply lookup_empty.
Defined.

(** * Creating and opening a repository *)

(** [os.listdir]: the names of the entries whose directory is [p]. *)
Definition children (fs : filesystem) (p : path) : list string :=
  omap (fun e : path * node =>
          if decide (fst e <> [] /\ removelast (fst e) = p)
          then Some (List.last (fst e) EmptyString)
          else None)
       (map_to_list fs).

Definition listdir (fs : filesystem) (p : path) : result (list string) :=
  match fs !! p with
  | Some Dir => Ok (children fs p)
  | Some (File _) => Raise NotADirectoryError
  | None => Raise FileNotFoundError
  end.

(** [open(p, "w")] where [p] may be the [None] of [repo_file]. *)
Definition write_to (p : option path) (c : bytes) (fs : filesystem)
    : result filesystem :=
  match p with
  | Some p => Os.write p c fs
  | None => Raise TypeError
  end.

(** What [repo_create] writes. *)
Definition description_text : bytes :=
  lit "Unnamed repository; edit this file 'description' to name the repository."
  ++ [Py.LF].

Definition head_text : bytes := lit "ref: refs/heads/master" ++ [Py.LF].

(** What [ConfigParser.write] makes of [repo_default_config()]: the
    section [core] with [repositoryformatversion = 0], [filemode = false]
    and [bare = false], and an empty line. *)
Definition default_config_text : bytes :=
  lit "[core]" ++ [Py.LF]
  ++ lit "repositoryformatversion = 0" ++ [Py.LF]
  ++ lit "filemode = false" ++ [Py.LF]
  ++ lit "bare = false" ++ [Py.LF]
  ++ [Py.LF].

Section Repository.

(** The configuration parser of the library: what [ConfigParser.read]
    makes of the content of a file (the configuration, or the exception it
    raises), the configuration that has read nothing, and
    [int(conf.get("core", "repositoryformatversion"))]. *)
Variable conf : Type.
Variable conf_read : bytes -> result conf.
Variable conf_empty : conf.
Variable conf_version : conf -> result Z.

(** [GitRepository(path, force)].  The record keeps [worktree] and
    [gitdir]; the configuration is read and checked and is not used again by
    the functions here. *)
Definition GitRepository_init (p : path) (force : bool) (fs : filesystem)
    : result GitRepository :=
  let repo := {| worktree := p; gitdir := Os.join p [".git"%string] |} in
  if negb (force || Os.isdir fs (gitdir repo)) then
    Raise (Exception ("Not a git repository " ++ Os.text p))
  else
    let* cf := fst (repo_file repo ["config"%string] false fs) in
    let* cnf :=
      match cf with
      | Some cf' =>
          if Os.exists_ fs cf' then
            match Os.read cf' fs with
            | Ok content => conf_read content
            | Raise _ => Ok conf_empty
            end
          else if negb force
               then Raise (Exception "The config file is missing")
               else Ok conf_empty
      | None =>
          if negb force
          then Raise (Exception "The config file is missing")
          else Ok conf_empty
      end in
    if negb force then
      let* vers := conf_version cnf in
      if negb (vers =? 0) then
        Raise (Exception ("Unsupported repository format version "
                          ++ string_of_list_byte (Py.str vers)))
      else Ok repo
    else Ok repo.

(** [assert repo_dir(repo, *p, mkdir=True)] *)
Definition assert_dir (repo : GitRepository) (p : path) (fs : filesystem)
    : result filesystem :=
  match repo_dir repo p true fs with
  | (Ok (Some _), fs') => Ok fs'
  | (Ok None, _) => Raise AssertionError
  | (Raise e, _) => Raise e
  end.

(** [with open(repo_file(repo, name), "w") as f: f.write(text)] *)
Definition write_file (repo : GitRepository) (name : string) (text : bytes)
    (fs : filesystem) : result filesystem :=
  let* p := fst (repo_file repo [name] false fs) in
  write_to p text fs.

(** [repo_create(path)]: the repository, or the exception, and the file
    system as the call leaves it. *)
Definition repo_create (p : path) : io GitRepository :=
  fun fs =>
    match GitRepository_init p true fs with
    | Raise e => (Raise e, fs)
    | Ok repo =>
        let checked : result filesystem :=
          if Os.exists_ fs (worktree repo) then
            if negb (Os.isdir fs (worktree repo)) then
              Raise (Exception (Os.text p ++ " is not a directory"))
            else if Os.exists_ fs (gitdir repo) then
              match listdir fs (gitdir repo) with
              | Raise e => Raise e
              | Ok [] => Ok fs
              | Ok (_ :: _) => Raise (Exception (Os.text p ++ " is not empty"))
              end
            else Ok fs
          else Os.makedirs (worktree repo) fs in
        match checked with
        | Raise e => (Raise e, fs)
        | Ok fs1 =>
        match assert_dir repo ["branches"%string] fs1 with
        | Raise e => (Raise e, fs1)
        | Ok fs2 =>
        match assert_dir repo ["objects"%string] fs2 with
        | Raise e => (Raise e, fs2)
        | Ok fs3 =>
        match assert_dir repo ["refs"%string; "tags"%string] fs3 with
        | Raise e => (Raise e, fs3)
        | Ok fs4 =>
        match assert_dir repo ["refs"%string; "heads"%string] fs4 with
        | Raise e => (Raise e, fs4)
        | Ok fs5 =>
        match write_file repo "description" description_text fs5 with
        | Raise e => (Raise e, fs5)
        | Ok fs6 =>
        match write_file repo "HEAD" head_text fs6 with
        | Raise e => (Raise e, fs6)
        | Ok fs7 =>
        match write_file repo "config" default_config_text fs7 with
        | Raise e => (Raise e, fs7)
        | Ok fs8 => (Ok repo, fs8)
        end end end end end end end end
    end.

End Repository.

(** ** Directories that get made *)

(** [fs'] is [fs] with directories added at some of the paths in [T]. *)
Definition grown (T : path -> Prop) (fs fs' : filesystem) : Prop :=
  forall r : path,
    fs' !! r = fs !! r \/ (fs !! r = None /\ fs' !! r = Some Dir /\ T r).

(** The path [q] below the [.git] of [p]. *)
Definition sub (p q : path) : path := p ++ ".git"%string :: q.

(** The paths [repo_create] may make directories at: the way to [p], and
    the paths [L] below its [.git]. *)
Definition made (p : path) (L : list path) (r : path) : Prop :=
  (exists n : nat, r = take n p) \/ exists q, In q L /\ r = sub p q.

Section Growing.

Implicit Types (fs : filesystem) (p q r pre rest : path) (T : path -> Prop).

Lemma grown_refl T fs : grown T fs fs.
Proof. intros r. now left. Qed.

Lemma grown_trans T fs1 fs2 fs3 :
  grown T fs1 fs2 -> grown T fs2 fs3 -> grown T fs1 fs3.
Proof.
  intros H12 H23 r.
  destruct (H12 r) as [E|(E1 & E2 & Ht)], (H23 r) as [E'|(E1' & E2' & Ht')].
  - left. congruence.
  - right. repeat split; [congruence | assumption ..].
  - right. repeat split; [assumption | congruence | assumption].
  - congruence.
Qed.

Lemma grown_weaken T T' fs fs' :
  (forall r, T r -> T' r) -> grown T fs fs' -> grown T' fs fs'.
Proof.
  intros HT H r. destruct (H r) as [E|(E1 & E2 & Ht)]; [now left | right; auto].
Qed.

Lemma grown_insert T fs q :
  fs !! q = None -> T q -> grown T fs (<[q := Dir]> fs).
Proof.
  intros Hq Ht r. destruct (decide (q = r)) as [<-|Hne].
  - right. now rewrite lookup_insert_eq.
  - left. now rewrite lookup_insert_ne.
Qed.

Lemma grown_keeps T fs fs' r (x : node) :
  grown T fs fs' -> fs !! r = Some x -> fs' !! r = Some x.
Proof. intros H Hr. destruct (H r) as [E|(E & _)]; congruence. Qed.

Lemma grown_files T fs fs' r c :
  grown T fs fs' -> fs' !! r = Some (File c) -> fs !! r = Some (File c).
Proof. intros H Hr. destruct (H r) as [E|(_ & E & _)]; congruence. Qed.

Lemma grown_clear T fs fs' p :
  grown T fs fs' -> path_clear fs p -> path_clear fs' p.
Proof.
  intros H Hc n c Hf. apply (Hc n c). eapply grown_files; eassumption.
Qed.

(** [os.makedirs] where no regular file is in the way: every directory on
    the way is there afterwards, and nothing else has changed. *)
Lemma makedirs_from_made rest : forall pre fs,
  (forall (n : nat) c, fs !! (pre ++ take n rest) <> Some (File c)) ->
  exists fs',
    Os.makedirs_from pre rest fs = Ok fs' /\
    (forall n : nat, (0 < n <= length rest)%nat ->
                     fs' !! (pre ++ take n rest) = Some Dir) /\
    grown (fun r => exists n : nat, (0 < n <= length rest)%nat
                                    /\ r = pre ++ take n rest) fs fs'.
Proof.
  induction rest as [|c rest IH]; intros pre fs Hclear; simpl.
  - exists fs. repeat split; [intros n Hn; simpl in Hn; lia | apply grown_refl].
  - set (q := pre ++ [c]).
    assert (forall n : nat, q ++ take n rest = pre ++ take (S n) (c :: rest))
      as Eq by (intros n; unfold q; simpl; now rewrite <- app_assoc).
    assert (forall fs1,
               fs1 !! q = Some Dir ->
               grown (fun r => r = q) fs fs1 ->
               exists fs',
                 Os.makedirs_from q rest fs1 = Ok fs' /\
                 (forall n : nat, (0 < n <= S (length rest))%nat ->
                                  fs' !! (pre ++ take n (c :: rest)) = Some Dir) /\
                 grown (fun r => exists n : nat,
                            (0 < n <= S (length rest))%nat
                            /\ r = pre ++ take n (c :: rest)) fs fs') as Hgo.
    { intros fs1 Hq Hg.
      destruct (IH q fs1) as (fs' & Hmk & Hdirs & Hgrown).
      { intros n c' Hf. apply (grown_files _ _ _ _ _ Hg) in Hf.
        rewrite Eq in Hf. now apply Hclear in Hf. }
      exists fs'. split; [assumption|]. split.
      - intros [|[|n]] Hn; [lia | | ].
        + simpl. rewrite take_0. fold q.
          eapply grown_keeps; eassumption.
        + rewrite <- Eq. apply Hdirs. lia.
      - eapply grown_trans.
        + eapply grown_weaken; [|exact Hg]. intros r ->. exists 1%nat.
          split; [lia|]. simpl. now rewrite take_0.
        + eapply grown_weaken; [|exact Hgrown].
          intros r (n & Hn & ->). exists (S n). split; [lia | apply Eq]. }
    fold q. destruct (fs !! q) as [[|content]|] eqn:E.
    + apply Hgo; [assumption | apply grown_refl].
    + exfalso. apply (Hclear 1%nat content). simpl. rewrite take_0. exact E.
    + apply Hgo; [apply lookup_insert_eq | now apply grown_insert].
Qed.

Lemma take_app_cases p q (n : nat) :
  (take n (p ++ q) = take n p /\ (n <= length p)%nat)
  \/ (take n (p ++ q) = p ++ take (n - length p) q /\ (length p < n)%nat).
Proof.
  destruct (Nat.le_gt_cases n (length p)) as [H|H]; [left|right].
  - split; [now apply take_app_le | assumption].
  - split; [apply take_app_ge; lia | assumption].
Qed.

Lemma sub_inj p q q' : sub p q = sub p q' -> q = q'.
Proof. unfold sub. intros E. apply app_inv_head in E. congruence. Qed.

Lemma sub_not_prefix p q (n : nat) : sub p q <> take n p.
Proof.
  unfold sub. intros E. apply (f_equal (@length string)) in E.
  rewrite length_app, length_take in E. simpl in E. lia.
Qed.

(** A prefix of a path below [.git] is on the way to [p] or below [.git]
    itself. *)
Lemma take_sub p q (n : nat) :
  (exists m : nat, take n (sub p q) = take m p)
  \/ exists k : nat, take n (sub p q) = sub p (take k q).
Proof.
  unfold sub. destruct (take_app_cases p (".git"%string :: q) n) as [[E _]|[E H]].
  - left. eauto.
  - right. destruct (n - length p)%nat as [|k] eqn:Ek; [lia|].
    exists k. rewrite E. reflexivity.
Qed.

Lemma repo_path_sub p q :
  repo_path {| worktree := p; gitdir := Os.join p [".git"%string] |} q = sub p q.
Proof. unfold repo_path, Os.join, sub. simpl. now rewrite <- app_assoc. Qed.

(** [repo_dir] with [mkdir] at a path below [.git] that is not there, no
    regular file being in the way. *)
Lemma repo_dir_made p q fs :
  path_clear fs (sub p q) -> fs !! sub p q = None ->
  exists fs',
    repo_dir {| worktree := p; gitdir := Os.join p [".git"%string] |} q true fs
    = (Ok (Some (sub p q)), fs') /\
    (forall k : nat, fs' !! sub p (take k q) = Some Dir) /\
    grown (fun r => (exists m : nat, r = take m p)
                    \/ exists k : nat, r = sub p (take k q)) fs fs'.
Proof.
  intros Hclear Hnone. unfold repo_dir, Os.exists_, Os.isdir, Os.makedirs.
  rewrite repo_path_sub, Hnone.
  destruct (makedirs_from_made (sub p q) [] fs) as (fs' & Hmk & Hdirs & Hg).
  { intros n c. apply Hclear. }
  rewrite Hmk. exists fs'. split; [reflexivity|]. split.
  - intros k.
    assert (exists k' : nat, (k' <= length q)%nat /\ take k q = take k' q)
      as (k' & Hk' & ->).
    { destruct (Nat.le_gt_cases k (length q)) as [H|H]; [eauto|].
      exists (length q). split; [lia|]. now rewrite !take_ge by lia. }
    assert (sub p (take k' q) = take (length p + S k') (sub p q)) as ->.
    { unfold sub. rewrite take_app_add. reflexivity. }
    apply (Hdirs (length p + S k')%nat).
    split; [lia|]. unfold sub. rewrite length_app. simpl. lia.
  - eapply grown_weaken; [|exact Hg].
    intros r (n & _ & ->). simpl. destruct (take_sub p q n) as [[m E]|[k E]];
      [left | right]; eauto.
Qed.

End Growing.

(** ** A fresh repository *)

(** What [repo_create] puts below [.git]. *)
Definition git_dirs : list path :=
  [ []; ["branches"%string]; ["objects"%string]; ["refs"%string];
    ["refs"%string; "tags"%string]; ["refs"%string; "heads"%string] ].

Definition git_layout : list (path * node) :=
  List.map (fun q => (q, Dir)) git_dirs
  ++ [ (["description"%string], File description_text);
       (["HEAD"%string], File head_text);
       (["config"%string], File default_config_text) ].

(** There is nothing at or below the [.git] of [p]. *)
Definition no_git (fs : filesystem) (p : path) : Prop :=
  forall q : path, fs !! sub p q = None.

Section Fresh.

Variable conf : Type.
Variable conf_read : bytes -> result conf.
Variable conf_empty : conf.
Variable conf_version : conf -> result Z.

Implicit Types (fs : filesystem) (p q r : path) (L : list path).

Let repo_at (p : path) : GitRepository :=
  {| worktree := p; gitdir := Os.join p [".git"%string] |}.

Lemma made_incl p L L' r : incl L L' -> made p L r -> made p L' r.
Proof.
  intros HL [H|(q & Hq & ->)]; [now left | right]. exists q. auto.
Qed.

Lemma step_made p q L r :
  (forall k : nat, In (take k q) L) ->
  (exists m : nat, r = take m p) \/ (exists k : nat, r = sub p (take k q)) ->
  made p L r.
Proof. intros HL [H|[k ->]]; [now left | right; eauto]. Qed.

Lemma grown_sub_none p L fs fs' q :
  grown (made p L) fs fs' -> no_git fs p -> ~ In q L -> fs' !! sub p q = None.
Proof.
  intros Hg Hgit Hq. destruct (Hg (sub p q)) as [E|(_ & _ & [[n E]|(q' & Hq' & E)])].
  - now rewrite E.
  - now apply sub_not_prefix in E.
  - apply sub_inj in E. now subst q'.
Qed.

Lemma path_clear_sub p q fs :
  path_clear fs p -> no_git fs p -> path_clear fs (sub p q).
Proof.
  intros Hc Hgit n c. destruct (take_sub p q n) as [[m ->]|[k ->]].
  - apply Hc.
  - now rewrite Hgit.
Qed.

(** One [assert repo_dir(.., mkdir=True)] of [repo_create]. *)
Lemma assert_dir_made p q L L' fs fs1 :
  path_clear fs p -> no_git fs p ->
  grown (made p L) fs fs1 ->
  ~ In q L -> incl L L' -> (forall k : nat, In (take k q) L') ->
  exists fs2,
    assert_dir (repo_at p) q fs1 = Ok fs2 /\
    (forall k : nat, fs2 !! sub p (take k q) = Some Dir) /\
    grown (fun _ => True) fs1 fs2 /\
    grown (made p L') fs fs2.
Proof.
  intros Hc Hgit Hg Hq Hincl Htake.
  destruct (repo_dir_made p q fs1) as (fs2 & Hrd & Hdirs & Hg2).
  - eapply grown_clear; [exact Hg | now apply path_clear_sub].
  - eapply grown_sub_none; eassumption.
  - exists fs2. unfold assert_dir, repo_at. rewrite Hrd.
    split; [reflexivity|]. split; [assumption|].
    split; [eapply grown_weaken; [|exact Hg2]; auto|].
    eapply grown_trans.
    + eapply grown_weaken; [|exact Hg]. intros r. now apply made_incl.
    + eapply grown_weaken; [|exact Hg2]. intros r. now apply step_made.
Qed.

Lemma removelast_sub p (name : string) : removelast (sub p [name]) = sub p [].
Proof.
  unfold sub. change (p ++ ".git"%string :: [name])
    with (p ++ [".git"%string] ++ [name]).
  rewrite app_assoc, removelast_last. reflexivity.
Qed.

(** One [with open(repo_file(repo, name), "w")] of [repo_create]. *)
Lemma write_file_made p (name : string) (text : bytes) fs :
  fs !! sub p [] = Some Dir -> fs !! sub p [name] = None ->
  write_file (repo_at p) name text fs = Ok (<[sub p [name] := File text]> fs).
Proof.
  intros Hdir Hnone. unfold write_file, repo_file, repo_dir, repo_at.
  simpl removelast. rewrite !repo_path_sub.
  unfold Os.exists_, Os.isdir. rewrite Hdir. simpl.
  unfold Os.write. rewrite Hnone, removelast_sub.
  destruct (sub p []) as [|s l] eqn:E.
  - unfold sub in E. now apply app_eq_nil in E as [_ E].
  - now rewrite Hdir.
Qed.

Lemma GitRepository_init_fresh p fs :
  fs !! sub p [] = None ->
  GitRepository_init conf conf_read conf_empty conf_version p true fs
  = Ok (repo_at p).
Proof.
  intros Hgit. unfold GitRepository_init, repo_file, repo_dir. simpl.
  rewrite repo_path_sub. unfold Os.exists_. now rewrite Hgit.
Qed.

(** The whole of [repo_create] where there is no [.git] yet. *)
Lemma repo_create_spec p fs :
  p <> [] -> path_clear fs p -> no_git fs p ->
  exists fs5,
    repo_create conf conf_read conf_empty conf_version p fs
    = (Ok (repo_at p),
       <[sub p ["config"%string] := File default_config_text]>
         (<[sub p ["HEAD"%string] := File head_text]>
            (<[sub p ["description"%string] := File description_text]> fs5)))
    /\ grown (made p git_dirs) fs fs5
    /\ (forall q, In q git_dirs -> fs5 !! sub p q = Some Dir)
    /\ fs5 !! p = Some Dir.
Proof.
  intros Hne Hc Hgit. unfold repo_create.
  rewrite GitRepository_init_fresh by apply Hgit.
  change (worktree (repo_at p)) with p.
  change (gitdir (repo_at p)) with (Os.join p [".git"%string]).
  (* the work tree *)
  assert (exists fs1,
             (if Os.exists_ fs p
              then if negb (Os.isdir fs p)
                   then Raise (Exception (Os.text p ++ " is not a directory"))
                   else if Os.exists_ fs (Os.join p [".git"%string])
                        then match listdir fs (Os.join p [".git"%string]) with
                             | Raise e => Raise e
                             | Ok [] => Ok fs
                             | Ok (_ :: _) =>
                                 Raise (Exception (Os.text p ++ " is not empty"))
                             end
                        else Ok fs
              else Os.makedirs p fs) = Ok fs1
             /\ grown (made p []) fs fs1 /\ fs1 !! p = Some Dir)
    as (fs1 & -> & Hg1 & Hp1).
  { unfold Os.exists_, Os.isdir.
    destruct (fs !! p) as [[|c]|] eqn:Ep.
    - simpl. change (Os.join p [".git"%string]) with (sub p []).
      rewrite Hgit. exists fs. repeat split; [apply grown_refl | assumption].
    - exfalso. apply (Hc (length p) c). now rewrite take_ge by lia.
    - destruct (makedirs_from_made p [] fs) as (fs1 & Hmk & Hdirs & Hg).
      { intros n c. apply Hc. }
      exists fs1. split; [exact Hmk|]. split.
      + eapply grown_weaken; [|exact Hg]. intros r (n & _ & ->). left. eauto.
      + specialize (Hdirs (length p)). rewrite take_ge in Hdirs by lia.
        apply Hdirs. destruct p; [easy | simpl; lia]. }
  (* the four directories *)
  destruct (assert_dir_made p ["branches"%string] []
              [ []; ["branches"%string] ] fs fs1)
    as (fs2 & -> & Hd2 & G12 & Hg2); try assumption;
    [ simpl; tauto | intros ? [] | intros [|[|k]]; simpl; tauto |].
  destruct (assert_dir_made p ["objects"%string] [ []; ["branches"%string] ]
              [ []; ["branches"%string]; ["objects"%string] ] fs fs2)
    as (fs3 & -> & Hd3 & G23 & Hg3); try assumption;
    [ simpl; intros [H|[H|[]]]; discriminate
    | intros ? H; simpl in *; tauto
    | intros [|[|k]]; simpl; tauto |].
  destruct (assert_dir_made p ["refs"%string; "tags"%string]
              [ []; ["branches"%string]; ["objects"%string] ]
              [ []; ["branches"%string]; ["objects"%string]; ["refs"%string];
                ["refs"%string; "tags"%string] ] fs fs3)
    as (fs4 & -> & Hd4 & G34 & Hg4); try assumption;
    [ simpl; intros [H|[H|[H|[]]]]; discriminate
    | intros ? H; simpl in *; tauto
    | intros [|[|[|k]]]; simpl; tauto |].
  destruct (assert_dir_made p ["refs"%string; "heads"%string]
              [ []; ["branches"%string]; ["objects"%string]; ["refs"%string];
                ["refs"%string; "tags"%string] ]
              git_dirs fs fs4)
    as (fs5 & -> & Hd5 & G45 & Hg5); try assumption;
    [ simpl; intros [H|[H|[H|[H|[H|[]]]]]]; discriminate
    | intros ? H; unfold git_dirs; simpl in *; tauto
    | intros [|[|[|k]]]; unfold git_dirs; simpl; tauto |].
  (* the directories are there *)
  assert (forall q, In q git_dirs -> fs5 !! sub p q = Some Dir) as Hdirs.
  { intros q Hq. unfold git_dirs in Hq. simpl in Hq.
    destruct Hq as [<-|[<-|[<-|[<-|[<-|[<-|[]]]]]]].
    - apply (Hd5 0%nat).
    - eapply grown_keeps; [exact G45|]. eapply grown_keeps; [exact G34|].
      eapply grown_keeps; [exact G23|]. apply (Hd2 1%nat).
    - eapply grown_keeps; [exact G45|]. eapply grown_keeps; [exact G34|].
      apply (Hd3 1%nat).
    - apply (Hd5 1%nat).
    - eapply grown_keeps; [exact G45|]. apply (Hd4 2%nat).
    - apply (Hd5 2%nat). }
  (* the three files *)
  assert (forall name : string,
             ~ In [name] git_dirs -> fs5 !! sub p [name] = None) as Hfree.
  { intros name Hn. eapply grown_sub_none; eassumption. }
  rewrite write_file_made;
    [| apply Hdirs; unfold git_dirs; simpl; tauto
     | apply Hfree; unfold git_dirs; simpl;
       intros [H|[H|[H|[H|[H|[H|[]]]]]]]; discriminate ].
  rewrite write_file_made;
    [| rewrite lookup_insert_ne
         by (intros E; apply sub_inj in E; discriminate);
       apply Hdirs; unfold git_dirs; simpl; tauto
     | rewrite lookup_insert_ne
         by (intros E; apply sub_inj in E; discriminate);
       apply Hfree; unfold git_dirs; simpl;
       intros [H|[H|[H|[H|[H|[H|[]]]]]]]; discriminate ].
  rewrite write_file_made;
    [| rewrite !lookup_insert_ne
         by (intros E; apply sub_inj in E; discriminate);
       apply Hdirs; unfold git_dirs; simpl; tauto
     | rewrite !lookup_insert_ne
         by (intros E; apply sub_inj in E; discriminate);
       apply Hfree; unfold git_dirs; simpl;
       intros [H|[H|[H|[H|[H|[H|[]]]]]]]; discriminate ].
  exists fs5. split; [reflexivity|]. split; [assumption|].
  split; [assumption|].
  eapply grown_keeps; [|exact Hp1].
  eapply grown_trans; [exact G12|]. eapply grown_trans; [exact G23|].
  eapply grown_trans; [exact G34 | exact G45].
Qed.

End Fresh.

(** The file system after the three files were written. *)
Definition with_files (p : path) (fs : filesystem) : filesystem :=
  <[sub p ["config"%string] := File default_config_text]>
    (<[sub p ["HEAD"%string] := File head_text]>
       (<[sub p ["description"%string] := File description_text]> fs)).

Section Layout.

Implicit Types (fs : filesystem) (p q r : path) (x : node).

Lemma git_dirs_not_file q (name : string) :
  In q git_dirs -> In name ["description"; "HEAD"; "config"]%string ->
  q <> [name].
Proof.
  unfold git_dirs. simpl.
  intros [<-|[<-|[<-|[<-|[<-|[<-|[]]]]]]] [<-|[<-|[<-|[]]]]; discriminate.
Qed.

(** Below [.git] there is the layout and nothing else. *)
Lemma with_files_layout p fs fs5 :
  no_git fs p -> grown (made p git_dirs) fs fs5 ->
  (forall q, In q git_dirs -> fs5 !! sub p q = Some Dir) ->
  forall q x, with_files p fs5 !! sub p q = Some x <-> In (q, x) git_layout.
Proof.
  intros Hgit Hg Hdirs q x. unfold with_files, git_layout. split.
  - rewrite !lookup_insert. repeat case_decide.
    + intros [= <-]. apply sub_inj in H. subst q.
      apply in_or_app. right. simpl. tauto.
    + intros [= <-]. apply sub_inj in H0. subst q.
      apply in_or_app. right. simpl. tauto.
    + intros [= <-]. apply sub_inj in H1. subst q.
      apply in_or_app. right. simpl. tauto.
    + intros Hx. apply in_or_app. left.
      destruct (Hg (sub p q)) as [E|(_ & E & [[n En]|(q' & Hq' & En)])].
      * rewrite E, Hgit in Hx. discriminate.
      * now apply sub_not_prefix in En.
      * apply sub_inj in En. subst q'. rewrite E in Hx. injection Hx as <-.
        apply in_map_iff. eauto.
  - intros Hin. apply in_app_or in Hin as [Hin|Hin].
    + apply in_map_iff in Hin as (q' & [= -> <-] & Hq).
      rewrite !lookup_insert_ne; [now apply Hdirs | ..];
        intros E; apply sub_inj in E; symmetry in E; revert E;
        apply git_dirs_not_file; simpl; tauto.
    + simpl in Hin. destruct Hin as [[= <- <-]|[[= <- <-]|[[= <- <-]|[]]]].
      * rewrite lookup_insert_ne by (intros E; apply sub_inj in E; discriminate).
        rewrite lookup_insert_ne by (intros E; apply sub_inj in E; discriminate).
        apply lookup_insert_eq.
      * rewrite lookup_insert_ne by (intros E; apply sub_inj in E; discriminate).
        apply lookup_insert_eq.
      * apply lookup_insert_eq.
Qed.

(** What was there is kept. *)
Lemma with_files_keeps p fs fs5 r x :
  no_git fs p -> grown (made p git_dirs) fs fs5 ->
  fs !! r = Some x -> with_files p fs5 !! r = Some x.
Proof.
  intros Hgit Hg Hr. unfold with_files.
  rewrite !lookup_insert_ne; [eapply grown_keeps; eassumption | ..];
    intros <-; rewrite Hgit in Hr; discriminate.
Qed.

(** The regular files are those that were there and those below [.git]. *)
Lemma with_files_files p fs fs5 r c :
  grown (made p git_dirs) fs fs5 ->
  with_files p fs5 !! r = Some (File c) ->
  fs !! r = Some (File c) \/ exists q, r = sub p q.
Proof.
  intros Hg. unfold with_files. rewrite !lookup_insert.
  repeat case_decide; eauto.
  intros Hr. left. eapply grown_files; eassumption.
Qed.

End Layout.

(** ** Claims on [repo_create] and [GitRepository] *)

Lemma children_entry (fs : filesystem) (d : path) (name : string) (x : node) :
  fs !! (d ++ [name]) = Some x -> children fs d <> [].
Proof.
  intros Hx E.
  assert (name ∈ children fs d) as Hin.
  { unfold children. apply list_elem_of_omap.
    exists (d ++ [name], x). split.
    - now apply elem_of_map_to_list.
    - simpl. rewrite decide_True.
      + now rewrite last_last.
      + split; [now destruct d | apply removelast_last]. }
  rewrite E in Hin. now apply elem_of_nil in Hin.
Qed.

Section RepositoryClaims.

Variable conf : Type.
Variable conf_read : bytes -> result conf.
Variable conf_empty : conf.
Variable conf_version : conf -> result Z.
Variable zc : bytes -> bytes.
Variable zd : bytes -> option bytes.
Variables (depth fuel : nat).

Implicit Types (fs : filesystem) (p q r : path) (x : node).

(** X19. A fresh repository.  Where no regular file is on the way to
    [p] and there is nothing at [p/.git], [repo_create] returns the
    repository with work tree [p] and git directory [p/.git]; afterwards
    [p] is a directory; below [p/.git] there are exactly the directories
    [.git] itself, [branches], [objects], [refs], [refs/tags], [refs/heads]
    and the files [description], [HEAD] (with [ref: refs/heads/master]) and
    [config] (the default configuration); whatever was in the file system
    is still there; and no regular file was made outside [p/.git]. *)
Theorem repo_create_fresh p fs :
  p <> [] -> path_clear fs p -> no_git fs p ->
  exists fs',
    repo_create conf conf_read conf_empty conf_version p fs
    = (Ok {| worktree := p; gitdir := p ++ [".git"%string] |}, fs') /\
    fs' !! p = Some Dir /\
    (forall q x, fs' !! sub p q = Some x <-> In (q, x) git_layout) /\
    (forall r x, fs !! r = Some x -> fs' !! r = Some x) /\
    (forall r c, fs' !! r = Some (File c) ->
                 fs !! r = Some (File c) \/ exists q, r = sub p q).
Proof.
  intros Hne Hc Hgit.
  destruct (repo_create_spec conf conf_read conf_empty conf_version p fs
              Hne Hc Hgit) as (fs5 & Hrc & Hg & Hdirs & Hp).
  exists (with_files p fs5). split; [exact Hrc|]. split; [|split; [|split]].
  - unfold with_files. rewrite !lookup_insert_ne; [assumption | ..];
      intros E; apply (sub_not_prefix p _ (length p)) with (1 := eq_trans E
        (eq_sym (take_ge p (length p) (Nat.le_refl _)))).
  - now apply with_files_layout with (fs := fs).
  - intros r x. now apply with_files_keeps.
  - intros r c. now apply with_files_files.
Qed.

Lemma with_files_worktree p fs5 :
  fs5 !! p = Some Dir -> with_files p fs5 !! p = Some Dir.
Proof.
  intros Hp. unfold with_files. rewrite !lookup_insert_ne; [assumption | ..];
    intros E; apply (sub_not_prefix p _ (length p)) with (1 := eq_trans E
      (eq_sym (take_ge p (length p) (Nat.le_refl _)))).
Qed.

(** X20. [repo_create] on a path that is a regular file (nothing being
    at [path/.git]) raises the exception [.. is not a directory] and
    leaves the file system as it is. *)
Theorem repo_create_on_file p c fs :
  fs !! p = Some (File c) -> fs !! sub p [] = None ->
  repo_create conf conf_read conf_empty conf_version p fs
  = (Raise (Exception (Os.text p ++ " is not a directory")), fs).
Proof.
  intros Hp Hgit. unfold repo_create.
  rewrite GitRepository_init_fresh by assumption.
  unfold Os.exists_, Os.isdir. simpl worktree. now rewrite Hp.
Qed.

(** The configuration file, if there is one, is one the library reads. *)
Definition config_readable (fs : filesystem) (p : path) : Prop :=
  forall content,
    fs !! sub p ["config"%string] = Some (File content) ->
    exists cnf, conf_read content = Ok cnf.

Lemma GitRepository_init_forced p fs :
  fs !! sub p [] = Some Dir -> config_readable fs p ->
  GitRepository_init conf conf_read conf_empty conf_version p true fs
  = Ok {| worktree := p; gitdir := Os.join p [".git"%string] |}.
Proof.
  intros Hgit Hconf. unfold GitRepository_init, repo_file, repo_dir.
  simpl. rewrite !repo_path_sub. unfold Os.exists_, Os.isdir, Os.read.
  rewrite Hgit. simpl.
  destruct (fs !! sub p ["config"%string]) as [[|content]|] eqn:E;
    try reflexivity.
  destruct (Hconf content E) as [cnf ->]. reflexivity.
Qed.

Lemma repo_create_listed p fs :
  fs !! p = Some Dir -> fs !! sub p [] = Some Dir ->
  children fs (sub p []) <> [] -> config_readable fs p ->
  repo_create conf conf_read conf_empty conf_version p fs
  = (Raise (Exception (Os.text p ++ " is not empty")), fs).
Proof.
  intros Hp Hgit Hch Hconf. unfold repo_create.
  rewrite GitRepository_init_forced by assumption.
  unfold Os.exists_, Os.isdir, listdir. simpl worktree. simpl gitdir.
  change (Os.join p [".git"%string]) with (sub p []).
  rewrite Hp, Hgit. simpl negb. cbv iota.
  destruct (children fs (sub p [])); [contradiction | reflexivity].
Qed.

Lemma children_sub p fs (name : string) x :
  fs !! sub p [name] = Some x -> children fs (sub p []) <> [].
Proof.
  intros Hentry. apply (children_entry fs (sub p []) name x).
  unfold sub in *. now rewrite <- app_assoc.
Qed.

(** X21. [repo_create] does not initialise a repository again.  Where
    [p] and [p/.git] are directories and [p/.git] holds an entry (and the
    configuration file, if any, is one that [ConfigParser.read] accepts),
    the call raises the exception [.. is not empty] and leaves the file
    system as it is. *)
Theorem repo_create_not_empty p fs (name : string) x :
  fs !! p = Some Dir -> fs !! sub p [] = Some Dir ->
  fs !! sub p [name] = Some x -> config_readable fs p ->
  repo_create conf conf_read conf_empty conf_version p fs
  = (Raise (Exception (Os.text p ++ " is not empty")), fs).
Proof.
  intros Hp Hgit Hentry Hconf.
  apply repo_create_listed; try assumption.
  exact (children_sub p fs name x Hentry).
Qed.

(** X22. Creating twice.  After [repo_create] has made a fresh
    repository at [p], a second [repo_create] at [p] raises the exception
    [.. is not empty] and changes nothing, the library reading back the
    configuration that was written. *)
Theorem repo_create_twice p fs :
  p <> [] -> path_clear fs p -> no_git fs p ->
  (exists cnf, conf_read default_config_text = Ok cnf) ->
  exists fs',
    repo_create conf conf_read conf_empty conf_version p fs
    = (Ok {| worktree := p; gitdir := p ++ [".git"%string] |}, fs') /\
    repo_create conf conf_read conf_empty conf_version p fs'
    = (Raise (Exception (Os.text p ++ " is not empty")), fs').
Proof.
  intros Hne Hc Hgit Hread.
  destruct (repo_create_spec conf conf_read conf_empty conf_version p fs
              Hne Hc Hgit) as (fs5 & Hrc & Hg & Hdirs & Hp).
  pose proof (with_files_layout p fs fs5 Hgit Hg Hdirs) as Hlay.
  exists (with_files p fs5). split; [exact Hrc|].
  apply repo_create_listed.
  - now apply with_files_worktree.
  - apply Hlay. unfold git_layout. simpl. tauto.
  - apply (children_sub p _ "HEAD" (File head_text)).
    apply Hlay. unfold git_layout. simpl. tauto.
  - intros content Hcontent. apply Hlay in Hcontent.
    unfold git_layout in Hcontent. simpl in Hcontent.
    repeat (destruct Hcontent as [Hcontent|Hcontent];
            [try discriminate Hcontent|]); [|contradiction].
    injection Hcontent as <-. exact Hread.
Qed.

(** [GitRepository(p)] in the layout [repo_create] makes. *)
Lemma GitRepository_init_created p fs' :
  (forall q x, fs' !! sub p q = Some x <-> In (q, x) git_layout) ->
  GitRepository_init conf conf_read conf_empty conf_version p false fs'
  = (let* cnf := conf_read default_config_text in
     let* vers := conf_version cnf in
     if negb (vers =? 0) then
       Raise (Exception ("Unsupported repository format version "
                         ++ string_of_list_byte (Py.str vers)))
     else Ok {| worktree := p; gitdir := p ++ [".git"%string] |}).
Proof.
  intros Hlay.
  assert (fs' !! sub p [] = Some Dir) as Hd
      by (apply Hlay; unfold git_layout; simpl; tauto).
  assert (fs' !! sub p ["config"%string]
          = Some (File default_config_text)) as Hf
      by (apply Hlay; unfold git_layout; simpl; tauto).
  unfold GitRepository_init, repo_file, repo_dir.
  cbv beta iota zeta delta [gitdir worktree orb].
  rewrite !repo_path_sub. unfold Os.exists_, Os.isdir, Os.read.
  change (Os.join p [".git"%string]) with (sub p []).
  change (removelast ["config"%string]) with (@nil string).
  rewrite !Hd. cbv beta iota zeta delta [negb fst bind].
  rewrite !Hf. reflexivity.
Qed.

(** X23. Opening what was created.  After [repo_create] has made a
    fresh repository at [p], [GitRepository(p)] without [force] passes the
    check of the directory and finds the configuration file; what it
    returns is decided by what the library makes of the configuration that
    was written: the repository if the version read is 0. *)
Theorem repo_create_then_open p fs :
  p <> [] -> path_clear fs p -> no_git fs p ->
  exists fs',
    repo_create conf conf_read conf_empty conf_version p fs
    = (Ok {| worktree := p; gitdir := p ++ [".git"%string] |}, fs') /\
    GitRepository_init conf conf_read conf_empty conf_version p false fs'
    = (let* cnf := conf_read default_config_text in
       let* vers := conf_version cnf in
       if negb (vers =? 0) then
         Raise (Exception ("Unsupported repository format version "
                           ++ string_of_list_byte (Py.str vers)))
       else Ok {| worktree := p; gitdir := p ++ [".git"%string] |}).
Proof.
  intros Hne Hc Hgit.
  destruct (repo_create_spec conf conf_read conf_empty conf_version p fs
              Hne Hc Hgit) as (fs5 & Hrc & Hg & Hdirs & Hp).
  exists (with_files p fs5). split; [exact Hrc|].
  apply GitRepository_init_created.
  exact (with_files_layout p fs fs5 Hgit Hg Hdirs).
Qed.

Hypothesis zlib_inverse : forall b : bytes, zd (zc b) = Some b.

(** X24. Create, write, print.  In a repository that [repo_create] has
    just made, [hash-object -w] of a blob returns an address, and
    [cat-file] at that address prints the bytes of the blob: the layout
    made by [repo_create] is one [object_write] and [object_read] work
    in. *)
Theorem repo_create_then_store p fs (data : bytes) (f : option bytes) :
  p <> [] -> path_clear fs p -> no_git fs p ->
  exists repo fs1 sha fs2,
    repo_create conf conf_read conf_empty conf_version p fs = (Ok repo, fs1) /\
    object_hash zc depth fuel data (lit "blob") (Some repo) fs1
    = Some (Ok sha, fs2) /\
    cat_file zd depth fuel repo sha f fs2 = Some (Ok data).
Proof.
  intros Hne Hc Hgit.
  destruct (repo_create_spec conf conf_read conf_empty conf_version p fs
              Hne Hc Hgit) as (fs5 & Hrc & Hg & Hdirs & Hp).
  pose proof (with_files_layout p fs fs5 Hgit Hg Hdirs) as Hlay.
  set (repo := {| worktree := p; gitdir := Os.join p [".git"%string] |}) in *.
  set (sha := address (lit "blob") data).
  assert (object_dir repo sha = sub p ["objects"%string; sha_dir sha]) as Edir
      by apply repo_path_sub.
  assert (object_path repo sha
          = sub p ["objects"%string; sha_dir sha; sha_file sha]) as Epath
      by apply repo_path_sub.
  assert (forall q, ~ (exists x, In (q, x) git_layout) ->
                    with_files p fs5 !! sub p q = None) as Hout.
  { intros q Hq. destruct (with_files p fs5 !! sub p q) as [x|] eqn:E;
      [|reflexivity]. apply Hlay in E. exfalso. eauto. }
  destruct (object_read_written zc zd depth fuel zlib_inverse
              (GitBlob (Some data)) data repo (with_files p fs5) eq_refl)
    as (fs2 & Hw & Hr).
  - change (fmt (GitBlob (Some data))) with (lit "blob"). fold sha.
    rewrite Edir. intros n c Hf.
    destruct (take_sub p ["objects"%string; sha_dir sha] n) as [[m E]|[k E]];
      rewrite E in Hf.
    + apply with_files_files with (fs := fs) in Hf; [|assumption].
      destruct Hf as [Hf|[q Hq]]; [now apply Hc in Hf|].
      symmetry in Hq. now apply sub_not_prefix in Hq.
    + apply Hlay in Hf. unfold git_layout in Hf. simpl in Hf.
      destruct k as [|[|k]]; simpl in Hf;
        repeat (destruct Hf as [Hf|Hf]; [discriminate Hf|]); contradiction.
  - change (fmt (GitBlob (Some data))) with (lit "blob"). fold sha.
    rewrite Epath. apply Hout. intros [x Hx].
    unfold git_layout in Hx. simpl in Hx.
    repeat (destruct Hx as [Hx|Hx]; [discriminate Hx|]). contradiction.
  - change (fmt (GitBlob (Some data))) with (lit "blob") in Hw, Hr.
    fold sha in Hw, Hr.
    exists repo, (with_files p fs5), sha, fs2. split; [exact Hrc|]. split.
    + unfold object_hash. rewrite class_of_fmt_blob.
      unfold construct, new_GitBlob. now rewrite Hw.
    + unfold cat_file, object_find. rewrite Hr. reflexivity.
Qed.

End RepositoryClaims.

(** ** The claims on [repo_create] at a concrete repository

    A reading of configuration files that knows the file [repo_create]
    writes: it gives the version 0 for it. *)
Definition known_conf : Type := option Z.

Definition known_conf_read (content : bytes) : result known_conf :=
  Ok (if bytes_eqb content default_config_text then Some 0 else None).

Definition known_conf_version (c : known_conf) : result Z :=
  match c with
  | Some v => Ok v
  | None => Raise KeyError
  end.

Definition create_at (p : path) : io GitRepository :=
  repo_create known_conf known_conf_read None known_conf_version p.

Definition a_file : filesystem := <[ ["repo"%string] := File (lit "x") ]> ∅.

Definition a_git_dir : filesystem :=
  <[ sub ["repo"%string] ["HEAD"%string] := File (lit "x") ]>
    (<[ sub ["repo"%string] [] := Dir ]> (<[ ["repo"%string] := Dir ]> ∅)).

Lemma no_git_empty (p : path) : no_git ∅ p.
Proof. intros q. apply lookup_empty. Qed.

Lemma one_component : ["repo"%string] <> [].
Proof. discriminate. Qed.

Lemma repo_create_fresh_witness :
  exists fs',
    create_at ["repo"%string] ∅
    = (Ok {| worktree := ["repo"%string];
             gitdir := ["repo"%string] ++ [".git"%string] |}, fs') /\
    fs' !! ["repo"%string] = Some Dir /\
    (forall q x, fs' !! sub ["repo"%string] q = Some x <-> In (q, x) git_layout) /\
    (forall r x, (∅ : filesystem) !! r = Some x -> fs' !! r = Some x) /\
    (forall r c, fs' !! r = Some (File c) ->
                 (∅ : filesystem) !! r = Some (File c)
                 \/ exists q, r = sub ["repo"%string] q).
Proof.
  apply (repo_create_fresh known_conf known_conf_read None known_conf_version
           ["repo"%string] ∅).
  - exact one_component.
  - apply path_clear_empty.
  - apply no_git_empty.
Defined.

Lemma repo_create_on_file_witness :
  create_at ["repo"%string] a_file
  = (Raise (Exception (Os.text ["repo"%string] ++ " is not a directory")),
     a_file).
Proof.
  apply (repo_create_on_file known_conf known_conf_read None known_conf_version
           ["repo"%string] (lit "x") a_file).
  - vm_compute. reflexivity.
  - vm_compute. reflexivity.
Defined.

Lemma repo_create_not_empty_witness :
  create_at ["repo"%string] a_git_dir
  = (Raise (Exception (Os.text ["repo"%string] ++ " is not empty")),
     a_git_dir).
Proof.
  apply (repo_create_not_empty known_conf known_conf_read None
           known_conf_version ["repo"%string] a_git_dir "HEAD"
           (File (lit "x"))).
  - vm_compute. reflexivity.
  - vm_compute. reflexivity.
  - vm_compute. reflexivity.
  - intros content _. eexists. reflexivity.
Defined.

Lemma repo_create_twice_witness :
  exists fs',
    create_at ["repo"%string] ∅
    = (Ok {| worktree := ["repo"%string];
             gitdir := ["repo"%string] ++ [".git"%string] |}, fs') /\
    create_at ["repo"%string] fs'
    = (Raise (Exception (Os.text ["repo"%string] ++ " is not empty")), fs').
Proof.
  apply (repo_create_twice known_conf known_conf_read None known_conf_version
           ["repo"%string] ∅).
  - exact one_component.
  - apply path_clear_empty.
  - apply no_git_empty.
  - eexists. reflexivity.
Defined.

Lemma repo_create_then_open_witness :
  exists fs',
    create_at ["repo"%string] ∅
    = (Ok {| worktree := ["repo"%string];
             gitdir := ["repo"%string] ++ [".git"%string] |}, fs') /\
    GitRepository_init known_conf known_conf_read None known_conf_version
      ["repo"%string] false fs'
    = Ok {| worktree := ["repo"%string];
            gitdir := ["repo"%string] ++ [".git"%string] |}.
Proof.
  apply (repo_create_then_open known_conf known_conf_read None
           known_conf_version ["repo"%string] ∅).
  - exact one_component.
  - apply path_clear_empty.
  - apply no_git_empty.
Defined.

Lemma repo_create_then_store_witness :
  exists repo fs1 sha fs2,
    create_at ["repo"%string] ∅ = (Ok repo, fs1) /\
    object_hash keep_compress 0 0 hello (lit "blob") (Some repo) fs1
    = Some (Ok sha, fs2) /\
    cat_file keep_decompress 0 0 repo sha None fs2 = Some (Ok hello).
Proof.
  apply (repo_create_then_store known_conf known_conf_read None
           known_conf_version keep_compress keep_decompress 0 0
           (fun b => eq_refl) ["repo"%string] ∅ hello None).
  - exact one_component.
  - apply path_clear_empty.
  - apply no_git_empty.
Defined.

(** ** Finding the repository: [repo_find] *)

(** A name of a directory entry: not empty, not [.] or [..], without
    [/]. *)
Definition is_name (c : string) : bool :=
  negb (String.eqb c "") && negb (String.eqb c ".")
  && negb (String.eqb c "..")
  && forallb (fun a => negb (Ascii.eqb a "/")) (list_ascii_of_string c).

(** [os.path.normpath] of an absolute path, on its components: [.] is
    dropped, [..] drops the component before it, and stays at the root. *)
Fixpoint normalize (stack rest : path) : path :=
  match rest with
  | [] => stack
  | c :: rest' =>
      if String.eqb c ".." then normalize (removelast stack) rest'
      else if String.eqb c "." then normalize stack rest'
      else normalize (stack ++ [c]) rest'
  end.

Definition normpath (p : path) : path := normalize [] p.

(** A path as the program passes it around: the components of the text
    after the [/] of an absolute path, or the components of a relative
    one. *)
Inductive pathname :=
| Absolute (p : path)
| Relative (p : path).

Definition pathname_text (n : pathname) : string :=
  match n with
  | Absolute p => String "/" (String.concat "/" p)
  | Relative p => String.concat "/" p
  end.

(** [os.path.realpath] in the working directory [cwd], there being no
    symbolic links: the components of the absolute path. *)
Definition realpath (cwd : path) (n : pathname) : path :=
  match n with
  | Absolute p => normpath p
  | Relative p => normpath (cwd ++ p)
  end.

(** [len(commonprefix([start_list, path_list]))] *)
Fixpoint common (a b : path) : nat :=
  match a, b with
  | x :: a', y :: b' => if String.eqb x y then S (common a' b') else O
  | _, _ => O
  end.

(** [os.path.relpath] of an absolute path, in the working directory
    [cwd]. *)
Definition relpath (cwd : path) (p : path) : pathname :=
  let path_list := normpath p in
  let i := common cwd path_list in
  let rel_list :=
    repeat ".."%string (length cwd - i) ++ drop i path_list in
  match rel_list with
  | [] => Relative ["."%string]
  | _ => Relative rel_list
  end.

Section FindRepository.

Variable conf : Type.
Variable conf_read : bytes -> result conf.
Variable conf_empty : conf.
Variable conf_version : conf -> result Z.

(** [repo_find(path, required)] in the working directory [cwd], with
    [depth] frames left. *)
Fixpoint repo_find (depth : nat) (cwd : path) (pth : pathname)
    (required : bool) (fs : filesystem) : result (option GitRepository) :=
  match depth with
  | O => Raise RecursionError
  | S depth' =>
      let path := realpath cwd pth in
      if Os.isdir fs (Os.join path [".git"%string]) then
        let* repo :=
          GitRepository_init conf conf_read conf_empty conf_version
            path false fs in
        Ok (Some repo)
      else
        let parent := relpath cwd (Os.join path [".."%string]) in
        if String.eqb (pathname_text parent) (pathname_text (Absolute path))
        then
          if required then Raise (Exception "No git directory.")
          else Ok None
        else repo_find depth' cwd parent required fs
  end.

End FindRepository.

(** ** Facts on path names *)

Definition names (p : path) : Prop := Forall (fun c => is_name c = true) p.

Section PathFacts.

Implicit Types (p q a b cwd stack rest : path) (c : string).

Lemma is_name_plain c :
  is_name c = true ->
  c <> ".."%string /\ c <> "."%string /\
  exists ch c', c = String ch c' /\ ch <> "/"%char.
Proof.
  unfold is_name. intros H.
  apply andb_prop in H as [H Hall]. apply andb_prop in H as [H Hdd].
  apply andb_prop in H as [He Hd].
  apply negb_true_iff, String.eqb_neq in He, Hd, Hdd.
  repeat split; try assumption.
  destruct c as [|ch c']; [contradiction|].
  exists ch, c'. split; [reflexivity|].
  simpl in Hall. apply andb_prop in Hall as [Hch _].
  now apply negb_true_iff, Ascii.eqb_neq in Hch.
Qed.

Lemma normalize_names stack a : names a -> normalize stack a = stack ++ a.
Proof.
  intros Ha. revert stack.
  induction Ha as [|c a Hc _ IH]; intros stack; simpl.
  - now rewrite app_nil_r.
  - destruct (is_name_plain c Hc) as (Hdd & Hd & _).
    apply String.eqb_neq in Hdd, Hd. rewrite Hdd, Hd, IH.
    now rewrite <- app_assoc.
Qed.

Lemma normalize_app stack a b :
  normalize stack (a ++ b) = normalize (normalize stack a) b.
Proof.
  revert stack. induction a as [|c a IH]; intros stack; simpl; [reflexivity|].
  destruct (String.eqb c ".."); [apply IH|].
  destruct (String.eqb c "."); apply IH.
Qed.

Lemma removelast_take a : removelast a = take (length a - 1) a.
Proof.
  rewrite removelast_firstn_len. f_equal. lia.
Qed.

Lemma normalize_up stack (k : nat) :
  normalize stack (repeat ".."%string k) = take (length stack - k) stack.
Proof.
  revert stack. induction k as [|k IH]; intros stack; simpl.
  - rewrite Nat.sub_0_r. now rewrite take_ge by lia.
  - rewrite IH, removelast_take, take_take, length_take. f_equal. lia.
Qed.

Lemma names_take a (n : nat) : names a -> names (take n a).
Proof. apply Forall_take. Qed.

Lemma names_drop a (n : nat) : names a -> names (drop n a).
Proof. apply Forall_drop. Qed.

Lemma names_removelast a : names a -> names (removelast a).
Proof. rewrite removelast_take. apply names_take. Qed.

Lemma normpath_parent a :
  names a -> normpath (Os.join a [".."%string]) = removelast a.
Proof.
  intros Ha. unfold normpath, Os.join.
  rewrite normalize_app, (normalize_names [] a) by assumption. reflexivity.
Qed.

Lemma common_le a b : (common a b <= length a)%nat.
Proof.
  revert b. induction a as [|x a IH]; intros [|y b]; simpl; try lia.
  destruct (String.eqb x y); [specialize (IH b)|]; simpl; lia.
Qed.

Lemma common_take a b : take (common a b) a = take (common a b) b.
Proof.
  revert b. induction a as [|x a IH]; intros [|y b]; simpl; try reflexivity.
  destruct (String.eqb_spec x y) as [->|]; simpl; [|reflexivity].
  now rewrite IH.
Qed.

(** What [realpath] makes of the [relpath] of an absolute path is that
    path. *)
Lemma realpath_relpath cwd a b :
  names cwd -> names b -> normpath a = b ->
  realpath cwd (relpath cwd a) = b.
Proof.
  intros Hcwd Hb Ea. unfold relpath. rewrite Ea.
  pose proof (common_le cwd b) as Hle.
  pose proof (common_take cwd b) as Ht.
  set (i := common cwd b) in *.
  assert (normpath (cwd ++ repeat ".."%string (length cwd - i) ++ drop i b)
          = b) as E.
  { unfold normpath. rewrite normalize_app.
    rewrite (normalize_names [] cwd) by assumption. simpl.
    rewrite normalize_app, normalize_up.
    rewrite normalize_names by now apply names_drop.
    replace (length cwd - (length cwd - i))%nat with i by lia.
    rewrite Ht. apply take_drop. }
  destruct (repeat ".."%string (length cwd - i) ++ drop i b) as [|c r] eqn:El.
  - rewrite app_nil_r in E. simpl. unfold normpath in *.
    rewrite normalize_app. exact E.
  - exact E.
Qed.

(** The text of a [relpath] is never the text of an absolute path. *)
Lemma relpath_text cwd a q :
  names (normpath a) ->
  String.eqb (pathname_text (relpath cwd a)) (pathname_text (Absolute q))
  = false.
Proof.
  intros Hb. unfold relpath.
  set (b := normpath a) in *. set (i := common cwd b).
  destruct (length cwd - i)%nat as [|k]; simpl repeat.
  - simpl app. pose proof (names_drop b i Hb) as Hd.
    destruct (drop i b) as [|c r]; [reflexivity|].
    apply Forall_inv in Hd.
    destruct (is_name_plain c Hd) as (_ & _ & ch & c' & -> & Hch).
    apply Ascii.eqb_neq in Hch.
    simpl. destruct r; simpl; now rewrite Hch.
  - simpl. destruct (repeat ".."%string k ++ drop i b); reflexivity.
Qed.

End PathFacts.

(** ** Claims on [repo_find] *)

Section FindClaims.

Variable conf : Type.
Variable conf_read : bytes -> result conf.
Variable conf_empty : conf.
Variable conf_version : conf -> result Z.

Implicit Types (fs : filesystem) (cwd a : path) (pth : pathname).

(** One step up: without a [.git] directory at [path], [repo_find] goes
    on with the parent, never taking the way out for the root. *)
Lemma repo_find_up depth cwd pth required fs a :
  names cwd -> realpath cwd pth = a -> names a ->
  Os.isdir fs (a ++ [".git"%string]) = false ->
  exists pth',
    realpath cwd pth' = removelast a /\
    repo_find conf conf_read conf_empty conf_version (S depth) cwd pth
      required fs
    = repo_find conf conf_read conf_empty conf_version depth cwd pth'
        required fs.
Proof.
  intros Hcwd Ea Ha Hgit.
  exists (relpath cwd (Os.join a [".."%string])). split.
  - apply realpath_relpath; [assumption | now apply names_removelast |].
    now apply normpath_parent.
  - cbn [repo_find]. rewrite Ea. unfold Os.join at 1. rewrite Hgit.
    rewrite relpath_text; [reflexivity|].
    rewrite normpath_parent by assumption. now apply names_removelast.
Qed.

Lemma take_removelast a (n : nat) :
  take n (removelast a) = take (n `min` (length a - 1)) a.
Proof. now rewrite removelast_take, take_take. Qed.

(** X25. Without a repository, [repo_find] does not come back with an
    answer.  Where no directory from [path] up to the root has a [.git]
    directory, [repo_find] raises [RecursionError], whatever the recursion
    limit and also when [required] is false: the parent it computes with
    [os.path.relpath] is a relative path and is never equal to the absolute
    [path], so that neither ["No git directory."] is raised nor [None]
    returned. *)
Theorem repo_find_no_repository depth cwd pth required fs :
  names cwd -> names (realpath cwd pth) ->
  (forall n : nat,
     Os.isdir fs (take n (realpath cwd pth) ++ [".git"%string]) = false) ->
  repo_find conf conf_read conf_empty conf_version depth cwd pth required fs
  = Raise RecursionError.
Proof.
  intros Hcwd. revert pth.
  induction depth as [|depth IH]; intros pth Ha Hgit; [reflexivity|].
  destruct (repo_find_up depth cwd pth required fs (realpath cwd pth)
              Hcwd eq_refl Ha) as (pth' & Ep & ->).
  - specialize (Hgit (length (realpath cwd pth))).
    now rewrite take_ge in Hgit by lia.
  - apply IH; rewrite Ep.
    + now apply names_removelast.
    + intros n. rewrite take_removelast. apply Hgit.
Qed.

(** X26. The nearest repository.  Where [top], a directory on the way
    from the root to [path], has a [.git] directory and no directory
    between it and [path] has one, [repo_find] returns what
    [GitRepository(top)] returns or raises, given a frame for each
    directory from [path] up to [top]. *)
Theorem repo_find_nearest depth cwd pth required fs a (k : nat) :
  names cwd -> realpath cwd pth = a -> names a ->
  (k <= length a)%nat ->
  Os.isdir fs (take k a ++ [".git"%string]) = true ->
  (forall j : nat, (k < j <= length a)%nat ->
                   Os.isdir fs (take j a ++ [".git"%string]) = false) ->
  (length a - k < depth)%nat ->
  repo_find conf conf_read conf_empty conf_version depth cwd pth required fs
  = let* repo :=
      GitRepository_init conf conf_read conf_empty conf_version
        (take k a) false fs in
    Ok (Some repo).
Proof.
  intros Hcwd. revert pth a.
  induction depth as [|depth IH]; intros pth a Ea Ha Hk Htop Hbelow Hd; [lia|].
  destruct (decide (k = length a)) as [->|Hne].
  - rewrite take_ge in * by lia.
    cbn [repo_find]. rewrite Ea. unfold Os.join. now rewrite Htop.
  - destruct (repo_find_up depth cwd pth required fs a Hcwd Ea Ha)
      as (pth' & Ep & ->).
    + specialize (Hbelow (length a)). rewrite take_ge in Hbelow by lia.
      apply Hbelow. lia.
    + assert (length (removelast a) = (length a - 1)%nat) as El
          by (rewrite removelast_take, length_take; lia).
      rewrite (IH pth' (removelast a) Ep).
      * rewrite take_removelast. do 3 f_equal. lia.
      * now apply names_removelast.
      * lia.
      * rewrite take_removelast.
        replace (k `min` (length a - 1))%nat with k by lia. exact Htop.
      * intros j Hj. rewrite take_removelast.
        replace (j `min` (length a - 1))%nat with j by lia.
        apply Hbelow. lia.
      * lia.
Qed.

(** X27. Create, then find.  After [repo_create] has made a fresh
    repository at [p], [repo_find] for a path that is [p] (as
    [repo_find()] is in the working directory [p]) takes the first way out:
    it returns the repository when the library reads the version 0 from the
    configuration that was written, and raises what [GitRepository] raises
    otherwise. *)
Theorem repo_create_then_find depth cwd pth required p fs :
  realpath cwd pth = p ->
  p <> [] -> path_clear fs p -> no_git fs p ->
  exists fs',
    repo_create conf conf_read conf_empty conf_version p fs
    = (Ok {| worktree := p; gitdir := p ++ [".git"%string] |}, fs') /\
    repo_find conf conf_read conf_empty conf_version (S depth) cwd pth
      required fs'
    = (let* cnf := conf_read default_config_text in
       let* vers := conf_version cnf in
       if negb (vers =? 0) then
         Raise (Exception ("Unsupported repository format version "
                           ++ string_of_list_byte (Py.str vers)))
       else Ok (Some {| worktree := p; gitdir := p ++ [".git"%string] |})).
Proof.
  intros Ea Hne Hc Hgit.
  destruct (repo_create_spec conf conf_read conf_empty conf_version p fs
              Hne Hc Hgit) as (fs5 & Hrc & Hg & Hdirs & Hp).
  pose proof (with_files_layout p fs fs5 Hgit Hg Hdirs) as Hlay.
  exists (with_files p fs5). split; [exact Hrc|].
  assert (with_files p fs5 !! sub p [] = Some Dir) as Hd
      by (apply Hlay; unfold git_layout; simpl; tauto).
  cbn [repo_find]. rewrite Ea. unfold Os.isdir at 1.
  change (Os.join p [".git"%string]) with (sub p []). rewrite Hd.
  rewrite (GitRepository_init_created conf conf_read conf_empty conf_version
             p _ Hlay).
  destruct (conf_read default_config_text) as [cnf|e]; [|reflexivity].
  simpl. destruct (conf_version cnf) as [vers|e]; [|reflexivity].
  simpl. destruct (negb (vers =? 0)); reflexivity.
Qed.

End FindClaims.

Definition find_from (depth : nat) (cwd : path) (pth : pathname)
    (required : bool) (fs : filesystem) : result (option GitRepository) :=
  repo_find known_conf known_conf_read None known_conf_version
    depth cwd pth required fs.

Definition created : filesystem := snd (create_at ["repo"%string] ∅).

Lemma repo_find_no_repository_witness :
  find_from 1000 ["home"%string; "user"%string] (Relative ["."%string])
    false ∅
  = Raise RecursionError.
Proof.
  apply (repo_find_no_repository known_conf known_conf_read None
           known_conf_version 1000 ["home"%string; "user"%string]
           (Relative ["."%string]) false ∅).
  - repeat constructor.
  - repeat constructor.
  - intros n. unfold Os.isdir. now rewrite lookup_empty.
Defined.

Lemma repo_find_nearest_witness :
  find_from 3 ["repo"%string; "src"%string] (Relative ["lib"%string])
    true created
  = Ok (Some {| worktree := ["repo"%string];
                gitdir := ["repo"%string; ".git"%string] |}).
Proof.
  apply (repo_find_nearest known_conf known_conf_read None
           known_conf_version 3 ["repo"%string; "src"%string]
           (Relative ["lib"%string]) true created
           ["repo"%string; "src"%string; "lib"%string] 1).
  - repeat constructor.
  - reflexivity.
  - repeat constructor.
  - simpl. lia.
  - vm_compute. reflexivity.
  - intros j Hj. simpl in Hj.
    destruct j as [|[|[|[|j]]]]; try lia; vm_compute; reflexivity.
  - simpl. lia.
Defined.

Lemma repo_create_then_find_witness :
  exists fs',
    create_at ["repo"%string] ∅
    = (Ok {| worktree := ["repo"%string];
             gitdir := ["repo"%string] ++ [".git"%string] |}, fs') /\
    find_from 1 ["repo"%string] (Relative ["."%string]) true fs'
    = Ok (Some {| worktree := ["repo"%string];
                  gitdir := ["repo"%string] ++ [".git"%string] |}).
Proof.
  apply (repo_create_then_find known_conf known_conf_read None
           known_conf_version 0 ["repo"%string] (Relative ["."%string]) true
           ["repo"%string] ∅).
  - reflexivity.
  - exact one_component.
  - apply path_clear_empty.
  - apply no_git_empty.
Defined.
